(** * safem: precision-safe conversions between scaled integers and floats

    A shallow embedding of the Go package [safem] (files [safemath.go],
    [number.go] and [bigint.go]) together with the part of Go's standard
    library that decides its behaviour:

    - [*big.Int] is [option Z] ([None] is the nil pointer), [big.Int] is [Z];
    - [float64] is the IEEE-754 binary64 format, taken from the standard
      library's [SpecFloat] ([spec_float] with [prec = 53], [emax = 1024]);
      hardware multiplication, division and comparison are [SFmul], [SFdiv],
      [SFltb], [SFeqb];
    - [big.Float] is a precision together with a sign and a dyadic value
      [m * 2^e]; every operation computes the exact result and rounds it to
      the receiver's precision, to nearest with ties to even, which is what
      [math/big] documents and implements.  The exponent of a [big.Float] is
      an [int32] in Go and unbounded here: values of more than [2^31] bits
      are outside the model;
    - a run-time panic is a value of [result]; Go's [(value, error)] pairs
      are pairs with an [option error];
    - the two package-level maps [pow10Cache] and [pow10FloatCache] are
      threaded explicitly through every function that reads or fills them;
    - the methods of [*BigInt], which update their receiver in place and
      may be called with the receiver among the operands, run on a store of
      [big.Int] objects and [BigInt] structs by address. *)

From Stdlib Require Import ZArith Lia Bool List String Ascii Zpower.
From Stdlib Require Import Floats.SpecFloat.
From Stdlib Require Import DecimalString.
From stdpp Require Import base gmap strings.

Local Open Scope Z_scope.

(* ================================================================== *)
(** * Run-time results *)

(** The ways the code below can panic: [big.ErrNaN] (raised by [math/big]
    when an operation would produce a NaN), a nil pointer dereference and
    an integer division by zero. *)
Inductive panic : Type :=
| ErrNaN
| NilDereference
| DivideByZero.

Inductive result (A : Type) : Type :=
| Ret (a : A)
| Panicked (p : panic).

Arguments Ret {A} a.
Arguments Panicked {A} p.

Definition bind {A B : Type} (c : result A) (k : A -> result B) : result B :=
  match c with
  | Ret a => k a
  | Panicked p => Panicked p
  end.

Notation "'let*' x ':=' c 'in' k" := (bind c (fun x => k))
  (at level 10, x name, c at level 100, k at level 200).

Definition returns {A : Type} (c : result A) : Prop :=
  match c with Ret _ => True | Panicked _ => False end.

(** The value of a computation that also returns the caches. *)
Definition value_of {A S : Type} (c : result (A * S)) : result A :=
  match c with
  | Ret (a, _) => Ret a
  | Panicked p => Panicked p
  end.

(** Go [error] values of the package. *)
Inductive error : Type :=
| ErrNegativeInput
| ErrTooLarge
| ErrPrecisionLoss
| ErrInvalidString
| ErrInvalidInput
| errors_New (msg : string)
| strconv_ErrSyntax
| json_SyntaxError.

(* ================================================================== *)
(** * Integers *)

Definition MaxInt64 : Z := 2 ^ 63 - 1.
Definition MinInt64 : Z := - 2 ^ 63.

(** [big.Int.BitLen] of an absolute value. *)
Definition bitlen (m : Z) : Z := if m <=? 0 then 0 else Z.log2 m + 1.

(** [new(big.Int).Exp(big.NewInt(10), big.NewInt(y), nil)]: with a nil
    modulus [Exp] returns 1 for every [y <= 0]. *)
Definition pow10 (y : Z) : Z := if y <=? 0 then 1 else 10 ^ y.

(** [big.Int.IsInt64]. *)
Definition IsInt64 (x : Z) : bool := (MinInt64 <=? x) && (x <=? MaxInt64).

(* ================================================================== *)
(** * float64 *)

Abbreviation float64 := spec_float.

Definition f64_mul : float64 -> float64 -> float64 := SFmul 53 1024.
Definition f64_div : float64 -> float64 -> float64 := SFdiv 53 1024.
Definition f64_ltb : float64 -> float64 -> bool := SFltb.
Definition f64_leb : float64 -> float64 -> bool := SFleb.
Definition f64_eqb : float64 -> float64 -> bool := SFeqb.

(** Conversion of an integer (an [int64] value or an untyped integer
    constant) to [float64]: the nearest double, ties to even. *)
Definition float64_of_Z (z : Z) : float64 := binary_normalize 53 1024 z 0 false.

Definition f64_zero : float64 := S754_zero false.

(** A value that a [float64] variable can hold. *)
Definition is_float64 (x : float64) : Prop := valid_binary 53 1024 x = true.

Definition math_IsNaN (x : float64) : bool :=
  match x with S754_nan => true | _ => false end.

(** [math.IsInf(x, 0)]. *)
Definition math_IsInf0 (x : float64) : bool :=
  match x with S754_infinity _ => true | _ => false end.

(** The integer part of [m * 2^e], for [m >= 0]. *)
Definition trunc_dyadic (m e : Z) : Z :=
  if 0 <=? e then m * 2 ^ e else m / 2 ^ (- e).

(** [int64(x)] for a [float64] [x]: truncation toward zero.  Go leaves the
    result of an out-of-range conversion to the implementation; this is
    the amd64 one, which yields [MinInt64] there and for NaN. *)
Definition int64_of_float64 (x : float64) : Z :=
  match x with
  | S754_zero _ => 0
  | S754_finite s m e =>
      let t := trunc_dyadic (Zpos m) e in
      let v := if s then - t else t in
      if IsInt64 v then v else MinInt64
  | _ => MinInt64
  end.

(** The constants of the source, as doubles. *)
Definition f64_1e18 : float64 := Eval vm_compute in float64_of_Z (10 ^ 18).
Definition f64_1e17 : float64 := Eval vm_compute in float64_of_Z (10 ^ 17).
Definition f64_1 : float64 := Eval vm_compute in float64_of_Z 1.
Definition f64_1em17 : float64 := Eval vm_compute in f64_div f64_1 f64_1e17.
Definition f64_0_5 : float64 := Eval vm_compute in f64_div f64_1 (float64_of_Z 2).
Definition f64_0_001 : float64 :=
  Eval vm_compute in f64_div f64_1 (float64_of_Z 1000).
(** [math.MaxInt64] used as a [float64] operand: [2^63]. *)
Definition f64_MaxInt64 : float64 := Eval vm_compute in float64_of_Z MaxInt64.
Definition f64_MinInt64 : float64 := Eval vm_compute in float64_of_Z MinInt64.

(* ================================================================== *)
(** * big.Float *)

Inductive Accuracy : Type := Below | Exact | Above.

Definition acc_opp (a : Accuracy) : Accuracy :=
  match a with Below => Above | Exact => Exact | Above => Below end.

(** [makeAcc(above)]. *)
Definition makeAcc (above : bool) : Accuracy := if above then Above else Below.

(** A [big.Float] value: a signed zero, a signed infinity, or [± m * 2^e]
    with [m] odd. *)
Inductive fval : Type :=
| Fzero (neg : bool)
| Ffin (neg : bool) (m : positive) (e : Z)
| Finf (neg : bool).

Record Float : Type := mkFloat { prec : Z; val : fval }.

Fixpoint odd_part (m : positive) (e : Z) : positive * Z :=
  match m with
  | xO m' => odd_part m' (e + 1)
  | _ => (m, e)
  end.

Definition dyadic (neg : bool) (m e : Z) : fval :=
  match m with
  | Zpos p => let '(m', e') := odd_part p e in Ffin neg m' e'
  | _ => Fzero neg
  end.

(** [Float.round]: the leading [p] bits of [m] are kept; [rbit] is the bit
    just below them and the sticky bit says whether anything is set below
    [rbit], in [m] or (argument [sbit]) in a tail that [m] no longer holds.
    Mode [ToNearestEven]: the mantissa is incremented when [rbit] is set
    and the sticky bit or the last kept bit is set.  The accuracy is that
    of a positive number. *)
Definition round_even (p m e : Z) (sbit : bool) : Z * Z * Accuracy :=
  let s := bitlen m - p in
  if s <=? 0 then (m, e, if sbit then Below else Exact)
  else
    let q := m / 2 ^ s in
    let r := m mod 2 ^ s in
    let half := 2 ^ (s - 1) in
    let rbit := half <=? r in
    let sticky := sbit || negb (r mod half =? 0) in
    if negb rbit && negb sticky then (q, e + s, Exact)
    else if rbit && (sticky || Z.odd q) then (q + 1, e + s, Above)
    else (q, e + s, Below).

Definition round_val (p : Z) (neg : bool) (m e : Z) (sbit : bool)
  : fval * Accuracy :=
  let '(m', e', a) := round_even p m e sbit in
  (dyadic neg m' e', if neg then acc_opp a else a).

(** [z.Set(x)] for a receiver of precision [p]. *)
Definition set_val (p : Z) (v : fval) : fval :=
  match v with
  | Ffin s m e => fst (round_val p s (Zpos m) e false)
  | _ => v
  end.

Definition fneg (v : fval) : fval :=
  match v with
  | Fzero s => Fzero (negb s)
  | Ffin s m e => Ffin (negb s) m e
  | Finf s => Finf (negb s)
  end.

Definition fabs (v : fval) : fval :=
  match v with
  | Fzero _ => Fzero false
  | Ffin _ m e => Ffin false m e
  | Finf _ => Finf false
  end.

Definition fsign (v : fval) : bool :=
  match v with Fzero s | Ffin s _ _ | Finf s => s end.

(** The precision an operation rounds to: the receiver's, or for a fresh
    receiver ([zprec = 0]) the larger of the operands'. *)
Definition op_prec (zprec : Z) (x y : Float) : Z :=
  if zprec =? 0 then Z.max (prec x) (prec y) else zprec.

(** [z.SetInt(x)]: a fresh receiver gets precision [max(x.BitLen(), 64)]. *)
Definition SetInt (zprec : Z) (x : Z) : Float :=
  let p := if zprec =? 0 then Z.max (bitlen (Z.abs x)) 64 else zprec in
  {| prec := p; val := fst (round_val p (x <? 0) (Z.abs x) 0 false) |}.

(** [z.SetFloat64(x)]: a fresh receiver gets precision 53; NaN panics. *)
Definition SetFloat64 (zprec : Z) (x : float64) : result Float :=
  let p := if zprec =? 0 then 53 else zprec in
  match x with
  | S754_nan => Panicked ErrNaN
  | S754_zero s => Ret {| prec := p; val := Fzero s |}
  | S754_infinity s => Ret {| prec := p; val := Finf s |}
  | S754_finite s m e =>
      Ret {| prec := p; val := fst (round_val p s (Zpos m) e false) |}
  end.

(** [big.NewFloat(x)]. *)
Definition NewFloat (x : float64) : result Float := SetFloat64 0 x.

(** [Float.uquo]: the quotient of the mantissas is computed with more than
    [p] bits, and the sticky bit records a nonzero remainder. *)
Definition uquo (p : Z) (neg : bool) (mx ex my ey : Z) : fval :=
  let k := p + 1 + bitlen my in
  let q := (mx * 2 ^ k) / my in
  let r := (mx * 2 ^ k) mod my in
  fst (round_val p neg q (ex - ey - k) (negb (r =? 0))).

(** [z.Quo(x, y)]. *)
Definition Quo (zprec : Z) (x y : Float) : result Float :=
  let p := op_prec zprec x y in
  let s := xorb (fsign (val x)) (fsign (val y)) in
  match val x, val y with
  | Ffin _ mx ex, Ffin _ my ey =>
      Ret {| prec := p; val := uquo p s (Zpos mx) ex (Zpos my) ey |}
  | Fzero _, Fzero _ | Finf _, Finf _ => Panicked ErrNaN
  | Fzero _, _ | _, Finf _ => Ret {| prec := p; val := Fzero s |}
  | _, _ => Ret {| prec := p; val := Finf s |}
  end.

(** [z.Mul(x, y)]. *)
Definition Mul (zprec : Z) (x y : Float) : result Float :=
  let p := op_prec zprec x y in
  let s := xorb (fsign (val x)) (fsign (val y)) in
  match val x, val y with
  | Ffin _ mx ex, Ffin _ my ey =>
      Ret {| prec := p;
             val := fst (round_val p s (Zpos mx * Zpos my) (ex + ey) false) |}
  | Fzero _, Finf _ | Finf _, Fzero _ => Panicked ErrNaN
  | Finf _, _ | _, Finf _ => Ret {| prec := p; val := Finf s |}
  | _, _ => Ret {| prec := p; val := Fzero s |}
  end.

(** The signed integer [n] with [v = n * 2^e0], for a finite [v] whose
    exponent is at least [e0]. *)
Definition scaled (s : bool) (m : positive) (e e0 : Z) : Z :=
  let n := Zpos m * 2 ^ (e - e0) in if s then - n else n.

(** [z.Sub(x, y)]. *)
Definition Sub (zprec : Z) (x y : Float) : result Float :=
  let p := op_prec zprec x y in
  match val x, val y with
  | Ffin sx mx ex, Ffin sy my ey =>
      let e0 := Z.min ex ey in
      let d := scaled sx mx ex e0 - scaled sy my ey e0 in
      Ret {| prec := p;
             val := if d =? 0 then Fzero false
                    else fst (round_val p (d <? 0) (Z.abs d) e0 false) |}
  | Finf sx, Finf sy =>
      if Bool.eqb sx sy then Panicked ErrNaN
      else Ret {| prec := p; val := Finf sx |}
  | Fzero sx, Fzero sy => Ret {| prec := p; val := Fzero (sx && negb sy) |}
  | Finf _, _ | _, Fzero _ => Ret {| prec := p; val := set_val p (val x) |}
  | _, _ => Ret {| prec := p; val := fneg (set_val p (val y)) |}
  end.

(** [z.Abs(x)] with [z] and [x] the same variable. *)
Definition Abs (x : Float) : Float := {| prec := prec x; val := fabs (val x) |}.

(** [x.Sign()]. *)
Definition Sign (x : Float) : Z :=
  match val x with
  | Fzero _ => 0
  | Ffin s _ _ | Finf s => if s then -1 else 1
  end.

(** [Float.ord]. *)
Definition ord (v : fval) : Z :=
  match v with
  | Fzero _ => 0
  | Ffin s _ _ => if s then -1 else 1
  | Finf s => if s then -2 else 2
  end.

Definition Z_of_comparison (c : comparison) : Z :=
  match c with Lt => -1 | Eq => 0 | Gt => 1 end.

(** [Float.ucmp]: comparison of two positive dyadic numbers. *)
Definition ucmp (mx : positive) (ex : Z) (my : positive) (ey : Z) : comparison :=
  let e0 := Z.min ex ey in
  Z.compare (Zpos mx * 2 ^ (ex - e0)) (Zpos my * 2 ^ (ey - e0)).

(** [x.Cmp(y)]. *)
Definition Cmp (x y : Float) : Z :=
  let ox := ord (val x) in
  let oy := ord (val y) in
  if ox <? oy then -1
  else if oy <? ox then 1
  else
    match val x, val y with
    | Ffin s mx ex, Ffin _ my ey =>
        if s then Z_of_comparison (ucmp my ey mx ex)
        else Z_of_comparison (ucmp mx ex my ey)
    | _, _ => 0
    end.

(** [x.Int(z)]: the value truncated toward zero; for an infinity the
    returned pointer is nil and [z] is left alone. *)
Definition Float_Int (x : Float) : option Z * Accuracy :=
  match val x with
  | Fzero _ => (Some 0, Exact)
  | Finf s => (None, makeAcc s)
  | Ffin s m e =>
      let t := trunc_dyadic (Zpos m) e in
      (Some (if s then - t else t),
       if 0 <=? e then Exact else makeAcc s)
  end.

(** Packing of a dyadic number that fits the binary64 format. *)
Definition f64_pack (neg : bool) (m e : Z) : float64 :=
  let et := Z.max (bitlen m + e - 53) (-1074) in
  match Z.shiftl m (e - et) with
  | Zpos p => S754_finite neg p et
  | _ => S754_zero neg
  end.

(** The finite case of [x.Float64()], for the positive mantissa [m] and
    the exponent [e] of [x]: [p] is the mantissa width available at the
    exponent of [x] (fewer than 53 bits for a denormal).  A value whose
    leading bit falls below the smallest denormal underflows to zero, also
    at [p = 0] when the mantissa is one half exactly (a power of two). *)
Definition round_f64 (s : bool) (m e : Z) : float64 * Accuracy :=
  let ex := bitlen m + e - 1 in
  let p := if ex <? -1022 then 53 + 1022 + ex else 53 in
  if (p <? 0) || ((p =? 0) && (m =? 2 ^ Z.log2 m)) then
    (S754_zero s, makeAcc s)
  else if p =? 0 then
    (S754_finite s 1 (-1074), makeAcc (negb s))
  else
    let '(m', e', a) := round_even p m e false in
    if 1023 <? bitlen m' + e' - 1 then
      (S754_infinity s, makeAcc (negb s))
    else
      (f64_pack s m' e', if s then acc_opp a else a).

(** [x.Float64()]. *)
Definition Float64 (x : Float) : float64 * Accuracy :=
  match val x with
  | Fzero s => (S754_zero s, Exact)
  | Finf s => (S754_infinity s, Exact)
  | Ffin s m e => round_f64 s (Zpos m) e
  end.

(* ================================================================== *)
(** * Decimal text *)

Definition digit_char (d : Z) : ascii := ascii_of_N (Z.to_N (48 + d mod 10)).

(** The last [n] decimal digits of [v], most significant first. *)
Fixpoint digits_fixed (n : nat) (v : Z) (acc : string) : string :=
  match n with
  | O => acc
  | S n' => digits_fixed n' (v / 10) (String (digit_char v) acc)
  end.

(** Number of decimal digits of [v > 0], as a recursion bound. *)
Definition decimal_size (v : Z) : nat := S (Z.to_nat (Z.log2 v)).

Fixpoint digits_var (fuel : nat) (v : Z) (acc : string) : string :=
  match fuel with
  | O => acc
  | S fuel' =>
      if v <? 10 then String (digit_char v) acc
      else digits_var fuel' (v / 10) (String (digit_char v) acc)
  end.

(** Base-10 text of a natural number. *)
Definition decimal_of_nonneg (v : Z) : string :=
  if v <=? 0 then "0" else digits_var (decimal_size v) v "".

(** [big.Int.String]. *)
Definition Int_String (v : Z) : string :=
  if v <? 0 then String "-" (decimal_of_nonneg (- v)) else decimal_of_nonneg v.

(** Nearest integer to [a / b], ties to even, for [a >= 0] and [b > 0]:
    the rounding of [decimal.round] in [math/big]. *)
Definition div_round_even (a b : Z) : Z :=
  let q := a / b in
  let r := a mod b in
  if (b <? 2 * r) || ((b =? 2 * r) && Z.odd q) then q + 1 else q.

(** The fractional part of a fixed-point text: a point and [n] digits,
    or nothing when [n] is zero. *)
Definition frac_text (n N : Z) : string :=
  if 0 <? n then String "." (digits_fixed (Z.to_nat n) N "") else "".

(** [x.Text('f', n)] for [n >= 0]: the exact decimal expansion of [x]
    rounded to [n] fractional digits. *)
Definition Text_f (x : Float) (n : Z) : string :=
  let sign : string := if fsign (val x) then "-" else "" in
  match val x with
  | Finf s => append sign (if s then "Inf" else "+Inf")
  | Fzero _ => append sign (append "0" (frac_text n 0))
  | Ffin _ m e =>
      let N := if 0 <=? e then Zpos m * 2 ^ e * 10 ^ n
               else div_round_even (Zpos m * 10 ^ n) (2 ^ (- e)) in
      append sign
        (append (decimal_of_nonneg (N / 10 ^ n)) (frac_text n (N mod 10 ^ n)))
  end.

(* ================================================================== *)
(** * Package strings *)

Fixpoint Contains_char (c : ascii) (s : string) : bool :=
  match s with
  | EmptyString => false
  | String a s' => Ascii.eqb a c || Contains_char c s'
  end.

(** [strings.TrimRight(s, c)] for a one-character cutset. *)
Fixpoint TrimRight (c : ascii) (s : string) : string :=
  match s with
  | EmptyString => EmptyString
  | String a s' =>
      match TrimRight c s' with
      | EmptyString => if Ascii.eqb a c then EmptyString else String a EmptyString
      | t => String a t
      end
  end.

Fixpoint TrimLeft (c : ascii) (s : string) : string :=
  match s with
  | String a s' => if Ascii.eqb a c then TrimLeft c s' else s
  | EmptyString => EmptyString
  end.

(** [strings.Trim(s, c)] for a one-character cutset. *)
Definition Trim (c : ascii) (s : string) : string := TrimRight c (TrimLeft c s).

Fixpoint HasSuffix_char (c : ascii) (s : string) : bool :=
  match s with
  | EmptyString => false
  | String a EmptyString => Ascii.eqb a c
  | String _ s' => HasSuffix_char c s'
  end.

Definition quote_char : ascii := ascii_of_N 34.

(** Value of a digit in base [base] (at most 16), if it is one. *)
Definition digit_val (base : Z) (c : ascii) : option Z :=
  let n := Z.of_N (N_of_ascii c) in
  let v := if (48 <=? n) && (n <=? 57) then n - 48
           else if (97 <=? n) && (n <=? 102) then n - 87
           else if (65 <=? n) && (n <=? 70) then n - 55
           else 99 in
  if v <? base then Some v else None.

Fixpoint scan_digits (base : Z) (s : string) (acc : Z) : option Z :=
  match s with
  | EmptyString => Some acc
  | String c s' =>
      match digit_val base c with
      | Some d => scan_digits base s' (acc * base + d)
      | None => None
      end
  end.

(** [z.SetString(s, base)] for base 10 or 16: an optional sign and at
    least one digit, nothing else. *)
Definition SetString (s : string) (base : Z) : option Z :=
  let '(neg, body) :=
    match s with
    | String c r =>
        if Ascii.eqb c "-" then (true, r)
        else if Ascii.eqb c "+" then (false, r)
        else (false, s)
    | EmptyString => (false, s)
    end in
  match body with
  | EmptyString => None
  | _ => match scan_digits base body 0 with
         | Some v => Some (if neg then - v else v)
         | None => None
         end
  end.

(* ================================================================== *)
(** * big.Int helpers *)

(** [x.Int64()]: the low 64 bits, as a signed integer. *)
Definition Int_Int64 (x : Z) : Z := (x + 2 ^ 63) mod 2 ^ 64 - 2 ^ 63.

(** [z.Div(x, y)]: Euclidean division ([None]: division by zero panics). *)
Definition Int_Div (x y : Z) : option Z :=
  if y =? 0 then None
  else if 0 <? y then Some (x / y)
  else Some (- (x / (- y))).

(* ================================================================== *)
(** * safemath.go *)

(** The package-level caches of powers of ten. *)
Record caches : Type := mkCaches {
  pow10Cache : gmap Z Z;
  pow10FloatCache : gmap Z Float
}.

(** Their contents after package initialisation. *)
Definition initial_caches : caches :=
  {| pow10Cache := <[14 := pow10 14]> (<[18 := pow10 18]> ∅);
     pow10FloatCache := <[14 := SetInt 0 (pow10 14)]>
                          (<[18 := SetInt 0 (pow10 18)]> ∅) |}.

(** [k, ok := pow10Cache[y]; if !ok { k = 10^y; pow10Cache[y] = k }]. *)
Definition cached_pow10 (y : Z) (st : caches) : Z * caches :=
  match pow10Cache st !! y with
  | Some k => (k, st)
  | None =>
      let k := pow10 y in
      (k, {| pow10Cache := <[y := k]> (pow10Cache st);
             pow10FloatCache := pow10FloatCache st |})
  end.

(** [div, ok := pow10FloatCache[y]; if !ok { ...; pow10FloatCache[y] = div }]. *)
Definition cached_pow10Float (y : Z) (st : caches) : Float * caches :=
  match pow10FloatCache st !! y with
  | Some d => (d, st)
  | None =>
      let divInt := pow10 y in
      let d := SetInt 0 divInt in
      (d, {| pow10Cache := pow10Cache st;
             pow10FloatCache := <[y := d]> (pow10FloatCache st) |})
  end.

Definition BigInt2BigFloat (i : option Z) (decimal : Z) (st : caches)
  : result (Float * caches) :=
  match i with
  | None => let* z := SetFloat64 0 f64_zero in Ret (z, st)
  | Some n =>
      let fi := SetInt 0 n in
      let '(div, st') := cached_pow10Float decimal st in
      let* q := Quo 0 fi div in
      Ret (q, st')
  end.

Definition BigInt2Float (i : option Z) (decimal : Z) (st : caches)
  : result (float64 * option error * caches) :=
  match i with
  | None => Ret (f64_zero, Some ErrInvalidInput, st)
  | Some n =>
      if n <? 0 then Ret (f64_zero, Some ErrNegativeInput, st)
      else
        let* fs := BigInt2BigFloat i decimal st in
        let '(ff, acc) := Float64 (fst fs) in
        match acc with
        | Above => Ret (f64_zero, Some ErrPrecisionLoss, snd fs)
        | _ => Ret (ff, None, snd fs)
        end
  end.

(** The validation block of [FloatToBigIntBaseX]: whether the branch that
    holds the (commented-out) warning is reached. *)
Definition significant_loss (val : float64) (res : Z) (coin : Float)
  : result bool :=
  let* check := Quo 0 (SetInt 0 res) coin in
  let* v := SetFloat64 0 val in
  if negb (Cmp check v =? 0) then
    let* v1 := SetFloat64 0 val in
    let* diff := Sub 0 check v1 in
    let diff := Abs diff in
    let* v2 := SetFloat64 0 val in
    let* c := NewFloat f64_0_001 in
    let* lim := Mul 0 v2 c in
    Ret (0 <? Cmp diff lim)
  else Ret false.

(** [result := new(big.Int); x.Int(result)]. *)
Definition Int_into_new (x : Float) : Z :=
  match fst (Float_Int x) with
  | Some r => r
  | None => 0
  end.

Definition FloatToBigIntBaseX (val : float64) (y : Z) (st : caches)
  : result (Z * caches) :=
  if f64_ltb val f64_zero then Ret (0, st)
  else
    let* bigval := SetFloat64 0 val in
    let '(k, st') := cached_pow10 y st in
    let coin := SetInt 0 k in
    let* bigval := Mul (prec bigval) bigval coin in
    let res := Int_into_new bigval in
    let* _ := significant_loss val res coin in
    Ret (res, st').

Definition BigIntBaseX (f : float64) (y : Z) (st : caches)
  : result (Z * caches) :=
  if f64_ltb f f64_zero then Ret (0, st)
  else
    let* fast :=
      if y <=? 14 then
        match pow10Cache st !! y with
        | None => Panicked NilDereference
        | Some k =>
            Ret (f64_ltb f (f64_div f64_MaxInt64 (float64_of_Z (Int_Int64 k))))
        end
      else Ret false in
    if fast then
      match pow10Cache st !! y with
      | None => Panicked NilDereference
      | Some k =>
          let k := Int_Int64 k in
          Ret (int64_of_float64 (f64_mul f (float64_of_Z k)), st)
      end
    else FloatToBigIntBaseX f y st.

Definition UnBaseX (f : option Z) (y : Z) (st : caches)
  : result (Z * caches) :=
  match f with
  | None => Ret (0, st)
  | Some v =>
      if v <? 0 then Ret (0, st)
      else
        let '(k, st') := cached_pow10 y st in
        match Int_Div v k with
        | Some q => Ret (q, st')
        | None => Panicked DivideByZero
        end
  end.

Section Formatting.

(** [x.Text('f', n)] for a negative [n]: the shortest decimal text that
    reads back as [x], which [math/big] computes in [ftoa.go] and is not
    modelled here. *)
Variable Text_shortest : Float -> string.

Definition Float_Text (x : Float) (n : Z) : string :=
  if n <? 0 then Text_shortest x else Text_f x n.

Definition UnBaseXFloatString (f : option Z) (y : Z) (show_dec : Z)
  (st : caches) : result (string * caches) :=
  match f with
  | None => Ret ("0"%string, st)
  | Some v =>
      if v <? 0 then Ret ("0"%string, st)
      else
        let show_dec := if 100 <? show_dec then 100 else show_dec in
        let flo := SetInt 0 v in
        let '(div, st') := cached_pow10Float y st in
        let* flo := Quo (prec flo) flo div in
        let str := Float_Text flo show_dec in
        let str :=
          if Contains_char "." str then
            let str := TrimRight "0" str in
            if HasSuffix_char "." str then append str "0" else str
          else str in
        Ret (str, st')
  end.

End Formatting.

Definition ProcessFloatToDecimalAdjustment (decimal64b : Z) (state_amt : float64)
  : result Z :=
  if f64_ltb state_amt f64_zero then Ret 0
  else
    let* f := SetFloat64 0 state_amt in
    let pow := pow10 decimal64b in
    let powF := SetInt 0 pow in
    let* f := Mul (prec f) f powF in
    Ret (Int_into_new f).

(* ================================================================== *)
(** * safemath.go: the remaining functions *)

(** [BigFloatFromBigInt]. *)
Definition BigFloatFromBigInt (val : option Z) : result Float :=
  match val with
  | None => SetFloat64 0 f64_zero
  | Some v => Ret (SetInt 0 v)
  end.

(** [BigIntByString]. *)
Definition BigIntByString (val : string) : option Z * option error :=
  match val with
  | EmptyString => (None, Some ErrInvalidString)
  | _ =>
      match SetString val 10 with
      | Some n => (Some n, None)
      | None => (None, Some ErrInvalidString)
      end
  end.

(** [new(big.Int).Div(x, y)] as a computation: a zero divisor panics. *)
Definition Div_new (x y : Z) : result Z :=
  match Int_Div x y with
  | Some q => Ret q
  | None => Panicked DivideByZero
  end.

Definition BigIntByFloatBase14 (f : float64) (st : caches)
  : result (Z * caches) := BigIntBaseX f 14 st.

Definition BigIntBase14Percent (f : float64) (st : caches)
  : result (Z * caches) :=
  let* r := BigIntBaseX f 14 st in
  let* percent := Div_new (fst r) 100 in
  Ret (percent, snd r).

Definition BigIntBaseFloatBase18 (f : float64) (st : caches)
  : result (Z * caches) := BigIntBaseX f 18 st.

Definition FloatToBigIntBaseXPercent (f : float64) (y : Z) (st : caches)
  : result (Z * caches) :=
  let* r := FloatToBigIntBaseX f y st in
  let* percent := Div_new (fst r) 100 in
  Ret (percent, snd r).

Definition DAILY_COUNT : Z := 360.
Definition HOURLY_COUNT : Z := 8640.
Definition HOURS_DAILY : Z := 24.

Definition BigIntDailyAPR (f : option Z) : result Z :=
  match f with
  | None => Ret 0
  | Some v => Div_new v DAILY_COUNT
  end.

Definition BigIntHrAPR (f hour : option Z) : result Z :=
  match f, hour with
  | Some v, Some h =>
      let* b := Div_new v HOURLY_COUNT in
      Ret (b * h)
  | _, _ => Ret 0
  end.

Definition BigInt4HrAPR (f : option Z) : result Z := BigIntHrAPR f (Some 4).

Definition BigIntDailyBase (f hour : option Z) : result Z :=
  match f, hour with
  | Some v, Some h =>
      let* b := Div_new v HOURS_DAILY in
      Ret (b * h)
  | _, _ => Ret 0
  end.

Definition UnBase14 (f : option Z) (st : caches) : result (Z * caches) :=
  UnBaseX f 14 st.

(* ================================================================== *)
(** * number.go *)

(** [etherDivisor = big.NewFloat(1e18)]. *)
Definition etherDivisor : Float :=
  Eval vm_compute in
    match NewFloat f64_1e18 with
    | Ret d => d
    | Panicked _ => {| prec := 53; val := Fzero false |}
    end.

(** [maxSafeWei = (1 << 53) * 1e18]. *)
Definition maxSafeWei : Z := Z.shiftl 1 53 * 10 ^ 18.

Definition err_nil : error := errors_New "wei value is nil".
Definition err_negative : error := errors_New "negative wei value is invalid".
Definition err_precision : error :=
  errors_New "precision loss during conversion to float64".
Definition err_too_large : error :=
  errors_New "wei value too large for precise float64 conversion".

(** The shared tail of the three conversions: narrowing of the quotient
    to a double and the test of its accuracy. *)
Definition narrow (etherFloat : Float) : float64 * option error :=
  let '(ether, accuracy) := Float64 etherFloat in
  match accuracy with
  | Above => (f64_zero, Some err_precision)
  | _ => (ether, None)
  end.

Definition WeiToEther (wei : option Z) : result (float64 * option error) :=
  match wei with
  | None => Ret (f64_zero, Some err_nil)
  | Some w =>
      if w <? 0 then Ret (f64_zero, Some err_negative)
      else
        let weiFloat := SetInt 0 w in
        let* d := NewFloat f64_1e18 in
        let* etherFloat := Quo 0 weiFloat d in
        Ret (narrow etherFloat)
  end.

Definition WeiToEtherOptimized (wei : option Z)
  : result (float64 * option error) :=
  match wei with
  | None => Ret (f64_zero, Some err_nil)
  | Some w =>
      if w <? 0 then Ret (f64_zero, Some err_negative)
      else
        let maxSafeInt64 := MaxInt64 in
        if IsInt64 w && (Int_Int64 w <=? maxSafeInt64) then
          let weiInt64 := Int_Int64 w in
          let res := f64_div (float64_of_Z weiInt64) f64_1e18 in
          if negb (f64_eqb res f64_zero) && f64_ltb res f64_1em17 then
            Ret (f64_zero, Some err_precision)
          else Ret (res, None)
        else
          let weiFloat := SetInt 0 w in
          let* etherFloat := Quo 0 weiFloat etherDivisor in
          Ret (narrow etherFloat)
  end.

Definition WeiToEtherSafe (wei : option Z) : result (float64 * option error) :=
  match wei with
  | None => Ret (f64_zero, Some err_nil)
  | Some w =>
      if w <? 0 then Ret (f64_zero, Some err_negative)
      else if maxSafeWei <? w then Ret (f64_zero, Some err_too_large)
      else
        let weiFloat := SetInt 0 w in
        let* etherFloat := Quo 0 weiFloat etherDivisor in
        Ret (narrow etherFloat)
  end.

Definition EtherToWei (ether : float64) : result (option Z * option error) :=
  if math_IsNaN ether || math_IsInf0 ether then
    Ret (None, Some (errors_New "invalid ether value: NaN or Inf"))
  else if f64_ltb ether f64_zero then
    Ret (None, Some (errors_New "negative ether value is invalid"))
  else
    let* etherFloat := NewFloat ether in
    let* weiFloat := Mul 0 etherFloat etherDivisor in
    let wei := Int_into_new weiFloat in
    let* remainder := Sub 0 weiFloat (SetInt 0 wei) in
    if negb (Sign remainder =? 0) then
      let* c := NewFloat f64_1e18 in
      let* remainderWei := Mul 0 remainder c in
      let* half := NewFloat f64_0_5 in
      if 0 <=? Cmp remainderWei half then
        Ret (None, Some (errors_New "precision loss during conversion to Wei"))
      else Ret (Some wei, None)
    else Ret (Some wei, None).

(* ================================================================== *)
(** * bigint.go *)

(** What [json.Unmarshal(data, &val)] leaves in [val interface{}]; the
    decoder itself belongs to [encoding/json] and is not modelled. *)
Inductive json_value : Type :=
| JSON_float64 (v : float64)
| JSON_string (v : string)
| JSON_nil
| JSON_other.

Inductive decoded : Type :=
| Decoded (val : json_value)
| DecodeError (err : error).

(** [type BigInt struct { *big.Int }]. *)
Record BigInt : Type := mkBigInt { Int : option Z }.

(** [BigIntPool]: the integers that were put back. *)
Definition pool : Type := list Z.

Definition Pool_Get (p : pool) : Z * pool :=
  match p with
  | x :: p' => (x, p')
  | [] => (0, [])
  end.

Definition Pool_Put (x : Z) (p : pool) : pool := x :: p.

(** [math.Trunc]. *)
Definition math_Trunc (x : float64) : float64 :=
  match x with
  | S754_finite s m e =>
      if 0 <=? e then x
      else
        let t := Zpos m / 2 ^ (- e) in
        binary_normalize 53 1024 (if s then - t else t) 0 s
  | _ => x
  end.

Definition HasPrefix_0x (s : string) : option string :=
  match s with
  | String "0" (String "x" r) => Some r
  | _ => None
  end.

(** [json.Marshal] of a string without characters to escape. *)
Definition json_Marshal_string (s : string) : string :=
  String quote_char (append s (String quote_char EmptyString)).

Section Unmarshal.

(** [strconv.FormatFloat(v, 'f', -1, 64)], not modelled here. *)
Variable FormatFloat : float64 -> string.

Definition UnmarshalJSON (b : BigInt) (data : decoded) (p : pool)
  : BigInt * option error * pool :=
  match data with
  | DecodeError err => (b, Some err, p)
  | Decoded val =>
      let '(_, p) := Pool_Get p in
      let i := 0 in
      match val with
      | JSON_float64 v =>
          if math_IsNaN v || math_IsInf0 v then
            (mkBigInt (Some i), Some strconv_ErrSyntax, Pool_Put i p)
          else if f64_eqb v (math_Trunc v) && f64_leb v f64_MaxInt64
                  && f64_leb f64_MinInt64 v then
            (mkBigInt (Some (int64_of_float64 v)), None, p)
          else
            match SetString (FormatFloat v) 10 with
            | Some n => (mkBigInt (Some n), None, p)
            | None => (mkBigInt (Some i), Some strconv_ErrSyntax, Pool_Put i p)
            end
      | JSON_string v =>
          let v := Trim quote_char v in
          if (String.length v =? 0)%nat then (mkBigInt None, None, Pool_Put i p)
          else
            match SetString v 10 with
            | Some n => (mkBigInt (Some n), None, p)
            | None =>
                match HasPrefix_0x v with
                | Some r =>
                    match SetString r 16 with
                    | Some n => (mkBigInt (Some n), None, p)
                    | None =>
                        (mkBigInt (Some i), Some strconv_ErrSyntax, Pool_Put i p)
                    end
                | None =>
                    (mkBigInt (Some i), Some strconv_ErrSyntax, Pool_Put i p)
                end
            end
      | JSON_nil => (mkBigInt None, None, Pool_Put i p)
      | JSON_other => (mkBigInt (Some i), Some strconv_ErrSyntax, Pool_Put i p)
      end
  end.

End Unmarshal.

(** [MarshalJSON]: the bytes and the error of [json.Marshal]. *)
Definition MarshalJSON (b : BigInt) : string * option error :=
  match Int b with
  | None => ("null"%string, None)
  | Some v => (json_Marshal_string (Int_String v), None)
  end.

Definition IsNil (b : BigInt) : bool :=
  match Int b with None => true | Some _ => false end.

(** Whether every byte of [s] is a decimal digit: the loop of
    [isNumericString].  The source ranges over runes; a byte that is not
    ASCII decodes to a rune above ['9'], so the verdict is that of the
    bytes. *)
Fixpoint all_decimal (s : string) : bool :=
  match s with
  | EmptyString => true
  | String c r =>
      let n := Z.of_N (N_of_ascii c) in
      (48 <=? n) && (n <=? 57) && all_decimal r
  end.

Definition isNumericString (s : string) : bool :=
  match s with
  | EmptyString => false
  | String c r =>
      if Ascii.eqb c "-" then
        match r with
        | EmptyString => false
        | _ => all_decimal r
        end
      else all_decimal s
  end.

(* ================================================================== *)
(** * bigint.go: the store *)

(** The methods of [*BigInt] update their receiver in place and may be
    called with the receiver among the operands, so they are modelled over
    a store: the [big.Int] objects and the [BigInt] structs (the field
    [Int] of each, [None] for nil) by address, and the next address to
    allocate.  A pointer is an [option addr], [None] being nil. *)
Definition addr : Type := positive.

Record store : Type := mkStore {
  ints : gmap addr Z;
  structs : gmap addr (option addr);
  next : addr
}.

Definition empty_store : store :=
  {| ints := ∅; structs := ∅; next := 1%positive |}.

(** A computation on the store that may panic. *)
Definition action (A : Type) : Type := store -> result (A * store).

Definition unit_action {A : Type} (a : A) : action A := fun h => Ret (a, h).

Definition bind_action {A B : Type} (c : action A) (k : A -> action B)
  : action B :=
  fun h => match c h with
           | Ret (a, h') => k a h'
           | Panicked p => Panicked p
           end.

Notation "'let!' x ':=' c 'in' k" := (bind_action c (fun x => k))
  (at level 10, x name, c at level 100, k at level 200).

(** [new(big.Int)] holding [v]. *)
Definition new_Int (v : Z) : action (option addr) := fun h =>
  Ret (Some (next h),
       {| ints := <[next h := v]> (ints h);
          structs := structs h;
          next := Pos.succ (next h) |}).

(** [&BigInt{Int: p}]. *)
Definition new_struct (p : option addr) : action (option addr) := fun h =>
  Ret (Some (next h),
       {| ints := ints h;
          structs := <[next h := p]> (structs h);
          next := Pos.succ (next h) |}).

(** Reading and writing the integer behind a [*big.Int]; nil panics. *)
Definition read_Int (z : option addr) : action Z := fun h =>
  match z with
  | Some a =>
      match ints h !! a with
      | Some v => Ret (v, h)
      | None => Panicked NilDereference
      end
  | None => Panicked NilDereference
  end.

Definition write_Int (z : option addr) (v : Z) : action unit := fun h =>
  match z with
  | Some a =>
      Ret (tt, {| ints := <[a := v]> (ints h);
                  structs := structs h;
                  next := next h |})
  | None => Panicked NilDereference
  end.

(** [b.Int] and [b.Int = p] for a [b *BigInt]; nil panics. *)
Definition get_Int (b : option addr) : action (option addr) := fun h =>
  match b with
  | Some a =>
      match structs h !! a with
      | Some p => Ret (p, h)
      | None => Panicked NilDereference
      end
  | None => Panicked NilDereference
  end.

Definition set_Int (b : option addr) (p : option addr) : action unit := fun h =>
  match b with
  | Some a =>
      Ret (tt, {| ints := ints h;
                  structs := <[a := p]> (structs h);
                  next := next h |})
  | None => Panicked NilDereference
  end.

(** [z.Set(x)] of [math/big]. *)
Definition Int_Set (z x : option addr) : action unit :=
  let! v := read_Int x in write_Int z v.

(** [x.Uint64()] of [math/big]: the low 64 bits of the absolute value. *)
Definition Int_Uint64 (x : Z) : Z := Z.abs x mod 2 ^ 64.

(** [z.SetInt64(v)] of [math/big]. *)
Definition Int_SetInt64 (z : option addr) (v : Z) : action unit := write_Int z v.

(** [z.Add(x, y)], [z.Sub(x, y)], [z.Mul(x, y)] of [math/big], by their
    function on the values. *)
Definition Int_binary (f : Z -> Z -> Z) (z x y : option addr) : action unit :=
  let! vx := read_Int x in
  let! vy := read_Int y in
  write_Int z (f vx vy).

(** [z.Neg(x)] of [math/big]. *)
Definition Int_Neg (z x : option addr) : action unit :=
  let! vx := read_Int x in write_Int z (- vx).

(** [z.Div(x, y)] of [math/big]: a zero divisor panics. *)
Definition Int_Div_at (z x y : option addr) : action unit :=
  let! vx := read_Int x in
  let! vy := read_Int y in
  match Int_Div vx vy with
  | Some q => write_Int z q
  | None => fun _ => Panicked DivideByZero
  end.

(** [x.Sign()] of [math/big]. *)
Definition Int_Sign (x : option addr) : action Z :=
  let! vx := read_Int x in unit_action (Z.sgn vx).

Module BigInt.

(** [if b.Int == nil { b.Int = new(big.Int) }]; the result is [b.Int]. *)
Definition ensure (b : option addr) : action (option addr) :=
  let! p := get_Int b in
  match p with
  | Some _ => unit_action p
  | None =>
      let! z := new_Int 0 in
      let! _ := set_Int b z in
      unit_action z
  end.

Definition Set_ (b : option addr) (x : option addr) : action (option addr) :=
  let! z := ensure b in
  let! _ := Int_Set z x in
  unit_action b.

Definition Cmp (b x : option addr) : action Z :=
  let! bi := get_Int b in
  match bi with
  | None =>
      let! xi := get_Int x in
      match xi with
      | None => unit_action 0
      | Some _ => unit_action (-1)
      end
  | Some _ =>
      let! xi := get_Int x in
      match xi with
      | None => unit_action 1
      | Some _ =>
          let! vb := read_Int bi in
          let! vx := read_Int xi in
          unit_action (Z_of_comparison (vb ?= vx))
      end
  end.

Definition Add (b x y : option addr) : action (option addr) :=
  let! z := ensure b in
  let! xi := get_Int x in
  match xi with
  | None =>
      let! yi := get_Int y in
      let! _ := Int_Set z yi in
      unit_action b
  | Some _ =>
      let! yi := get_Int y in
      match yi with
      | None =>
          let! _ := Int_Set z xi in
          unit_action b
      | Some _ =>
          let! _ := Int_binary Z.add z xi yi in
          unit_action b
      end
  end.

Definition Sub (b x y : option addr) : action (option addr) :=
  let! z := ensure b in
  let! xi := get_Int x in
  match xi with
  | None =>
      let! yi := get_Int y in
      match yi with
      | None =>
          let! _ := Int_SetInt64 z 0 in
          unit_action b
      | Some _ =>
          let! _ := Int_Neg z yi in
          unit_action b
      end
  | Some _ =>
      let! yi := get_Int y in
      match yi with
      | None =>
          let! _ := Int_Set z xi in
          unit_action b
      | Some _ =>
          let! _ := Int_binary Z.sub z xi yi in
          unit_action b
      end
  end.

Definition Mul (b x y : option addr) : action (option addr) :=
  let! z := ensure b in
  let! xi := get_Int x in
  match xi with
  | None =>
      let! _ := Int_SetInt64 z 0 in
      unit_action b
  | Some _ =>
      let! yi := get_Int y in
      match yi with
      | None =>
          let! _ := Int_SetInt64 z 0 in
          unit_action b
      | Some _ =>
          let! _ := Int_binary Z.mul z xi yi in
          unit_action b
      end
  end.

Definition Div (b x y : option addr) : action (option addr) :=
  let! z := ensure b in
  let! xi := get_Int x in
  match xi with
  | None =>
      let! _ := Int_SetInt64 z 0 in
      unit_action b
  | Some _ =>
      let! yi := get_Int y in
      match yi with
      | None =>
          let! _ := Int_SetInt64 z 0 in
          unit_action b
      | Some _ =>
          let! sy := Int_Sign yi in
          if sy =? 0 then
            let! _ := Int_SetInt64 z 0 in
            unit_action b
          else
            let! _ := Int_Div_at z xi yi in
            unit_action b
      end
  end.

Definition Int64 (b : option addr) : action Z :=
  let! bi := get_Int b in
  match bi with
  | None => unit_action 0
  | Some _ => let! v := read_Int bi in unit_action (Int_Int64 v)
  end.

Definition Uint64 (b : option addr) : action Z :=
  let! bi := get_Int b in
  match bi with
  | None => unit_action 0
  | Some _ => let! v := read_Int bi in unit_action (Int_Uint64 v)
  end.

Definition Sign (b : option addr) : action Z :=
  let! bi := get_Int b in
  match bi with
  | None => unit_action 0
  | Some _ => Int_Sign bi
  end.

End BigInt.

Definition NewBigInt (x : option addr) : action (option addr) :=
  match x with
  | None => new_struct None
  | Some _ =>
      let! z := new_Int 0 in
      let! _ := Int_Set z x in
      new_struct z
  end.

Definition NewBigIntFromInt64 (x : Z) : action (option addr) :=
  let! z := new_Int x in new_struct z.

Definition NewBigIntFromUint64 (x : Z) : action (option addr) :=
  let! z := new_Int x in new_struct z.

(** [NewBigIntFromString] for base 10 or 16.  On failure the objects it
    allocated are unreachable and the store is returned as it was. *)
Definition NewBigIntFromString (s : string) (base : Z)
  : action (option addr * bool) := fun h =>
  match SetString s base with
  | Some v =>
      (let! z := new_Int v in
       let! b := new_struct z in
       unit_action (b, true)) h
  | None => Ret ((None, false), h)
  end.

(** The [BigInt] value that the pointer [b] leads to. *)
Definition deref (h : store) (b : option addr) : option BigInt :=
  match b with
  | None => None
  | Some a =>
      match structs h !! a with
      | None => None
      | Some None => Some (mkBigInt None)
      | Some (Some i) =>
          match ints h !! i with
          | Some v => Some (mkBigInt (Some v))
          | None => None
          end
      end
  end.

(** Every allocated address is below [next]. *)
Definition store_ok (h : store) : Prop :=
  (forall a v, ints h !! a = Some v -> (a < next h)%positive) /\
  (forall a p, structs h !! a = Some p -> (a < next h)%positive).

(* ================================================================== *)
(** * Vocabulary of the statements *)

(** The decimal-float intermediate of the three Wei conversions: the Wei
    amount divided by [10^18] in [big.Float] arithmetic. *)
Definition ether_quotient (w : Z) : result Float :=
  Quo 0 (SetInt 0 w) etherDivisor.

(** The accuracy of narrowing that intermediate to a double. *)
Definition narrowing_accuracy (w : Z) : result Accuracy :=
  let* q := ether_quotient w in Ret (snd (Float64 q)).

(** The quotient of the fast path of [WeiToEtherOptimized]. *)
Definition fast_quotient (w : Z) : float64 :=
  f64_div (float64_of_Z w) f64_1e18.

(** Whether a [(value, error)] pair carries an error. *)
Definition failed {A : Type} (r : A * option error) : bool :=
  match snd r with Some _ => true | None => false end.

(** The rule of the machine-double boundary, for an intermediate [q] and
    a returned pair [r]: an error exactly when narrowing [q] is classified
    [Above], and otherwise the double itself with no error. *)
Definition rejects_exactly_Above (q : Float) (r : float64 * option error)
  : Prop :=
  (failed r = true <-> snd (Float64 q) = Above) /\
  (snd (Float64 q) <> Above -> r = (fst (Float64 q), None)).

(** A double that compares below zero (the negative numbers and
    [-Inf]). *)
Definition is_negative (f : float64) : Prop := f64_ltb f f64_zero = true.

(** The double 1.5, the amount of the examples in the source. *)
Definition f64_1_5 : float64 := S754_finite false 6755399441055744 (-52).

(** The double nearest to 1.23456789, the amount of the tests. *)
Definition f64_1_23456789 : float64 :=
  Eval vm_compute in f64_div (float64_of_Z 123456789) (float64_of_Z 100000000).

(** The double nearest to 0.1. *)
Definition f64_0_1 : float64 :=
  Eval vm_compute in f64_div f64_1 (float64_of_Z 10).

(** The double nearest to -1.23, the negative amount of the tests. *)
Definition f64_minus_1_23 : float64 :=
  Eval vm_compute in f64_div (float64_of_Z (-123)) (float64_of_Z 100).

(** The double nearest to 5.42323. *)
Definition f64_5_42323 : float64 :=
  Eval vm_compute in f64_div (float64_of_Z 542323) (float64_of_Z 100000).

(** The spec's words for the float-to-integer bridge: the integer part of
    the exact product [value * 10^exponent]. *)
Definition truncated_product_exact (v : float64) (y : Z) : option Z :=
  match v with
  | S754_zero _ => Some 0
  | S754_finite false m e => Some (trunc_dyadic (Zpos m * pow10 y) e)
  | _ => None
  end.

(** What the source computes: the integer part of that product after it
    has been rounded to 53 bits, the precision of the receiver of
    [bigval.Mul(bigval, coin)]. *)
Definition truncated_product_53 (m : positive) (e y : Z) : Z :=
  let '(m', e', _) := round_even 53 (Zpos m * pow10 y) e false in
  trunc_dyadic m' e'.

Definition not_inf (v : fval) : Prop :=
  match v with Finf _ => False | _ => True end.

(** The second half of [binary_round_aux] in [SpecFloat]: the
    renormalisation after the rounding, and the test for overflow. *)
Definition finish (s : bool) (m e : Z) : float64 :=
  let '(mrs, e') := shr_fexp 53 1024 m e loc_Exact in
  match shr_m mrs with
  | Z0 => S754_zero s
  | Zpos p => if e' <=? 1024 - 53 then S754_finite s p e' else S754_infinity s
  | Zneg _ => S754_nan
  end.

(** The position of a double that is not negative relative to the
    dyadic number [M * 2^E]. *)
Definition f64_compare_dyadic (d : float64) (M E : Z) : option comparison :=
  match d with
  | S754_zero _ => Some (Z.compare 0 M)
  | S754_finite false m e =>
      let e0 := Z.min e E in
      Some (Z.compare (Zpos m * 2 ^ (e - e0)) (M * 2 ^ (E - e0)))
  | S754_infinity false => Some Gt
  | _ => None
  end.

Definition comparison_of_acc (a : Accuracy) : comparison :=
  match a with Below => Lt | Exact => Eq | Above => Gt end.

(** The test that the bound [mB * 2^eB] of the fast path of [BigIntBaseX]
    keeps the product with [k] half a unit below [2^63], scaled by
    [2^1074] to stay among the integers. *)
Definition guard_check (k : Z) (mB : positive) (eB : Z) : bool :=
  (-1074 <=? eB) &&
  (Z.max (2 ^ 53 - 1) (2 * Zpos mB - 2) * k * 2 ^ (eB + 1074)
     + 2 * 2 ^ (9 + 1074) <? 2 * 2 ^ (63 + 1074)).

(* ================================================================== *)
(** * Vocabulary of the further properties *)

(** The integer that the float-to-integer bridge returns for a double that
    is not NaN: the truncated 53-bit product for a positive number, zero
    for a zero, for a negative number and for an infinity. *)
Definition bridge_value (f : float64) (y : Z) : Z :=
  match f with
  | S754_finite false m e => truncated_product_53 m e y
  | _ => 0
  end.

(** The caches after a call of the bridge: as they were when the amount
    is negative, with the power of ten of [y] otherwise. *)
Definition bridge_caches (f : float64) (y : Z) (st : caches) : caches :=
  if f64_ltb f f64_zero then st else snd (cached_pow10 y st).

(** The double [x] is the rational number [w / k] exactly. *)
Definition is_ratio (x : float64) (w k : Z) : bool :=
  match x with
  | S754_zero false => w =? 0
  | S754_finite false m e =>
      w * 2 ^ Z.max 0 (- e) =? Zpos m * 2 ^ Z.max 0 e * k
  | _ => false
  end.

(** The product of the double [m * 2^e] and the positive integer [k],
    rounded to 53 bits. *)
Definition product_53 (m : positive) (e k : Z) : fval :=
  let '(m', e', _) := round_even 53 (Zpos m * k) e false in
  dyadic false m' e'.

Definition err_wei_precision : error :=
  errors_New "precision loss during conversion to Wei".

(** Whether the finite double [± m * 2^e] is a whole number, and the
    integer it then is. *)
Definition is_whole (m : positive) (e : Z) : bool :=
  (0 <=? e) || (Zpos m mod 2 ^ (- e) =? 0).

Definition whole_value (s : bool) (m : positive) (e : Z) : Z :=
  if s then - trunc_dyadic (Zpos m) e else trunc_dyadic (Zpos m) e.

(** The double 1000. *)
Definition f64_1000 : float64 := Eval vm_compute in float64_of_Z 1000.

(** What a method of [*BigInt] sees in the operand [x] once its receiver
    [b] holds an integer: an operand that is the receiver itself is nil no
    longer. *)
Definition seen (b x : option addr) (vx : BigInt) : option Z :=
  if decide (b = x) then Some (default 0 (Int vx)) else Int vx.

(** The verdict of [Cmp] on two values: nil is below every integer. *)
Definition Cmp_values (u w : option Z) : Z :=
  match u, w with
  | None, None => 0
  | None, Some _ => -1
  | Some _, None => 1
  | Some p, Some q => Z_of_comparison (p ?= q)
  end.

(** A store with the integer 5 at address 1, a [BigInt] at address 2
    that points to it, and a [BigInt] at address 3 whose [Int] is nil. *)
Definition example_store : store :=
  {| ints := <[1%positive := 5]> ∅;
     structs := <[2%positive := Some 1%positive]> (<[3%positive := None]> ∅);
     next := 4%positive |}.

(* ================================================================== *)
(** * Invariant of the caches *)

(** Every entry of either cache is the power of ten of its key. *)
Definition cache_ok (st : caches) : Prop :=
  (forall y k, pow10Cache st !! y = Some k -> k = pow10 y) /\
  (forall y d, pow10FloatCache st !! y = Some d -> d = SetInt 0 (pow10 y)).

Lemma initial_caches_ok : cache_ok initial_caches.
Proof.
  split; intros y v; unfold initial_caches; cbn [pow10Cache pow10FloatCache];
    rewrite !lookup_insert_Some, lookup_empty; intuition congruence.
Qed.

Lemma cached_pow10_spec st y :
  cache_ok st ->
  fst (cached_pow10 y st) = pow10 y /\ cache_ok (snd (cached_pow10 y st)).
Proof.
  intros [Hi Hf]. unfold cached_pow10.
  destruct (pow10Cache st !! y) as [k|] eqn:E; cbn.
  - split; [now apply Hi | now split].
  - split; [reflexivity|]. split; cbn; [|exact Hf].
    intros y' k'. rewrite lookup_insert_Some.
    intros [[<- <-]|[_ H]]; [reflexivity | now apply Hi].
Qed.

Lemma cached_pow10Float_spec st y :
  cache_ok st ->
  fst (cached_pow10Float y st) = SetInt 0 (pow10 y) /\
  cache_ok (snd (cached_pow10Float y st)).
Proof.
  intros [Hi Hf]. unfold cached_pow10Float.
  destruct (pow10FloatCache st !! y) as [d|] eqn:E; cbn.
  - split; [now apply Hf | now split].
  - split; [reflexivity|]. split; cbn; [exact Hi|].
    intros y' d'. rewrite lookup_insert_Some.
    intros [[<- <-]|[_ H]]; [reflexivity | now apply Hf].
Qed.

Lemma pow10_pos y : 0 < pow10 y.
Proof.
  unfold pow10. destruct (Z.leb_spec y 0); [lia|].
  apply Z.pow_pos_nonneg; lia.
Qed.

Lemma pow10_nonneg y : 0 <= y -> pow10 y = 10 ^ y.
Proof.
  intros H. unfold pow10. destruct (Z.leb_spec y 0); [|reflexivity].
  replace y with 0 by lia. reflexivity.
Qed.

(* ================================================================== *)
(** * UnBaseX *)

(** C10.  For a non-negative integer [v] and a scale exponent [y >= 0],
    [UnBaseX] returns the floor of [v / 10^y]: the integer [q] with
    [q * 10^y <= v < (q + 1) * 10^y], the remainder being dropped; for a
    negative integer [n] and for nil it returns zero. *)
Theorem UnBaseX_floor (st : caches) (v n y : Z) :
  cache_ok st -> 0 <= v -> n < 0 -> 0 <= y ->
  (exists q st',
      UnBaseX (Some v) y st = Ret (q, st') /\
      q = v / 10 ^ y /\
      q * 10 ^ y <= v < (q + 1) * 10 ^ y /\
      cache_ok st') /\
  UnBaseX (Some n) y st = Ret (0, st) /\
  UnBaseX None y st = Ret (0, st).
Proof.
  intros Hst Hv Hn Hy. split; [|split].
  - unfold UnBaseX.
    destruct (Z.ltb_spec v 0); [lia|].
    destruct (cached_pow10_spec st y Hst) as [Hk Hst'].
    destruct (cached_pow10 y st) as [k st'] eqn:E. cbn in Hk, Hst'. subst k.
    rewrite (pow10_nonneg y Hy).
    assert (Hp : 0 < 10 ^ y) by (apply Z.pow_pos_nonneg; lia).
    unfold Int_Div.
    destruct (Z.eqb_spec (10 ^ y) 0); [lia|].
    destruct (Z.ltb_spec 0 (10 ^ y)); [|lia].
    exists (v / 10 ^ y), st'. repeat split; try assumption.
    + pose proof (Z.mul_div_le v (10 ^ y) Hp). lia.
    + pose proof (Z.mul_succ_div_gt v (10 ^ y) Hp). lia.
    + apply Hst'.
    + apply Hst'.
  - unfold UnBaseX. destruct (Z.ltb_spec n 0); [reflexivity|lia].
  - reflexivity.
Qed.

Lemma UnBaseX_floor_witness :
  cache_ok initial_caches /\ 0 <= 1500000000000000000 /\ -123 < 0 /\ 0 <= 18 /\
  (exists q st',
      UnBaseX (Some 1500000000000000000) 18 initial_caches = Ret (q, st') /\
      q = 1500000000000000000 / 10 ^ 18 /\
      q * 10 ^ 18 <= 1500000000000000000 < (q + 1) * 10 ^ 18 /\
      cache_ok st') /\
  UnBaseX (Some (-123)) 18 initial_caches = Ret (0, initial_caches) /\
  UnBaseX None 18 initial_caches = Ret (0, initial_caches).
Proof.
  split; [exact initial_caches_ok|].
  split; [lia|]. split; [lia|]. split; [lia|].
  apply (UnBaseX_floor initial_caches 1500000000000000000 (-123) 18);
    [exact initial_caches_ok | lia | lia | lia].
Defined.

(** One and a half units at scale 18 come back as 1, not as 1.5 or 2. *)
Example UnBaseX_one_and_a_half :
  value_of (UnBaseX (Some 1500000000000000000) 18 initial_caches) = Ret 1.
Proof. reflexivity. Qed.

(* ================================================================== *)
(** * UnBaseXFloatString *)

(** C9.  A request for more than 100 fractional digits is served as a
    request for 100: for every value [f] (nil and negative included),
    every exponent [y], every state of the caches and every [d > 100],
    [UnBaseXFloatString f y d] returns the same text, and leaves the same
    caches, as [UnBaseXFloatString f y 100]. *)
Theorem UnBaseXFloatString_clamped
  (Text_shortest : Float -> string) (f : option Z) (y d : Z) (st : caches) :
  100 < d ->
  UnBaseXFloatString Text_shortest f y d st
  = UnBaseXFloatString Text_shortest f y 100 st.
Proof.
  intros Hd. unfold UnBaseXFloatString.
  destruct f as [v|]; [|reflexivity].
  destruct (v <? 0); [reflexivity|].
  destruct (Z.ltb_spec 100 d); [|lia].
  reflexivity.
Qed.

Lemma UnBaseXFloatString_clamped_witness :
  100 < 200 /\
  UnBaseXFloatString (fun _ => EmptyString) (Some 12345678900000) 14 200
    initial_caches
  = UnBaseXFloatString (fun _ => EmptyString) (Some 12345678900000) 14 100
      initial_caches.
Proof.
  split; [lia|].
  apply (UnBaseXFloatString_clamped (fun _ => EmptyString)
           (Some 12345678900000) 14 200 initial_caches).
  lia.
Defined.

(** The cases of [TestUnBaseXFloatString] and [TestStringFormattingEdgeCases]
    with a non-negative digit count. *)
Example UnBaseXFloatString_tests (T : Float -> string) :
  value_of (UnBaseXFloatString T (Some 12345678900000) 14 8 initial_caches)
  = Ret "0.12345679"%string /\
  value_of (UnBaseXFloatString T (Some 0) 18 8 initial_caches)
  = Ret "0.0"%string /\
  value_of (UnBaseXFloatString T None 18 8 initial_caches)
  = Ret "0"%string /\
  value_of (UnBaseXFloatString T (Some (-123)) 18 8 initial_caches)
  = Ret "0"%string /\
  value_of (UnBaseXFloatString T (Some 12345678900000) 14 200 initial_caches)
  = Ret "0.1234567889999999999991260775378254521683629718609154224395751953125"%string /\
  value_of (UnBaseXFloatString T (Some 1234567890000000000) 18 8 initial_caches)
  = Ret "1.23456789"%string /\
  value_of (UnBaseXFloatString T (Some 1234567890000000000) 18 18 initial_caches)
  = Ret "1.23456789"%string /\
  value_of (UnBaseXFloatString T (Some 1234567890000000000) 18 20 initial_caches)
  = Ret "1.23456789000000000003"%string /\
  value_of (UnBaseXFloatString T (Some 1234567890000000000) 18 0 initial_caches)
  = Ret "1"%string.
Proof. repeat split; vm_compute; reflexivity. Qed.

(* ================================================================== *)
(** * BigInt and JSON *)

Lemma digit_val_digit_char d :
  0 <= d -> digit_val 10 (digit_char d) = Some (d mod 10).
Proof.
  intros Hd. unfold digit_val, digit_char.
  pose proof (Z.mod_pos_bound d 10 ltac:(lia)) as Hm.
  rewrite N_ascii_embedding by lia.
  rewrite Z2N.id by lia.
  destruct (Z.leb_spec 48 (48 + d mod 10)); [|lia].
  destruct (Z.leb_spec (48 + d mod 10) 57); [|lia].
  cbn [andb]. replace (48 + d mod 10 - 48) with (d mod 10) by lia.
  destruct (Z.ltb_spec (d mod 10) 10); [reflexivity|lia].
Qed.

Lemma scan_digits_var fuel : forall v acc a,
  0 < v < 2 ^ Z.of_nat fuel ->
  exists n, 0 < n /\
    scan_digits 10 (digits_var fuel v acc) a = scan_digits 10 acc (a * 10 ^ n + v).
Proof.
  induction fuel as [|fuel IH]; intros v acc a Hv.
  - cbn in Hv. lia.
  - cbn [digits_var]. destruct (Z.ltb_spec v 10) as [Hlt|Hge].
    + exists 1. split; [lia|]. cbn [scan_digits].
      rewrite digit_val_digit_char by lia.
      rewrite Z.mod_small by lia. now rewrite Z.pow_1_r.
    + assert (Hv' : 0 < v / 10 < 2 ^ Z.of_nat fuel).
      { split.
        - apply Z.div_str_pos. lia.
        - apply Z.div_lt_upper_bound; [lia|].
          rewrite Nat2Z.inj_succ, Z.pow_succ_r in Hv by lia. lia. }
      destruct (IH (v / 10) (String (digit_char v) acc) a Hv') as [n [Hn E]].
      exists (n + 1). split; [lia|]. rewrite E. cbn [scan_digits].
      rewrite digit_val_digit_char by lia.
      f_equal. rewrite Z.pow_add_r, Z.pow_1_r by lia.
      pose proof (Z.div_mod v 10 ltac:(lia)). lia.
Qed.

Lemma digits_var_nonempty fuel : forall w acc,
  acc <> EmptyString -> digits_var fuel w acc <> EmptyString.
Proof.
  induction fuel as [|fuel IH]; intros w acc Hacc; cbn [digits_var]; [exact Hacc|].
  destruct (w <? 10); [discriminate|]. apply IH. discriminate.
Qed.

Lemma decimal_of_nonneg_nonempty v : decimal_of_nonneg v <> EmptyString.
Proof.
  unfold decimal_of_nonneg. destruct (v <=? 0); [discriminate|].
  unfold decimal_size. cbn [digits_var].
  destruct (v <? 10); [discriminate|].
  apply digits_var_nonempty. discriminate.
Qed.

Lemma scan_decimal_of_nonneg v :
  0 <= v -> scan_digits 10 (decimal_of_nonneg v) 0 = Some v.
Proof.
  intros Hv. unfold decimal_of_nonneg.
  destruct (Z.leb_spec v 0) as [H0|Hpos].
  - replace v with 0 by lia. reflexivity.
  - destruct (scan_digits_var (decimal_size v) v EmptyString 0) as [n [_ E]].
    + split; [lia|]. unfold decimal_size.
      rewrite Nat2Z.inj_succ, Z2Nat.id by (apply Z.log2_nonneg).
      apply Z.log2_spec. lia.
    + rewrite E. cbn. reflexivity.
Qed.

Lemma scan_digits_head c s a v :
  scan_digits 10 (String c s) a = Some v -> c <> "-"%char /\ c <> "+"%char.
Proof.
  cbn [scan_digits]. destruct (digit_val 10 c) eqn:E; [|discriminate].
  intros _. split; intros ->; vm_compute in E; discriminate.
Qed.

Lemma SetString_decimal_of_nonneg v :
  0 <= v -> SetString (decimal_of_nonneg v) 10 = Some v.
Proof.
  intros Hv. pose proof (scan_decimal_of_nonneg v Hv) as Hs.
  pose proof (decimal_of_nonneg_nonempty v) as Hne.
  unfold SetString. destruct (decimal_of_nonneg v) as [|c s]; [congruence|].
  destruct (scan_digits_head c s 0 v Hs) as [Hm Hp].
  apply Ascii.eqb_neq in Hm, Hp. rewrite Hm, Hp. now rewrite Hs.
Qed.

(** Printing an integer in base 10 and reading the text back gives the
    integer: [Int_String] is the base-10 numeral, digits only after an
    optional minus sign. *)
Lemma SetString_Int_String v : SetString (Int_String v) 10 = Some v.
Proof.
  unfold Int_String. destruct (Z.ltb_spec v 0) as [Hneg|Hpos].
  - pose proof (scan_decimal_of_nonneg (- v) ltac:(lia)) as Hs.
    pose proof (decimal_of_nonneg_nonempty (- v)) as Hne.
    unfold SetString. cbn [Ascii.eqb Bool.eqb].
    destruct (decimal_of_nonneg (- v)) as [|c s]; [congruence|].
    rewrite Hs. f_equal. lia.
  - now apply SetString_decimal_of_nonneg.
Qed.

(** C8.  The JSON string with no characters decodes to the null state and
    no error; the null state is written as the JSON value [null], which
    is neither the text ["0"] nor a quoted numeral; every other value [v]
    is written as its base-10 numeral between quotes, a text that parses
    back to [v] in base 10. *)
Theorem BigInt_JSON_null (FormatFloat : float64 -> string)
  (b : BigInt) (p : pool) (v : Z) :
  (let '(b', err, _) :=
     UnmarshalJSON FormatFloat b (Decoded (JSON_string EmptyString)) p in
   Int b' = None /\ IsNil b' = true /\ err = None) /\
  MarshalJSON (mkBigInt None) = ("null"%string, None) /\
  fst (MarshalJSON (mkBigInt None)) <> "0"%string /\
  fst (MarshalJSON (mkBigInt None)) <> fst (MarshalJSON (mkBigInt (Some 0))) /\
  MarshalJSON (mkBigInt (Some v))
  = (json_Marshal_string (Int_String v), None) /\
  SetString (Int_String v) 10 = Some v.
Proof.
  split; [|split; [|split; [|split; [|split]]]].
  - cbn. destruct (Pool_Get p). cbn. auto.
  - reflexivity.
  - cbn. discriminate.
  - cbn. discriminate.
  - reflexivity.
  - apply SetString_Int_String.
Qed.

(** Some numerals, and the quoted form that [MarshalJSON] emits. *)
Example Int_String_examples :
  Int_String 0 = "0"%string /\
  Int_String 1500000000000000000 = "1500000000000000000"%string /\
  Int_String (-42) = "-42"%string /\
  fst (MarshalJSON (mkBigInt (Some 255)))
  = String quote_char (String "2" (String "5" (String "5"
      (String quote_char EmptyString)))).
Proof. repeat split; vm_compute; reflexivity. Qed.

(* ================================================================== *)
(** * Wei to Ether *)

Lemma NewFloat_1e18 : NewFloat f64_1e18 = Ret etherDivisor.
Proof. reflexivity. Qed.

Lemma Int_Int64_small w : MinInt64 <= w <= MaxInt64 -> Int_Int64 w = w.
Proof.
  unfold Int_Int64, MinInt64, MaxInt64. intros H.
  rewrite Z.mod_small; lia.
Qed.

Lemma IsInt64_true w : MinInt64 <= w <= MaxInt64 -> IsInt64 w = true.
Proof.
  intros [H1 H2]. unfold IsInt64.
  apply andb_true_intro. split; now apply Z.leb_le.
Qed.

Lemma IsInt64_false w : MaxInt64 < w -> IsInt64 w = false.
Proof.
  intros H. unfold IsInt64.
  destruct (Z.leb_spec w MaxInt64); [lia|]. apply andb_false_r.
Qed.

(** The quotient by [etherDivisor] never panics: the divisor is finite
    and not zero. *)
Lemma ether_quotient_returns w : exists q, ether_quotient w = Ret q.
Proof.
  unfold ether_quotient, Quo. cbn [val etherDivisor].
  destruct (val (SetInt 0 w)); eauto.
Qed.

Lemma WeiToEther_eq w :
  0 <= w ->
  WeiToEther (Some w) = let* q := ether_quotient w in Ret (narrow q).
Proof.
  intros Hw. unfold WeiToEther. destruct (Z.ltb_spec w 0); [lia|].
  rewrite NewFloat_1e18. reflexivity.
Qed.

Lemma WeiToEtherSafe_eq w :
  0 <= w <= maxSafeWei ->
  WeiToEtherSafe (Some w) = let* q := ether_quotient w in Ret (narrow q).
Proof.
  intros Hw. unfold WeiToEtherSafe. destruct (Z.ltb_spec w 0); [lia|].
  destruct (Z.ltb_spec maxSafeWei w); [lia|]. reflexivity.
Qed.

Lemma WeiToEtherOptimized_slow w :
  MaxInt64 < w ->
  WeiToEtherOptimized (Some w) = let* q := ether_quotient w in Ret (narrow q).
Proof.
  intros Hw. unfold WeiToEtherOptimized.
  assert (0 < MaxInt64) by reflexivity.
  destruct (Z.ltb_spec w 0); [lia|].
  rewrite IsInt64_false by assumption. reflexivity.
Qed.

Lemma WeiToEtherOptimized_fast w :
  0 <= w <= MaxInt64 ->
  WeiToEtherOptimized (Some w)
  = Ret (if negb (f64_eqb (fast_quotient w) f64_zero)
            && f64_ltb (fast_quotient w) f64_1em17
         then (f64_zero, Some err_precision)
         else (fast_quotient w, None)).
Proof.
  intros Hw. unfold WeiToEtherOptimized.
  assert (MinInt64 < 0) by reflexivity.
  destruct (Z.ltb_spec w 0); [lia|].
  rewrite IsInt64_true, Int_Int64_small by lia.
  destruct (Z.leb_spec w MaxInt64); [|lia]. cbn [andb].
  fold (fast_quotient w).
  destruct (negb (f64_eqb (fast_quotient w) f64_zero)
            && f64_ltb (fast_quotient w) f64_1em17); reflexivity.
Qed.

(** [SFcompare] is antisymmetric. *)
Lemma SFcompare_antisym a b :
  SFcompare b a = option_map CompOpp (SFcompare a b).
Proof.
  destruct a as [sa|sa| |sa ma ea], b as [sb|sb| |sb mb eb]; cbn;
    try reflexivity;
    try (destruct sa; reflexivity); try (destruct sb; reflexivity);
    try (destruct sa, sb; reflexivity).
  destruct sa, sb; try reflexivity;
    rewrite (Z.compare_antisym ea eb);
    destruct (ea ?= eb); cbn; try reflexivity;
    rewrite (Pos.compare_cont_antisym ma mb Eq); cbn;
    now rewrite ?CompOpp_involutive.
Qed.

Lemma f64_leb_not_ltb a b : f64_leb a b = true -> f64_ltb b a = false.
Proof.
  unfold f64_leb, f64_ltb, SFleb, SFltb. rewrite (SFcompare_antisym a b).
  destruct (SFcompare a b) as [[]|]; cbn; congruence.
Qed.

Lemma narrow_Above q :
  snd (Float64 q) = Above -> narrow q = (f64_zero, Some err_precision).
Proof. unfold narrow. destruct (Float64 q) as [d a]. cbn. now intros ->. Qed.

Lemma narrow_not_Above q :
  snd (Float64 q) <> Above -> narrow q = (fst (Float64 q), None).
Proof.
  unfold narrow. destruct (Float64 q) as [d a]. cbn.
  destruct a; congruence.
Qed.

(** The pair returned after narrowing carries an error exactly when the
    accuracy is [Above]. *)
Lemma narrow_failed q : failed (narrow q) = true <-> snd (Float64 q) = Above.
Proof.
  unfold narrow, failed. destruct (Float64 q) as [d a]. cbn.
  destruct a; cbn; split; congruence.
Qed.

(** C3.  At exponent 18 the balanced conversion ([WeiToEther], and
    [BigInt2Float] with 18 decimals) maps [10^18] to the double 1.0
    without error, and maps 1 to a precision-loss error, because
    narrowing [1 / 10^18] to a double rounds up. *)
Theorem toDouble_concrete_cases :
  WeiToEther (Some 1000000000000000000) = Ret (f64_1, None) /\
  value_of (BigInt2Float (Some 1000000000000000000) 18 initial_caches)
  = Ret (f64_1, None) /\
  f64_1 = S754_finite false (2 ^ 52) (-52) /\
  narrowing_accuracy 1 = Ret Above /\
  WeiToEther (Some 1) = Ret (f64_zero, Some err_precision) /\
  value_of (BigInt2Float (Some 1) 18 initial_caches)
  = Ret (f64_zero, Some ErrPrecisionLoss).
Proof. repeat split; vm_compute; reflexivity. Qed.



(** The too-large error does not depend on the quotient: at [2^54 * 10^18]
    the quotient is the double [2^54] exactly. *)
Example WeiToEtherSafe_rejects_exact :
  narrowing_accuracy (2 ^ 54 * 10 ^ 18) = Ret Exact /\
  WeiToEtherSafe (Some (2 ^ 54 * 10 ^ 18)) = Ret (f64_zero, Some err_too_large).
Proof. split; vm_compute; reflexivity. Qed.

(** C5.  On the fast path of [WeiToEtherOptimized] (inputs from 0 to
    [MaxInt64]: they fit an [int64], and the further bound of the source
    is [MaxInt64] itself) the result is decided by the double quotient
    [float64(w) / 1e18]: a quotient that is not zero and is below [1e-17]
    gives the precision-loss error, a quotient that is zero or at least
    [1e-17] is returned without error.  Inputs above [MaxInt64] get what
    [WeiToEther] returns. *)
Theorem WeiToEtherOptimized_paths (w1 w2 big : Z) :
  0 <= w1 <= MaxInt64 -> 0 <= w2 <= MaxInt64 -> MaxInt64 < big ->
  f64_eqb (fast_quotient w1) f64_zero = false ->
  f64_ltb (fast_quotient w1) f64_1em17 = true ->
  f64_eqb (fast_quotient w2) f64_zero = true
  \/ f64_leb f64_1em17 (fast_quotient w2) = true ->
  WeiToEtherOptimized (Some w1) = Ret (f64_zero, Some err_precision) /\
  WeiToEtherOptimized (Some w2) = Ret (fast_quotient w2, None) /\
  WeiToEtherOptimized (Some 0) = Ret (f64_zero, None) /\
  WeiToEtherOptimized (Some big) = WeiToEther (Some big).
Proof.
  intros H1 H2 Hbig Hnz Hlt Hok.
  assert (0 < MaxInt64) by reflexivity.
  split; [|split; [|split]].
  - rewrite WeiToEtherOptimized_fast by assumption. now rewrite Hnz, Hlt.
  - rewrite WeiToEtherOptimized_fast by assumption.
    destruct Hok as [Hz|Hge].
    + now rewrite Hz.
    + rewrite (f64_leb_not_ltb _ _ Hge). now rewrite andb_false_r.
  - reflexivity.
  - rewrite WeiToEtherOptimized_slow, WeiToEther_eq by lia. reflexivity.
Qed.

Lemma WeiToEtherOptimized_paths_witness :
  0 <= 9 <= MaxInt64 /\ 0 <= 10 <= MaxInt64 /\ MaxInt64 < 2 ^ 63 /\
  f64_eqb (fast_quotient 9) f64_zero = false /\
  f64_ltb (fast_quotient 9) f64_1em17 = true /\
  (f64_eqb (fast_quotient 10) f64_zero = true
   \/ f64_leb f64_1em17 (fast_quotient 10) = true) /\
  WeiToEtherOptimized (Some 9) = Ret (f64_zero, Some err_precision) /\
  WeiToEtherOptimized (Some 10) = Ret (fast_quotient 10, None) /\
  WeiToEtherOptimized (Some 0) = Ret (f64_zero, None) /\
  WeiToEtherOptimized (Some (2 ^ 63)) = WeiToEther (Some (2 ^ 63)).
Proof.
  split; [vm_compute; split; discriminate|].
  split; [vm_compute; split; discriminate|].
  split; [vm_compute; reflexivity|].
  split; [vm_compute; reflexivity|].
  split; [vm_compute; reflexivity|].
  split; [right; vm_compute; reflexivity|].
  apply (WeiToEtherOptimized_paths 9 10 (2 ^ 63)).
  - vm_compute; split; discriminate.
  - vm_compute; split; discriminate.
  - vm_compute; reflexivity.
  - vm_compute; reflexivity.
  - vm_compute; reflexivity.
  - right; vm_compute; reflexivity.
Defined.

(** The inputs 1 to 9 are rejected, 0 and 10 are not; the balanced
    conversion accepts 3 and 9 and rejects 10. *)
Example WeiToEtherOptimized_small :
  forallb (fun w => match WeiToEtherOptimized (Some w) with
                    | Ret r => failed r
                    | Panicked _ => false
                    end) [1; 2; 3; 4; 5; 6; 7; 8; 9] = true /\
  WeiToEtherOptimized (Some 0) = Ret (f64_zero, None) /\
  WeiToEtherOptimized (Some 10) = Ret (f64_1em17, None) /\
  narrowing_accuracy 3 = Ret Below /\
  narrowing_accuracy 9 = Ret Below /\
  narrowing_accuracy 10 = Ret Above.
Proof. repeat split; vm_compute; reflexivity. Qed.

(* ================================================================== *)
(** * The accuracy rule of the integer-to-double conversions *)

Lemma narrow_rule q : rejects_exactly_Above q (narrow q).
Proof. split; [apply narrow_failed | apply narrow_not_Above]. Qed.

Lemma SetInt_pos k :
  0 < k -> exists m e, val (SetInt 0 k) = Ffin false m e.
Proof.
  intros Hk. unfold SetInt, round_val, round_even. cbn [Z.eqb val].
  rewrite Z.abs_eq by lia.
  destruct (Z.leb_spec (bitlen k - Z.max (bitlen k) 64) 0) as [_|H]; [|lia].
  destruct (Z.ltb_spec k 0); [lia|].
  destruct k as [|p|p]; try lia. cbn [dyadic fst].
  destruct (odd_part p 0) as [m e]. eauto.
Qed.

(** Division by a cached power of ten never panics. *)
Lemma BigInt2BigFloat_returns st w decimal :
  cache_ok st ->
  exists q st', BigInt2BigFloat (Some w) decimal st = Ret (q, st') /\
                cache_ok st'.
Proof.
  intros Hst. unfold BigInt2BigFloat.
  destruct (cached_pow10Float_spec st decimal Hst) as [Hd Hst'].
  destruct (cached_pow10Float decimal st) as [d st'] eqn:E. cbn in Hd, Hst'.
  destruct (SetInt_pos (pow10 decimal) (pow10_pos decimal)) as [m [e Hv]].
  subst d. unfold Quo. rewrite Hv.
  destruct (val (SetInt 0 w)); cbn [bind]; eauto.
Qed.

(** C1, as the code has it.  [BigInt2Float] (for every exponent and every
    state of the caches) and [WeiToEther] return an error exactly when
    narrowing the decimal-float intermediate to a double is classified
    [Above], and return the double without error otherwise; so does
    [WeiToEtherSafe] for the inputs [ws] up to [2^53 * 10^18], and
    [WeiToEtherOptimized] for the inputs [wo] above [MaxInt64]. *)
Theorem toDouble_rejects_exactly_Above
  (st : caches) (decimal w ws wo : Z) :
  cache_ok st -> 0 <= w -> 0 <= ws <= maxSafeWei -> MaxInt64 < wo ->
  (exists q st' r,
      BigInt2BigFloat (Some w) decimal st = Ret (q, st') /\
      BigInt2Float (Some w) decimal st = Ret (r, st') /\
      rejects_exactly_Above q r) /\
  (exists q, ether_quotient w = Ret q /\
             WeiToEther (Some w) = Ret (narrow q) /\
             rejects_exactly_Above q (narrow q)) /\
  (exists q, ether_quotient ws = Ret q /\
             WeiToEtherSafe (Some ws) = Ret (narrow q) /\
             rejects_exactly_Above q (narrow q)) /\
  (exists q, ether_quotient wo = Ret q /\
             WeiToEtherOptimized (Some wo) = Ret (narrow q) /\
             rejects_exactly_Above q (narrow q)).
Proof.
  intros Hst Hw Hws Hwo. split; [|split; [|split]].
  - destruct (BigInt2BigFloat_returns st w decimal Hst) as [q [st' [Hq _]]].
    unfold BigInt2Float. destruct (Z.ltb_spec w 0); [lia|].
    rewrite Hq. cbn [bind fst snd].
    destruct (Float64 q) as [d a] eqn:E.
    exists q, st'.
    destruct a; eexists; (split; [reflexivity|]); (split; [reflexivity|]);
      unfold rejects_exactly_Above, failed; rewrite E; cbn;
      split; try split; congruence.
  - destruct (ether_quotient_returns w) as [q Hq]. exists q.
    rewrite WeiToEther_eq, Hq by assumption.
    split; [reflexivity|]. split; [reflexivity|apply narrow_rule].
  - destruct (ether_quotient_returns ws) as [q Hq]. exists q.
    rewrite WeiToEtherSafe_eq, Hq by assumption.
    split; [reflexivity|]. split; [reflexivity|apply narrow_rule].
  - destruct (ether_quotient_returns wo) as [q Hq]. exists q.
    rewrite WeiToEtherOptimized_slow, Hq by assumption.
    split; [reflexivity|]. split; [reflexivity|apply narrow_rule].
Qed.

Lemma toDouble_rejects_exactly_Above_witness :
  cache_ok initial_caches /\ 0 <= 123456 /\ 0 <= 1 <= maxSafeWei /\
  MaxInt64 < 2 ^ 63 /\
  (exists q st' r,
      BigInt2BigFloat (Some 123456) 8 initial_caches = Ret (q, st') /\
      BigInt2Float (Some 123456) 8 initial_caches = Ret (r, st') /\
      rejects_exactly_Above q r) /\
  (exists q, ether_quotient 123456 = Ret q /\
             WeiToEther (Some 123456) = Ret (narrow q) /\
             rejects_exactly_Above q (narrow q)) /\
  (exists q, ether_quotient 1 = Ret q /\
             WeiToEtherSafe (Some 1) = Ret (narrow q) /\
             rejects_exactly_Above q (narrow q)) /\
  (exists q, ether_quotient (2 ^ 63) = Ret q /\
             WeiToEtherOptimized (Some (2 ^ 63)) = Ret (narrow q) /\
             rejects_exactly_Above q (narrow q)).
Proof.
  split; [exact initial_caches_ok|]. split; [lia|].
  split; [vm_compute; split; discriminate|].
  split; [vm_compute; reflexivity|].
  apply (toDouble_rejects_exactly_Above initial_caches 8 123456 1 (2 ^ 63)).
  - exact initial_caches_ok.
  - lia.
  - vm_compute; split; discriminate.
  - vm_compute; reflexivity.
Defined.

(** C1 as stated fails for two of the three Wei conversions.
    [WeiToEtherSafe] returns an error at [2^54 * 10^18], where narrowing
    is exact.  [WeiToEtherOptimized] returns an error at 3, where
    narrowing rounds down, and returns [1e-17] without error at 10, where
    narrowing rounds up. *)
Lemma toDouble_variants_counterexample :
  (narrowing_accuracy (2 ^ 54 * 10 ^ 18) = Ret Exact /\
   WeiToEtherSafe (Some (2 ^ 54 * 10 ^ 18))
   = Ret (f64_zero, Some err_too_large)) /\
  (narrowing_accuracy 3 = Ret Below /\
   WeiToEtherOptimized (Some 3) = Ret (f64_zero, Some err_precision)) /\
  (narrowing_accuracy 10 = Ret Above /\
   WeiToEtherOptimized (Some 10) = Ret (f64_1em17, None)).
Proof. repeat split; vm_compute; reflexivity. Qed.

(* ================================================================== *)
(** * Float to scaled integer: invalid inputs *)

(** What holds of the rejections.  [EtherToWei] answers NaN, both
    infinities and every negative number with an error and no value, and
    does not panic.  [FloatToBigIntBaseX] and [BigIntBaseX] return zero
    for every negative number and for [-Inf]. *)
Lemma fromDouble_rejections (f : float64) (y : Z) (st : caches) :
  (math_IsNaN f = true \/ math_IsInf0 f = true \/ is_negative f ->
   exists e, EtherToWei f = Ret (None, Some e)) /\
  (is_negative f ->
   FloatToBigIntBaseX f y st = Ret (0, st) /\
   BigIntBaseX f y st = Ret (0, st)).
Proof.
  split.
  - intros H. unfold EtherToWei.
    destruct (math_IsNaN f || math_IsInf0 f) eqn:E; [eauto|].
    apply orb_false_elim in E. destruct E as [E1 E2].
    destruct H as [H|[H|H]]; try congruence.
    unfold is_negative in H. rewrite H. eauto.
  - unfold is_negative. intros H.
    unfold BigIntBaseX, FloatToBigIntBaseX. now rewrite H.
Qed.

(** C2, at the failing input.  For NaN, [FloatToBigIntBaseX] panics in
    every state of the caches and for every exponent: NaN is not below
    zero, and [SetFloat64] raises [ErrNaN].  [BigIntBaseX] does not return
    either: it panics on the missing cache entry or falls into
    [FloatToBigIntBaseX]. *)
Theorem fromDouble_NaN_panics (y : Z) (st : caches) :
  FloatToBigIntBaseX S754_nan y st = Panicked ErrNaN /\
  ~ returns (BigIntBaseX S754_nan y st) /\
  BigIntBaseX S754_nan 18 initial_caches = Panicked ErrNaN /\
  (exists e, EtherToWei S754_nan = Ret (None, Some e)).
Proof.
  split; [reflexivity|]. split; [|split; [reflexivity|]].
  - unfold BigIntBaseX. cbn [f64_ltb SFltb SFcompare f64_zero].
    destruct (y <=? 14); cbn [bind].
    + destruct (pow10Cache st !! y); cbn; auto.
    + cbn. auto.
  - cbn. eauto.
Qed.

(* ================================================================== *)
(** * BigIntBaseX: the fast path *)

(** C7, at the failing input.  For an exponent [y <= 14] that is not in
    [pow10Cache] (any such exponent but 14, after initialisation) and an
    amount that is not negative, [BigIntBaseX] dereferences the missing
    entry while evaluating the guard of the fast path and panics. *)
Theorem BigIntBaseX_uncached_panics (f : float64) (y : Z) (st : caches) :
  f64_ltb f f64_zero = false -> y <= 14 -> pow10Cache st !! y = None ->
  BigIntBaseX f y st = Panicked NilDereference.
Proof.
  intros Hf Hy Hc. unfold BigIntBaseX. rewrite Hf.
  destruct (Z.leb_spec y 14); [|lia]. now rewrite Hc.
Qed.

Lemma BigIntBaseX_uncached_panics_witness :
  f64_ltb f64_1_5 f64_zero = false /\ 6 <= 14 /\
  pow10Cache initial_caches !! 6 = None /\
  BigIntBaseX f64_1_5 6 initial_caches = Panicked NilDereference.
Proof.
  split; [reflexivity|]. split; [lia|]. split; [reflexivity|].
  apply (BigIntBaseX_uncached_panics f64_1_5 6 initial_caches);
    [reflexivity | lia | reflexivity].
Defined.

(** There the slow path returns the scaled amount, and once it has filled
    the cache the fast path returns it too. *)
Example BigIntBaseX_uncached_example :
  BigIntBaseX f64_1_5 6 initial_caches = Panicked NilDereference /\
  value_of (FloatToBigIntBaseX f64_1_5 6 initial_caches) = Ret 1500000 /\
  value_of (let* r := FloatToBigIntBaseX f64_1_5 6 initial_caches in
            BigIntBaseX f64_1_5 6 (snd r)) = Ret 1500000.
Proof. repeat split; vm_compute; reflexivity. Qed.

(* ================================================================== *)
(** * Dyadic numbers and rounding *)

Lemma odd_part_spec p : forall e,
  exists t, 0 <= t /\ snd (odd_part p e) = e + t /\
            Zpos p = Zpos (fst (odd_part p e)) * 2 ^ t.
Proof.
  induction p as [p IH|p IH|]; intros e; cbn [odd_part].
  - exists 0. cbn [fst snd]. rewrite Z.pow_0_r. lia.
  - destruct (IH (e + 1)) as [t [Ht [He Hp]]]. exists (t + 1).
    split; [lia|]. split; [lia|].
    rewrite Z.pow_add_r, Z.pow_1_r by lia. rewrite Pos2Z.inj_xO. lia.
  - exists 0. cbn [fst snd]. rewrite Z.pow_0_r. lia.
Qed.

Lemma dyadic_positive s m e :
  0 < m ->
  exists p t, 0 <= t /\ dyadic s m e = Ffin s p (e + t) /\ m = Zpos p * 2 ^ t.
Proof.
  intros Hm. destruct m as [|q|q]; try lia. cbn [dyadic].
  destruct (odd_part_spec q e) as [t [Ht [He Hp]]].
  destruct (odd_part q e) as [p e'] eqn:E. cbn [fst snd] in *. subst e'.
  exists p, t. auto.
Qed.

Lemma bitlen_pos m : 0 < m -> bitlen m = Z.log2 m + 1.
Proof. intros H. unfold bitlen. destruct (Z.leb_spec m 0); lia. Qed.

Lemma bitlen_scale m t : 0 < m -> 0 <= t -> bitlen (m * 2 ^ t) = bitlen m + t.
Proof.
  intros Hm Ht.
  assert (0 < 2 ^ t) by (apply Z.pow_pos_nonneg; lia).
  rewrite !bitlen_pos by nia. rewrite Z.log2_mul_pow2 by lia. lia.
Qed.

(** A number of [n] bits lies between [2^(n-1)] and [2^n]. *)
Lemma bitlen_bounds m : 0 < m -> 2 ^ (bitlen m - 1) <= m < 2 ^ bitlen m.
Proof.
  intros Hm. rewrite bitlen_pos by assumption.
  replace (Z.log2 m + 1 - 1) with (Z.log2 m) by lia.
  replace (Z.log2 m + 1) with (Z.succ (Z.log2 m)) by lia.
  apply Z.log2_spec. assumption.
Qed.

Lemma trunc_dyadic_scale m e t :
  0 <= m -> 0 <= t -> trunc_dyadic (m * 2 ^ t) e = trunc_dyadic m (e + t).
Proof.
  intros Hm Ht. unfold trunc_dyadic.
  destruct (Z.leb_spec 0 e), (Z.leb_spec 0 (e + t)); try lia.
  - rewrite Z.pow_add_r by lia. lia.
  - replace t with ((e + t) + (- e)) at 1 by lia.
    rewrite Z.pow_add_r by lia. rewrite Z.mul_assoc.
    apply Z.div_mul. apply Z.pow_nonzero; lia.
  - replace (- e) with (- (e + t) + t) by lia.
    rewrite Z.pow_add_r by lia.
    apply Z.div_mul_cancel_r; apply Z.pow_nonzero; lia.
Qed.

Lemma round_even_pos p m e sb :
  0 < p -> 0 < m -> 0 < fst (fst (round_even p m e sb)).
Proof.
  intros Hp Hm. unfold round_even.
  destruct (Z.leb_spec (bitlen m - p) 0) as [|Hs]; [cbn; lia|].
  pose proof (bitlen_bounds m Hm) as [Hlo _].
  assert (Hq : 0 < m / 2 ^ (bitlen m - p)).
  { apply Z.div_str_pos. split; [apply Z.pow_pos_nonneg; lia|].
    etransitivity; [|exact Hlo]. apply Z.pow_le_mono_r; lia. }
  repeat match goal with |- context [if ?b then _ else _] => destruct b end;
    cbn [fst]; lia.
Qed.

(** Rounding sees the value only: scaling the mantissa by [2^t] and
    lowering the exponent by [t] changes the result by such a scaling at
    most. *)
Lemma round_even_scale p m e t :
  0 < p -> 0 < m -> 0 <= t ->
  exists u, 0 <= u /\
    fst (fst (round_even p (m * 2 ^ t) e false))
    = fst (fst (round_even p m (e + t) false)) * 2 ^ u /\
    snd (fst (round_even p m (e + t) false))
    = snd (fst (round_even p (m * 2 ^ t) e false)) + u /\
    snd (round_even p (m * 2 ^ t) e false) = snd (round_even p m (e + t) false).
Proof.
  intros Hp Hm Ht. unfold round_even.
  rewrite bitlen_scale by assumption.
  set (s := bitlen m - p).
  replace (bitlen m + t - p) with (s + t) by (unfold s; lia).
  assert (H2t : 0 < 2 ^ t) by (apply Z.pow_pos_nonneg; lia).
  destruct (Z.leb_spec s 0) as [Hs|Hs].
  - destruct (Z.leb_spec (s + t) 0) as [Hst|Hst].
    + exists t. cbn [fst snd]. repeat split; lia.
    + (* the scaled mantissa has trailing zeros only below the cut *)
      assert (Hd : m * 2 ^ t = m * 2 ^ (- s) * 2 ^ (s + t)).
      { rewrite <- Z.mul_assoc, <- Z.pow_add_r by lia. f_equal. f_equal. lia. }
      assert (Hpos : 0 < 2 ^ (s + t)) by (apply Z.pow_pos_nonneg; lia).
      rewrite Hd. rewrite Z.div_mul, Z.mod_mul by lia.
      assert (Hh : 0 < 2 ^ (s + t - 1)) by (apply Z.pow_pos_nonneg; lia).
      destruct (Z.leb_spec (2 ^ (s + t - 1)) 0); [lia|].
      rewrite Z.mod_0_l by lia. cbn [negb andb orb Z.eqb fst snd].
      exists (- s). repeat split; lia.
  - destruct (Z.leb_spec (s + t) 0) as [Hst|Hst]; [lia|].
    assert (Hs2 : 0 < 2 ^ s) by (apply Z.pow_pos_nonneg; lia).
    assert (Hh2 : 0 < 2 ^ (s - 1)) by (apply Z.pow_pos_nonneg; lia).
    assert (Eq : m * 2 ^ t / 2 ^ (s + t) = m / 2 ^ s).
    { rewrite Z.pow_add_r by lia. apply Z.div_mul_cancel_r; lia. }
    assert (Er : (m * 2 ^ t) mod 2 ^ (s + t) = (m mod 2 ^ s) * 2 ^ t).
    { rewrite Z.pow_add_r by lia. apply Z.mul_mod_distr_r; lia. }
    assert (Eh : 2 ^ (s + t - 1) = 2 ^ (s - 1) * 2 ^ t).
    { rewrite <- Z.pow_add_r by lia. f_equal. lia. }
    rewrite Eq, Er, Eh.
    rewrite Z.mul_mod_distr_r by lia.
    assert (Eb : (2 ^ (s - 1) * 2 ^ t <=? m mod 2 ^ s * 2 ^ t)
                 = (2 ^ (s - 1) <=? m mod 2 ^ s)).
    { destruct (Z.leb_spec (2 ^ (s - 1)) (m mod 2 ^ s)),
               (Z.leb_spec (2 ^ (s - 1) * 2 ^ t) (m mod 2 ^ s * 2 ^ t));
        try reflexivity; nia. }
    assert (Ez : ((m mod 2 ^ s) mod 2 ^ (s - 1) * 2 ^ t =? 0)
                 = ((m mod 2 ^ s) mod 2 ^ (s - 1) =? 0)).
    { destruct (Z.eqb_spec ((m mod 2 ^ s) mod 2 ^ (s - 1)) 0),
               (Z.eqb_spec ((m mod 2 ^ s) mod 2 ^ (s - 1) * 2 ^ t) 0);
        try reflexivity; nia. }
    rewrite Eb, Ez. exists 0. rewrite Z.pow_0_r.
    repeat match goal with |- context [if ?b then _ else _] => destruct b end;
      cbn [fst snd]; repeat split; lia.
Qed.

Lemma digits2_pos_bitlen m : Zpos (digits2_pos m) = bitlen (Zpos m).
Proof.
  rewrite bitlen_pos by lia.
  induction m as [m IH|m IH|]; cbn [digits2_pos]; [| |reflexivity].
  - rewrite Pos2Z.inj_succ, IH.
    change (Zpos m~1) with (2 * Zpos m + 1). rewrite Z.log2_succ_double; lia.
  - rewrite Pos2Z.inj_succ, IH.
    change (Zpos m~0) with (2 * Zpos m). rewrite Z.log2_double; lia.
Qed.

(** A double has at most 53 mantissa bits and an exponent from -1074 to
    971. *)
Lemma is_float64_finite s m e :
  is_float64 (S754_finite s m e) ->
  bitlen (Zpos m) <= 53 /\ -1074 <= e <= 971.
Proof.
  unfold is_float64, valid_binary, bounded, canonical_mantissa, fexp, emin.
  rewrite digits2_pos_bitlen. intros H.
  apply andb_true_iff in H. destruct H as [H1 H2].
  apply Z.eqb_eq in H1. apply Z.leb_le in H2. lia.
Qed.

Lemma round_even_exact p m e :
  bitlen m <= p -> round_even p m e false = (m, e, Exact).
Proof.
  intros H. unfold round_even.
  destruct (Z.leb_spec (bitlen m - p) 0); [reflexivity|lia].
Qed.

Lemma SetFloat64_finite s m e :
  bitlen (Zpos m) <= 53 ->
  SetFloat64 0 (S754_finite s m e)
  = Ret {| prec := 53; val := dyadic s (Zpos m) e |}.
Proof.
  intros H. unfold SetFloat64, round_val. cbn [Z.eqb].
  rewrite round_even_exact by assumption. reflexivity.
Qed.

Lemma SetInt_positive k :
  0 < k ->
  SetInt 0 k = {| prec := Z.max (bitlen k) 64; val := dyadic false k 0 |}.
Proof.
  intros H. unfold SetInt, round_val. cbn [Z.eqb].
  rewrite Z.abs_eq by lia. rewrite round_even_exact by lia.
  destruct (Z.ltb_spec k 0); [lia|reflexivity].
Qed.

(** The integer part of the 53-bit product of a double and a positive
    integer, as [x.Int] reads it off the [big.Float]. *)
Lemma Mul_Int_into_new m e k :
  bitlen (Zpos m) <= 53 -> 0 < k ->
  exists bigval,
    (let* b := SetFloat64 0 (S754_finite false m e) in
     Mul (prec b) b (SetInt 0 k)) = Ret bigval /\
    Int_into_new bigval
    = (let '(m', e', _) := round_even 53 (Zpos m * k) e false in
       trunc_dyadic m' e').
Proof.
  intros Hm Hk. rewrite SetFloat64_finite by assumption. cbn [bind prec].
  rewrite SetInt_positive by assumption.
  destruct (dyadic_positive false (Zpos m) e ltac:(lia)) as [m0 [a [Ha [Em Hm0]]]].
  destruct (dyadic_positive false k 0 ltac:(lia)) as [k0 [b [Hb [Ek Hk0]]]].
  unfold Mul, op_prec. cbn [val prec Z.eqb fsign xorb]. rewrite Em, Ek.
  cbn [fsign xorb]. eexists. split; [reflexivity|].
  unfold Int_into_new, Float_Int, round_val. cbn [val].
  assert (Hpos : 0 < Zpos m0 * Zpos k0) by lia.
  destruct (round_even_scale 53 (Zpos m0 * Zpos k0) e (a + b) ltac:(lia) Hpos ltac:(lia))
    as [u [Hu [E1 [E2 _]]]].
  pose proof (round_even_pos 53 (Zpos m0 * Zpos k0) (e + (a + b)) false ltac:(lia) Hpos) as Hp2.
  replace (Zpos m0 * Zpos k0 * 2 ^ (a + b)) with (Zpos m * k) in E1, E2
    by (rewrite Hm0, Hk0, Z.pow_add_r by lia; ring).
  replace (e + a + (0 + b)) with (e + (a + b)) by ring.
  destruct (round_even 53 (Zpos m * k) e false) as [[m1 e1] a1].
  destruct (round_even 53 (Zpos m0 * Zpos k0) (e + (a + b)) false) as [[m2 e2] a2].
  cbn [fst snd] in *.
  destruct (dyadic_positive false m2 e2 Hp2) as [m3 [c [Hc [E3 Hm3]]]].
  rewrite E3. cbn [fst].
  rewrite E1, E2, Hm3.
  rewrite <- (trunc_dyadic_scale (Zpos m3) (e1 + u) c) by lia.
  rewrite <- (trunc_dyadic_scale (Zpos m3 * 2 ^ c) e1 u) by lia.
  reflexivity.
Qed.

(* ================================================================== *)
(** * Float to scaled integer: the product *)

Lemma dyadic_not_inf s m e : not_inf (dyadic s m e).
Proof.
  destruct m as [|p|p]; cbn; auto. destruct (odd_part p e). exact I.
Qed.

Lemma round_val_not_inf p s m e sb : not_inf (fst (round_val p s m e sb)).
Proof.
  unfold round_val. destruct (round_even p m e sb) as [[m' e'] a].
  apply dyadic_not_inf.
Qed.

Lemma SetInt_not_inf k : not_inf (val (SetInt 0 k)).
Proof. apply round_val_not_inf. Qed.

(** The validation block never panics once the amount is known not to be
    NaN: its quotient has a finite divisor, its difference has a finite
    left operand, and its product has the finite factor 0.001. *)
Lemma significant_loss_returns v res coin m e :
  v <> S754_nan -> val coin = Ffin false m e ->
  exists warn, significant_loss v res coin = Ret warn.
Proof.
  intros Hv Hc. unfold significant_loss.
  assert (Hq : exists check, Quo 0 (SetInt 0 res) coin = Ret check /\ not_inf (val check)).
  { unfold Quo. rewrite Hc. pose proof (SetInt_not_inf res) as Hn.
    destruct (val (SetInt 0 res)); cbn in Hn; try contradiction.
    - eexists; split; [reflexivity|exact I].
    - eexists; split; [reflexivity|]. cbn [val]. unfold uquo. apply round_val_not_inf. }
  destruct Hq as [check [-> Hn]]. cbn [bind].
  assert (Hs : exists x, SetFloat64 0 v = Ret x).
  { destruct v; try congruence; cbn; eauto. }
  destruct Hs as [x Hx]. rewrite Hx. cbn [bind].
  destruct (negb (Cmp check x =? 0)); [|eauto].
  assert (Hsub : exists d, Sub 0 check x = Ret d).
  { unfold Sub. destruct (val check); cbn in Hn; try contradiction;
      destruct (val x); eauto. }
  destruct Hsub as [d ->]. cbn [bind].
  assert (Hmul : exists l, (let* c := NewFloat f64_0_001 in Mul 0 x c) = Ret l).
  { cbn [NewFloat SetFloat64 f64_0_001 bind Z.eqb]. unfold Mul.
    match goal with |- context [round_val ?a ?b ?c ?d ?f] =>
      let r := eval vm_compute in (fst (round_val a b c d f)) in
      change (fst (round_val a b c d f)) with r end.
    cbn [val]. destruct (val x); eauto. }
  destruct Hmul as [l Hl]. cbn [bind] in Hl |- *.
  destruct (NewFloat f64_0_001); [|discriminate]. cbn [bind] in Hl |- *.
  rewrite Hl. eauto.
Qed.

Lemma FloatToBigIntBaseX_finite st y m e :
  cache_ok st -> is_float64 (S754_finite false m e) ->
  exists st' warn,
    FloatToBigIntBaseX (S754_finite false m e) y st
    = Ret (truncated_product_53 m e y, st') /\
    cache_ok st' /\
    significant_loss (S754_finite false m e) (truncated_product_53 m e y)
      (SetInt 0 (pow10 y)) = Ret warn.
Proof.
  intros Hst Hf. apply is_float64_finite in Hf. destruct Hf as [Hm _].
  unfold FloatToBigIntBaseX. cbn [f64_ltb SFltb SFcompare f64_zero].
  destruct (cached_pow10_spec st y Hst) as [Hk Hst'].
  destruct (cached_pow10 y st) as [k st'] eqn:E. cbn [fst snd] in Hk, Hst'. subst k.
  destruct (Mul_Int_into_new m e (pow10 y) Hm (pow10_pos y)) as [bigval [Hb Hi]].
  rewrite SetFloat64_finite in Hb |- * by assumption. cbn [bind] in Hb |- *.
  rewrite Hb. cbn [bind]. fold (truncated_product_53 m e y) in Hi. rewrite Hi.
  destruct (SetInt_pos (pow10 y) (pow10_pos y)) as [mk [ek Hv]].
  destruct (significant_loss_returns (S754_finite false m e)
              (truncated_product_53 m e y) (SetInt 0 (pow10 y)) mk ek
              ltac:(discriminate) Hv) as [warn Hw].
  rewrite Hw. cbn [bind]. exists st', warn. auto.
Qed.

Lemma ProcessFloatToDecimalAdjustment_finite y m e :
  is_float64 (S754_finite false m e) ->
  ProcessFloatToDecimalAdjustment y (S754_finite false m e)
  = Ret (truncated_product_53 m e y).
Proof.
  intros Hf. apply is_float64_finite in Hf. destruct Hf as [Hm _].
  unfold ProcessFloatToDecimalAdjustment. cbn [f64_ltb SFltb SFcompare f64_zero].
  destruct (Mul_Int_into_new m e (pow10 y) Hm (pow10_pos y)) as [bigval [Hb Hi]].
  rewrite SetFloat64_finite in Hb |- * by assumption. cbn [bind] in Hb |- *.
  rewrite Hb. cbn [bind]. now rewrite Hi.
Qed.

(** Zero and [+Inf] come back as zero: the product is a zero or an
    infinity, and [x.Int] leaves the fresh integer alone for an
    infinity. *)
Lemma FloatToBigIntBaseX_zero_inf st y v :
  cache_ok st -> v = S754_zero false \/ v = S754_zero true \/ v = S754_infinity false ->
  (exists st', FloatToBigIntBaseX v y st = Ret (0, st') /\ cache_ok st') /\
  ProcessFloatToDecimalAdjustment y v = Ret 0.
Proof.
  intros Hst Hv.
  destruct (SetInt_pos (pow10 y) (pow10_pos y)) as [mk [ek Hk]].
  assert (Hnan : v <> S754_nan) by (destruct Hv as [->|[->| ->]]; discriminate).
  split.
  - unfold FloatToBigIntBaseX.
    destruct (cached_pow10_spec st y Hst) as [Ek Hst'].
    destruct (cached_pow10 y st) as [k st'] eqn:E. cbn [fst snd] in Ek, Hst'. subst k.
    destruct (significant_loss_returns v 0 (SetInt 0 (pow10 y)) mk ek Hnan Hk)
      as [warn Hw].
    exists st'. split; [|assumption].
    destruct Hv as [->|[->| ->]]; cbn [f64_ltb SFltb SFcompare f64_zero SetFloat64 bind Z.eqb prec];
      unfold Mul; cbn [val]; rewrite Hk; cbn [bind Int_into_new Float_Int val fst];
      rewrite Hw; reflexivity.
  - unfold ProcessFloatToDecimalAdjustment.
    destruct Hv as [->|[->| ->]]; cbn [f64_ltb SFltb SFcompare f64_zero SetFloat64 bind Z.eqb prec];
      unfold Mul; cbn [val]; rewrite Hk; reflexivity.
Qed.

(** C6, as the code has it.  [FloatToBigIntBaseX] and
    [ProcessFloatToDecimalAdjustment] return zero, and no failure, for
    every negative input.  For every finite non-negative double
    [m * 2^e] they return the integer part of the product with the power
    of ten after that product has been rounded to 53 bits; the validation
    block of [FloatToBigIntBaseX] returns its verdict [warn] and the
    result does not depend on it.  Zero and [+Inf] give zero. *)
Theorem fromFloat_truncates_rounded_product
  (st : caches) (y : Z) (n : float64) (m : positive) (e : Z) :
  cache_ok st -> is_negative n -> is_float64 (S754_finite false m e) ->
  (FloatToBigIntBaseX n y st = Ret (0, st) /\
   ProcessFloatToDecimalAdjustment y n = Ret 0) /\
  (exists st' warn,
     FloatToBigIntBaseX (S754_finite false m e) y st
     = Ret (truncated_product_53 m e y, st') /\
     cache_ok st' /\
     significant_loss (S754_finite false m e) (truncated_product_53 m e y)
       (SetInt 0 (pow10 y)) = Ret warn) /\
  ProcessFloatToDecimalAdjustment y (S754_finite false m e)
  = Ret (truncated_product_53 m e y) /\
  (exists st', FloatToBigIntBaseX (S754_zero false) y st = Ret (0, st')) /\
  (exists st', FloatToBigIntBaseX (S754_infinity false) y st = Ret (0, st')) /\
  ProcessFloatToDecimalAdjustment y (S754_zero false) = Ret 0 /\
  ProcessFloatToDecimalAdjustment y (S754_infinity false) = Ret 0.
Proof.
  intros Hst Hn Hf.
  split; [|split; [|split; [|split; [|split; [|split]]]]].
  - unfold is_negative in Hn.
    unfold FloatToBigIntBaseX, ProcessFloatToDecimalAdjustment. now rewrite Hn.
  - now apply FloatToBigIntBaseX_finite.
  - now apply ProcessFloatToDecimalAdjustment_finite.
  - destruct (FloatToBigIntBaseX_zero_inf st y (S754_zero false) Hst ltac:(auto))
      as [[st' [H _]] _]. eauto.
  - destruct (FloatToBigIntBaseX_zero_inf st y (S754_infinity false) Hst ltac:(auto))
      as [[st' [H _]] _]. eauto.
  - now apply (FloatToBigIntBaseX_zero_inf st y (S754_zero false) Hst); auto.
  - now apply (FloatToBigIntBaseX_zero_inf st y (S754_infinity false) Hst); auto.
Qed.

Lemma fromFloat_truncates_rounded_product_witness :
  cache_ok initial_caches /\ is_negative f64_minus_1_23 /\
  is_float64 (S754_finite false 5559999489367579 (-52)) /\
  (FloatToBigIntBaseX f64_minus_1_23 18 initial_caches = Ret (0, initial_caches) /\
   ProcessFloatToDecimalAdjustment 18 f64_minus_1_23 = Ret 0) /\
  (exists st' warn,
     FloatToBigIntBaseX (S754_finite false 5559999489367579 (-52)) 18
       initial_caches
     = Ret (truncated_product_53 5559999489367579 (-52) 18, st') /\
     cache_ok st' /\
     significant_loss (S754_finite false 5559999489367579 (-52))
       (truncated_product_53 5559999489367579 (-52) 18)
       (SetInt 0 (pow10 18)) = Ret warn) /\
  ProcessFloatToDecimalAdjustment 18 (S754_finite false 5559999489367579 (-52))
  = Ret (truncated_product_53 5559999489367579 (-52) 18) /\
  (exists st', FloatToBigIntBaseX (S754_zero false) 18 initial_caches
               = Ret (0, st')) /\
  (exists st', FloatToBigIntBaseX (S754_infinity false) 18 initial_caches
               = Ret (0, st')) /\
  ProcessFloatToDecimalAdjustment 18 (S754_zero false) = Ret 0 /\
  ProcessFloatToDecimalAdjustment 18 (S754_infinity false) = Ret 0.
Proof.
  split; [exact initial_caches_ok|].
  split; [reflexivity|]. split; [reflexivity|].
  apply (fromFloat_truncates_rounded_product initial_caches 18 f64_minus_1_23
           5559999489367579 (-52)).
  - exact initial_caches_ok.
  - reflexivity.
  - reflexivity.
Defined.

(** C6 as stated fails: for 1.23456789 at exponent 18 the integer part of
    the exact product is 1234567889999999890, and both functions return
    1234567890000000000, the value that [TestFloatToBigIntBaseX] asks
    for. *)
Lemma fromFloat_exact_product_counterexample :
  f64_1_23456789 = S754_finite false 5559999489367579 (-52) /\
  truncated_product_exact f64_1_23456789 18 = Some 1234567889999999890 /\
  value_of (FloatToBigIntBaseX f64_1_23456789 18 initial_caches)
  = Ret 1234567890000000000 /\
  ProcessFloatToDecimalAdjustment 18 f64_1_23456789 = Ret 1234567890000000000.
Proof. repeat split; vm_compute; reflexivity. Qed.

(** A deviation above 0.1% changes nothing: a half at exponent 0 becomes
    0, the validation block reaches its warning branch, and 0 is
    returned. *)
Example fromFloat_large_deviation :
  significant_loss f64_0_5 0 (SetInt 0 (pow10 0)) = Ret true /\
  value_of (FloatToBigIntBaseX f64_0_5 0 initial_caches) = Ret 0.
Proof. split; vm_compute; reflexivity. Qed.

(** The cases of [TestFloatToBigIntBaseX], [TestBigIntBaseX] and
    [TestProcessFloatToDecimalAdjustment], and one tenth at exponent 18. *)
Example fromFloat_tests :
  value_of (FloatToBigIntBaseX f64_1_23456789 18 initial_caches)
  = Ret 1234567890000000000 /\
  value_of (FloatToBigIntBaseX f64_zero 18 initial_caches) = Ret 0 /\
  value_of (FloatToBigIntBaseX f64_minus_1_23 18 initial_caches) = Ret 0 /\
  value_of (BigIntBaseX f64_1_23456789 14 initial_caches)
  = Ret 123456788999999 /\
  value_of (BigIntBaseX f64_1_23456789 18 initial_caches)
  = Ret 1234567890000000000 /\
  ProcessFloatToDecimalAdjustment 18 f64_5_42323 = Ret 5423230000000000000 /\
  value_of (FloatToBigIntBaseX f64_0_1 18 initial_caches)
  = Ret 100000000000000000 /\
  truncated_product_exact f64_0_1 18 = Some 100000000000000005.
Proof. repeat split; vm_compute; reflexivity. Qed.

(* ================================================================== *)
(** * Float64 and IEEE-754 rounding *)

(** ** The right shift of [SpecFloat] *)

Lemma iter_pos_nat {A : Type} (f : A -> A) p : forall x,
  SpecFloat.iter_pos f p x = Nat.iter (Pos.to_nat p) f x.
Proof.
  induction p as [p IH|p IH|]; intros x; cbn [SpecFloat.iter_pos].
  - rewrite !IH, Pos2Nat.inj_xI.
    replace (S (2 * Pos.to_nat p)) with (Pos.to_nat p + Pos.to_nat p + 1)%nat by lia.
    rewrite !Nat.iter_add. reflexivity.
  - rewrite !IH, Pos2Nat.inj_xO.
    replace (2 * Pos.to_nat p)%nat with (Pos.to_nat p + Pos.to_nat p)%nat by lia.
    rewrite Nat.iter_add. reflexivity.
  - reflexivity.
Qed.

Lemma shr_1_spec m r s :
  0 <= m ->
  shr_1 (Build_shr_record m r s) = Build_shr_record (m / 2) (Z.odd m) (r || s).
Proof.
  intros Hm. unfold shr_1.
  destruct m as [|p|p]; [reflexivity| |lia].
  destruct p as [p|p|].
  - f_equal. rewrite Pos2Z.inj_xI. symmetry.
    rewrite Z.add_comm, Z.mul_comm. rewrite Z.div_add by lia. reflexivity.
  - f_equal. rewrite Pos2Z.inj_xO. symmetry.
    rewrite Z.mul_comm. apply Z.div_mul. lia.
  - reflexivity.
Qed.

Lemma mod_pow2_succ m n :
  0 <= n -> m mod 2 ^ (n + 1) = m mod 2 ^ n + 2 ^ n * ((m / 2 ^ n) mod 2).
Proof.
  intros Hn. rewrite Z.pow_add_r, Z.pow_1_r by lia.
  apply Z.rem_mul_r; [apply Z.pow_nonzero; lia | lia].
Qed.

Lemma odd_mod2 a : Z.odd a = (1 <=? a mod 2).
Proof.
  rewrite Zmod_odd. destruct (Z.odd a); reflexivity.
Qed.

(** After [n >= 1] single shifts of an exact mantissa [m]: the quotient by
    [2^n], the bit below it, and whether anything is set below that. *)
Lemma iter_shr_1 m n :
  0 <= m ->
  Nat.iter (S n) shr_1 (Build_shr_record m false false)
  = Build_shr_record (m / 2 ^ Z.of_nat (S n))
      (2 ^ Z.of_nat n <=? m mod 2 ^ Z.of_nat (S n))
      (negb (m mod 2 ^ Z.of_nat n =? 0)).
Proof.
  intros Hm. induction n as [|n IH].
  - cbn [Nat.iter]. rewrite shr_1_spec by assumption.
    change (Z.of_nat 1) with 1. change (Z.of_nat 0) with 0.
    rewrite Z.pow_1_r, Z.pow_0_r, Z.mod_1_r. cbn [orb negb Z.eqb].
    now rewrite odd_mod2.
  - rewrite Nat.iter_succ, IH.
    assert (Hq : 0 <= m / 2 ^ Z.of_nat (S n)).
    { apply Z.div_pos; [assumption | apply Z.pow_pos_nonneg; lia]. }
    rewrite shr_1_spec by assumption.
    assert (HSn : Z.of_nat (S (S n)) = Z.of_nat (S n) + 1) by lia.
    assert (Hn : Z.of_nat (S n) = Z.of_nat n + 1) by lia.
    f_equal.
    + rewrite HSn, Z.pow_add_r, Z.pow_1_r by lia. rewrite Z.div_div; [reflexivity| |lia].
      apply Z.pow_nonzero; lia.
    + rewrite HSn, (mod_pow2_succ m (Z.of_nat (S n))) by lia.
      rewrite odd_mod2.
      pose proof (Z.mod_pos_bound m (2 ^ Z.of_nat (S n)) ltac:(apply Z.pow_pos_nonneg; lia)) as Ha.
      pose proof (Z.mod_pos_bound (m / 2 ^ Z.of_nat (S n)) 2 ltac:(lia)) as Hb.
      set (a := m mod 2 ^ Z.of_nat (S n)) in *.
      set (b := (m / 2 ^ Z.of_nat (S n)) mod 2) in *.
      set (P := 2 ^ Z.of_nat (S n)) in *.
      assert (Eb : b = 0 \/ b = 1) by lia.
      destruct Eb as [-> | ->]; rewrite ?Z.mul_0_r, ?Z.mul_1_r, ?Z.add_0_r.
      * destruct (Z.leb_spec P a); [lia|reflexivity].
      * destruct (Z.leb_spec P (a + P)); [reflexivity|lia].
    + rewrite Hn, (mod_pow2_succ m (Z.of_nat n)) by lia.
      pose proof (Z.mod_pos_bound m (2 ^ Z.of_nat n) ltac:(apply Z.pow_pos_nonneg; lia)) as Ha.
      pose proof (Z.mod_pos_bound (m / 2 ^ Z.of_nat n) 2 ltac:(lia)) as Hb.
      set (a := m mod 2 ^ Z.of_nat n) in *.
      set (b := (m / 2 ^ Z.of_nat n) mod 2) in *.
      set (P := 2 ^ Z.of_nat n) in *.
      assert (Eb : b = 0 \/ b = 1) by lia.
      destruct Eb as [-> | ->]; rewrite ?Z.mul_0_r, ?Z.mul_1_r, ?Z.add_0_r.
      * destruct (Z.leb_spec P a); [lia|]. cbn [orb].
        reflexivity.
      * destruct (Z.leb_spec P (a + P)); [|lia]. cbn [orb].
        destruct (Z.eqb_spec (a + P) 0); [lia|reflexivity].
Qed.

Lemma shr_exact m e n :
  0 <= m -> 0 < n ->
  shr (Build_shr_record m false false) e n
  = (Build_shr_record (m / 2 ^ n) (2 ^ (n - 1) <=? m mod 2 ^ n)
       (negb (m mod 2 ^ (n - 1) =? 0)), e + n).
Proof.
  intros Hm Hn. destruct n as [|p|p]; try lia. cbn [shr].
  rewrite iter_pos_nat.
  destruct (Pos2Nat.is_succ p) as [k Hk]. rewrite Hk.
  rewrite iter_shr_1 by assumption.
  assert (E1 : Z.of_nat (S k) = Zpos p) by (rewrite <- Hk; apply positive_nat_Z).
  assert (E2 : Z.of_nat k = Zpos p - 1) by lia.
  now rewrite E1, E2.
Qed.

Lemma fexp64 x : fexp 53 1024 x = Z.max (x - 53) (-1074).
Proof. reflexivity. Qed.

Lemma Zdigits2_bitlen m : 0 <= m -> Zdigits2 m = bitlen m.
Proof.
  intros Hm. destruct m as [|p|p]; [reflexivity| |lia].
  apply digits2_pos_bitlen.
Qed.

Lemma bitlen_unique x b : 0 < b -> 2 ^ (b - 1) <= x < 2 ^ b -> bitlen x = b.
Proof.
  intros Hb Hx.
  assert (0 < 2 ^ (b - 1)) by (apply Z.pow_pos_nonneg; lia).
  rewrite bitlen_pos by lia.
  rewrite (Z.log2_unique x (b - 1)); [lia|lia|].
  now replace (Z.succ (b - 1)) with b by lia.
Qed.

Lemma bitlen_pow2 n : 0 <= n -> bitlen (2 ^ n) = n + 1.
Proof.
  intros Hn. apply bitlen_unique; [lia|].
  replace (n + 1 - 1) with n by lia. split; [lia|].
  apply Z.pow_lt_mono_r; lia.
Qed.

Lemma bitlen_positive m : 0 < m -> 0 < bitlen m.
Proof. intros H. rewrite bitlen_pos by assumption. pose proof (Z.log2_nonneg m). lia. Qed.

Lemma round_nearest_even_record m m' rb st :
  round_nearest_even m (loc_of_shr_record (Build_shr_record m' rb st))
  = if rb && (st || Z.odd m) then m + 1 else m.
Proof.
  destruct rb, st; cbn; try reflexivity.
  rewrite <- Z.negb_odd. destruct (Z.odd m); reflexivity.
Qed.

Lemma finish_zero s e : -1074 <= e -> finish s 0 e = S754_zero s.
Proof.
  intros He. unfold finish, shr_fexp. cbn [Zdigits2]. rewrite fexp64.
  set (n := Z.max (0 + e - 53) (-1074) - e).
  assert (Hn : n <= 0) by (unfold n; lia).
  destruct n as [|p|p]; try lia; reflexivity.
Qed.

Lemma finish_fits s m e :
  0 < m -> bitlen m <= 53 -> -1074 <= e ->
  e = -1074 \/ bitlen m = 53 ->
  finish s m e
  = if e <=? 971 then S754_finite s (Z.to_pos m) e else S754_infinity s.
Proof.
  intros Hm Hb He Hc. unfold finish, shr_fexp.
  rewrite Zdigits2_bitlen, fexp64 by lia.
  replace (Z.max (bitlen m + e - 53) (-1074) - e) with 0 by lia.
  cbn [shr shr_record_of_loc shr_m].
  destruct m as [|p|p]; try lia. reflexivity.
Qed.

Lemma finish_carry s e :
  -1074 <= e ->
  finish s (2 ^ 53) e
  = if e + 1 <=? 971 then S754_finite s (Z.to_pos (2 ^ 52)) (e + 1)
    else S754_infinity s.
Proof.
  intros He. unfold finish, shr_fexp.
  rewrite Zdigits2_bitlen, fexp64 by lia.
  rewrite (bitlen_pow2 53) by lia.
  replace (Z.max (53 + 1 + e - 53) (-1074) - e) with 1 by lia.
  reflexivity.
Qed.

Lemma binary_round_aux_finish s M E :
  0 < M ->
  binary_round_aux 53 1024 s M E loc_Exact
  = let n := Z.max (bitlen M + E - 53) (-1074) - E in
    if n <=? 0 then finish s M E
    else
      let q := M / 2 ^ n in
      let rb := 2 ^ (n - 1) <=? M mod 2 ^ n in
      let st := negb (M mod 2 ^ (n - 1) =? 0) in
      finish s (if rb && (st || Z.odd q) then q + 1 else q) (E + n).
Proof.
  intros HM. unfold binary_round_aux, shr_fexp at 1.
  rewrite Zdigits2_bitlen, fexp64 by lia.
  cbv zeta. set (n := Z.max (bitlen M + E - 53) (-1074) - E).
  destruct (Z.leb_spec n 0) as [Hn|Hn].
  - replace (shr (shr_record_of_loc M loc_Exact) E n)
      with (shr_record_of_loc M loc_Exact, E)
      by (destruct n; try lia; reflexivity).
    cbn [shr_record_of_loc shr_m loc_of_shr_record round_nearest_even].
    reflexivity.
  - cbn [shr_record_of_loc]. rewrite shr_exact by lia.
    cbn [shr_m]. rewrite round_nearest_even_record. reflexivity.
Qed.

Lemma f64_pack_canonical s m e :
  0 < m -> e = Z.max (bitlen m + e - 53) (-1074) ->
  f64_pack s m e = S754_finite s (Z.to_pos m) e.
Proof.
  intros Hm He. unfold f64_pack. rewrite <- He, Z.sub_diag, Z.shiftl_0_r.
  destruct m; try lia. reflexivity.
Qed.

Lemma f64_pack_carry s e :
  -1074 <= e + 1 ->
  f64_pack s (2 ^ 53) e = S754_finite s (Z.to_pos (2 ^ 52)) (e + 1).
Proof.
  intros He. unfold f64_pack. rewrite (bitlen_pow2 53) by lia.
  replace (Z.max (53 + 1 + e - 53) (-1074)) with (e + 1) by lia.
  replace (e - (e + 1)) with (-1) by lia. reflexivity.
Qed.

(** The leading bits of a mantissa: cutting [n] of the [d] bits leaves a
    number of [d - n] bits. *)
Lemma cut_bounds M n :
  0 < M -> 0 <= n < bitlen M ->
  2 ^ (bitlen M - n - 1) <= M / 2 ^ n < 2 ^ (bitlen M - n).
Proof.
  intros HM Hn. pose proof (bitlen_bounds M HM) as [Hlo Hhi].
  assert (H2n : 0 < 2 ^ n) by (apply Z.pow_pos_nonneg; lia).
  split.
  - apply Z.div_le_lower_bound; [lia|].
    rewrite <- Z.pow_add_r by lia.
    now replace (n + (bitlen M - n - 1)) with (bitlen M - 1) by lia.
  - apply Z.div_lt_upper_bound; [lia|].
    rewrite <- Z.pow_add_r by lia.
    now replace (n + (bitlen M - n)) with (bitlen M) by lia.
Qed.

Lemma mod_mod_pow2 M n : 0 < n -> (M mod 2 ^ n) mod 2 ^ (n - 1) = M mod 2 ^ (n - 1).
Proof.
  intros Hn. replace n with ((n - 1) + 1) at 1 by lia.
  rewrite mod_pow2_succ by lia.
  rewrite (Z.mul_comm (2 ^ (n - 1))), Z.mod_add by (apply Z.pow_nonzero; lia).
  apply Z.mod_mod. apply Z.pow_nonzero; lia.
Qed.

Lemma pow2_test M :
  0 < M -> (M =? 2 ^ Z.log2 M) = (M mod 2 ^ (bitlen M - 1) =? 0).
Proof.
  intros HM. rewrite bitlen_pos by assumption.
  replace (Z.log2 M + 1 - 1) with (Z.log2 M) by lia.
  pose proof (Z.log2_spec M HM) as [Hlo Hhi].
  pose proof (Z.log2_nonneg M) as Hl.
  assert (H2 : 0 < 2 ^ Z.log2 M) by (apply Z.pow_pos_nonneg; lia).
  rewrite Z.pow_succ_r in Hhi by assumption.
  destruct (Z.eqb_spec M (2 ^ Z.log2 M)) as [E|E].
  - rewrite E at 1. rewrite Z.mod_same by lia. reflexivity.
  - destruct (Z.eqb_spec (M mod 2 ^ Z.log2 M) 0) as [E0|E0]; [|reflexivity].
    apply Z.mod_divide in E0; [|lia]. destruct E0 as [c Hc].
    assert (c = 1) by nia. subst c. lia.
Qed.

(** The mantissa width of [round_f64] is what remains of the [d] bits
    after the shift of [binary_round_aux]. *)
Lemma round_f64_width d E :
  (if d + E - 1 <? -1022 then 53 + 1022 + (d + E - 1) else 53)
  = d - (Z.max (d + E - 53) (-1074) - E).
Proof. destruct (Z.ltb_spec (d + E - 1) (-1022)); lia. Qed.

Lemma round_f64_binary_round_aux s M E :
  0 < M -> E <= Z.max (bitlen M + E - 53) (-1074) ->
  binary_round_aux 53 1024 s M E loc_Exact = fst (round_f64 s M E).
Proof.
  intros HM HE. rewrite binary_round_aux_finish by assumption. cbv zeta.
  unfold round_f64. rewrite round_f64_width.
  pose proof (bitlen_positive M HM) as Hd.
  pose proof (bitlen_bounds M HM) as [Hlo Hhi].
  set (d := bitlen M) in *.
  set (n := Z.max (d + E - 53) (-1074) - E) in *.
  destruct (Z.leb_spec n 0) as [Hn|Hn].
  - (* no bit is cut *)
    assert (n = 0) by lia.
    replace (d - n) with d by lia.
    destruct (Z.ltb_spec d 0); [lia|]. destruct (Z.eqb_spec d 0); [lia|].
    cbn [orb andb]. rewrite round_even_exact by (fold d; lia).
    rewrite finish_fits by (fold d; lia).
    fold d. rewrite f64_pack_canonical by (fold d; lia).
    destruct (Z.leb_spec E 971), (Z.ltb_spec 1023 (d + E - 1)); try lia; reflexivity.
  - set (p := d - n).
    assert (H2n : 0 < 2 ^ n) by (apply Z.pow_pos_nonneg; lia).
    assert (Hh : 0 < 2 ^ (n - 1)) by (apply Z.pow_pos_nonneg; lia).
    assert (En : E + n = Z.max (d + E - 53) (-1074)) by lia.
    assert (Hnn : 2 ^ n = 2 * 2 ^ (n - 1)).
    { replace n with ((n - 1) + 1) at 1 by lia.
      rewrite Z.pow_add_r, Z.pow_1_r by lia. lia. }
    destruct (Z.ltb_spec p 0) as [Hp|Hp].
    + (* everything is cut, with room to spare *)
      cbn [orb fst].
      assert (HMh : M < 2 ^ (n - 1)).
      { eapply Z.lt_le_trans; [exact Hhi|]. apply Z.pow_le_mono_r; lia. }
      rewrite Z.div_small by lia. rewrite (Z.mod_small M (2 ^ n)) by lia.
      destruct (Z.leb_spec (2 ^ (n - 1)) M); [lia|]. cbn [andb].
      apply finish_zero. lia.
    + cbn [orb]. destruct (Z.eqb_spec p 0) as [Hp0|Hp0].
      * (* the leading bit is the rounding bit *)
        assert (Hnd : n = d) by lia.
        assert (Hnd2 : 2 ^ n = 2 ^ d) by (f_equal; exact Hnd).
        rewrite pow2_test by assumption. fold d.
        rewrite Z.div_small by lia. rewrite (Z.mod_small M (2 ^ n)) by lia.
        replace (n - 1) with (d - 1) by lia.
        destruct (Z.leb_spec (2 ^ (d - 1)) M); [|lia].
        cbn [andb Z.odd orb].
        destruct (Z.eqb_spec (M mod 2 ^ (d - 1)) 0); cbn [negb andb orb fst].
        -- apply finish_zero. lia.
        -- replace (0 + 1) with 1 by lia.
           rewrite (finish_fits s 1 (E + n));
             [ | lia | vm_compute; discriminate | lia | left; lia ].
           replace (E + n) with (-1074) by lia. reflexivity.
      * (* [p] leading bits are kept *)
        cbn [andb]. unfold round_even. fold d.
        replace (d - p) with n by (unfold p; lia).
        destruct (Z.leb_spec n 0); [lia|].
        rewrite mod_mod_pow2 by lia.
        pose proof (cut_bounds M n HM ltac:(fold d; lia)) as [Hqlo Hqhi].
        fold d in Hqlo, Hqhi. fold p in Hqhi.
        replace (d - n - 1) with (p - 1) in Hqlo by (unfold p; lia).
        set (q := M / 2 ^ n) in *.
        set (rb := 2 ^ (n - 1) <=? M mod 2 ^ n).
        set (st := negb (M mod 2 ^ (n - 1) =? 0)).
        assert (H2p : 0 < 2 ^ (p - 1)) by (apply Z.pow_pos_nonneg; lia).
        assert (Hpp : 2 ^ p = 2 * 2 ^ (p - 1)).
        { replace p with ((p - 1) + 1) at 1 by lia.
          rewrite Z.pow_add_r, Z.pow_1_r by lia. lia. }
        assert (Hp53 : p <= 53) by (unfold p; lia).
        assert (Hcase : p = 53 \/ E + n = -1074) by (unfold p; lia).
        (* the two functions keep the same mantissa [m2] *)
        set (m2 := if rb && (st || Z.odd q) then q + 1 else q).
        assert (Hre :
          (let '(m', e', a) :=
             (if negb rb && negb (false || st) then (q, E + n, Exact)
              else if rb && (false || st || Z.odd q) then (q + 1, E + n, Above)
              else (q, E + n, Below)) in
           if 1023 <? bitlen m' + e' - 1
           then (S754_infinity s, makeAcc (negb s))
           else (f64_pack s m' e', if s then acc_opp a else a))
          = (if 1023 <? bitlen m2 + (E + n) - 1
             then S754_infinity s else f64_pack s m2 (E + n),
             snd (let '(m', e', a) :=
             (if negb rb && negb (false || st) then (q, E + n, Exact)
              else if rb && (false || st || Z.odd q) then (q + 1, E + n, Above)
              else (q, E + n, Below)) in
           if 1023 <? bitlen m' + e' - 1
           then (S754_infinity s, makeAcc (negb s))
           else (f64_pack s m' e', if s then acc_opp a else a)))).
        { unfold m2. destruct rb, st, (Z.odd q); cbn [negb andb orb];
            repeat match goal with |- context [if ?b then _ else _] => destruct b end;
            reflexivity. }
        cbn [orb] in Hre |- *. rewrite Hre. cbn [fst].
        assert (Hm2 : q <= m2 <= q + 1).
        { unfold m2. destruct (rb && (st || Z.odd q)); lia. }
        destruct (Z.eq_dec m2 (2 ^ p)) as [Ec|Ec].
        -- (* the rounding carried into a new bit *)
           rewrite Ec. rewrite (bitlen_pow2 p) by lia.
           destruct Hcase as [Hc|Hc].
           ++ rewrite Hc. rewrite finish_carry by lia.
              rewrite f64_pack_carry by lia.
              destruct (Z.leb_spec (E + n + 1) 971), (Z.ltb_spec 1023 (53 + 1 + (E + n) - 1));
                try lia; reflexivity.
           ++ assert (Hb : bitlen (2 ^ p) = p + 1) by (apply bitlen_pow2; lia).
              assert (H2pp : 0 < 2 ^ p) by (apply Z.pow_pos_nonneg; lia).
              destruct (Z.eq_dec p 53) as [E53|N53].
              ** rewrite E53. rewrite finish_carry by lia.
                 rewrite f64_pack_carry by lia.
                 destruct (Z.leb_spec (E + n + 1) 971), (Z.ltb_spec 1023 (53 + 1 + (E + n) - 1));
                   try lia; reflexivity.
              ** rewrite finish_fits by lia.
                 rewrite f64_pack_canonical by lia.
                 destruct (Z.leb_spec (E + n) 971), (Z.ltb_spec 1023 (p + 1 + (E + n) - 1));
                   try lia; reflexivity.
        -- assert (Hb : bitlen m2 = p) by (apply bitlen_unique; lia).
           rewrite Hb.
           rewrite finish_fits by lia.
           rewrite f64_pack_canonical by lia.
           destruct (Z.leb_spec (E + n) 971), (Z.ltb_spec 1023 (p + (E + n) - 1));
             try lia; reflexivity.
Qed.

Lemma f64_pack_scale s m e u :
  0 <= u -> f64_pack s (m * 2 ^ u) e = f64_pack s m (e + u).
Proof.
  intros Hu. unfold f64_pack.
  destruct (Z.eq_dec m 0) as [->|Hm0]; [now rewrite Z.mul_0_l, !Z.shiftl_0_l|].
  destruct (Z.lt_total m 0) as [Hm|[Hm|Hm]]; [|lia|].
  - (* a negative mantissa packs to a zero either way *)
    assert (Hn : forall x c, x < 0 -> Z.shiftl x c < 0)
      by (intros x c Hx; now apply Z.shiftl_neg).
    assert (H2u : 0 < 2 ^ u) by (apply Z.pow_pos_nonneg; lia).
    pose proof (Hn (m * 2 ^ u) (e - Z.max (bitlen (m * 2 ^ u) + e - 53) (-1074)) ltac:(nia)).
    pose proof (Hn m (e + u - Z.max (bitlen m + (e + u) - 53) (-1074)) Hm).
    destruct (Z.shiftl (m * 2 ^ u) _), (Z.shiftl m _); try lia; reflexivity.
  - rewrite bitlen_scale by lia.
    replace (bitlen m + u + e) with (bitlen m + (e + u)) by lia.
    rewrite <- Z.shiftl_mul_pow2 by lia.
    rewrite Z.shiftl_shiftl by lia.
    replace (u + (e - Z.max (bitlen m + (e + u) - 53) (-1074)))
      with (e + u - Z.max (bitlen m + (e + u) - 53) (-1074)) by lia.
    reflexivity.
Qed.

Lemma log2_scale m t : 0 < m -> 0 <= t -> Z.log2 (m * 2 ^ t) = Z.log2 m + t.
Proof. intros. rewrite Z.log2_mul_pow2 by lia. lia. Qed.

(** [round_f64] sees the value only. *)
Lemma round_f64_scale s m e t :
  0 < m -> 0 <= t -> round_f64 s (m * 2 ^ t) e = round_f64 s m (e + t).
Proof.
  intros Hm Ht. unfold round_f64.
  assert (H2t : 0 < 2 ^ t) by (apply Z.pow_pos_nonneg; lia).
  rewrite bitlen_scale, log2_scale by lia.
  replace (bitlen m + t + e - 1) with (bitlen m + (e + t) - 1) by lia.
  set (p := if bitlen m + (e + t) - 1 <? -1022
            then 53 + 1022 + (bitlen m + (e + t) - 1) else 53).
  assert (Et : (m * 2 ^ t =? 2 ^ (Z.log2 m + t)) = (m =? 2 ^ Z.log2 m)).
  { rewrite Z.pow_add_r by (try apply Z.log2_nonneg; lia).
    destruct (Z.eqb_spec m (2 ^ Z.log2 m)) as [E|E].
    - rewrite <- E. apply Z.eqb_refl.
    - apply Z.eqb_neq. nia. }
  rewrite Et.
  destruct ((p <? 0) || (p =? 0) && (m =? 2 ^ Z.log2 m)) eqn:E1; [reflexivity|].
  destruct (Z.eqb_spec p 0) as [Hp0|Hp0]; [reflexivity|].
  assert (Hp : 0 < p).
  { destruct (Z.ltb_spec p 0); [discriminate|lia]. }
  destruct (round_even_scale p m e t Hp Hm Ht) as [u [Hu [Em [Ee Ea]]]].
  pose proof (round_even_pos p m (e + t) false Hp Hm) as Hpos.
  destruct (round_even p (m * 2 ^ t) e false) as [[m1 e1] a1].
  destruct (round_even p m (e + t) false) as [[m2 e2] a2].
  cbn [fst snd] in *. subst m1 e2 a1.
  rewrite bitlen_scale by lia.
  replace (bitlen m2 + u + e1 - 1) with (bitlen m2 + (e1 + u) - 1) by lia.
  rewrite f64_pack_scale by lia. reflexivity.
Qed.

Lemma shl_align_spec m e e' :
  exists t, 0 <= t /\
    Zpos (fst (shl_align m e e')) = Zpos m * 2 ^ t /\
    e = snd (shl_align m e e') + t /\
    snd (shl_align m e e') = Z.min e e'.
Proof.
  unfold shl_align. destruct (e' - e) as [|d|d] eqn:E; cbn [fst snd].
  - exists 0. rewrite Z.pow_0_r. lia.
  - exists 0. rewrite Z.pow_0_r. lia.
  - exists (Zpos d). split; [lia|].
    change (Pos.iter xO m d) with (shift_pos d m).
    rewrite shift_pos_correct. change (Z.pow_pos 2 d) with (2 ^ Zpos d). lia.
Qed.

(** The double that [x.Float64()] returns is the one that IEEE-754
    rounding to nearest even, as [SpecFloat] defines it, gives for the
    same dyadic number. *)
Theorem round_f64_binary_round s (m : positive) e :
  fst (round_f64 s (Zpos m) e) = binary_round 53 1024 s m e.
Proof.
  unfold binary_round. rewrite fexp64, digits2_pos_bitlen.
  destruct (shl_align_spec m e (Z.max (bitlen (Zpos m) + e - 53) (-1074)))
    as [t [Ht [Em [Ee Emin]]]].
  destruct (shl_align m e (Z.max (bitlen (Zpos m) + e - 53) (-1074)))
    as [mz ez]. cbn [fst snd] in *.
  rewrite round_f64_binary_round_aux.
  - rewrite Em. rewrite round_f64_scale by lia. now rewrite <- Ee.
  - lia.
  - rewrite Em, bitlen_scale by lia. lia.
Qed.

(** The accuracy that [round_even] reports is the comparison of the
    rounded mantissa with the exact one, and the rounded mantissa has at
    most [p] bits or is [2^p]. *)
Lemma round_even_accuracy p M E :
  0 < p -> 0 < M ->
  let '(m', e', a) := round_even p M E false in
  E <= e' /\ e' = Z.max E (E + bitlen M - p) /\ 0 < m' <= 2 ^ p /\
  (m' * 2 ^ (e' - E) ?= M) = comparison_of_acc a.
Proof.
  intros Hp HM. unfold round_even.
  pose proof (bitlen_bounds M HM) as [Hlo Hhi].
  pose proof (bitlen_positive M HM) as Hd.
  destruct (Z.leb_spec (bitlen M - p) 0) as [Hs|Hs].
  - rewrite Z.sub_diag, Z.pow_0_r, Z.mul_1_r, Z.compare_refl.
    repeat split; try lia.
    eapply Z.le_trans; [apply Z.lt_le_incl, Hhi|]. apply Z.pow_le_mono_r; lia.
  - set (s := bitlen M - p) in *.
    assert (A1 : E <= E + s) by lia.
    assert (A2 : E + s = Z.max E (E + bitlen M - p)) by (unfold s; lia).
    assert (H2s : 0 < 2 ^ s) by (apply Z.pow_pos_nonneg; lia).
    assert (Hh : 0 < 2 ^ (s - 1)) by (apply Z.pow_pos_nonneg; lia).
    assert (Hss : 2 ^ s = 2 * 2 ^ (s - 1)).
    { replace s with ((s - 1) + 1) at 1 by lia.
      rewrite Z.pow_add_r, Z.pow_1_r by lia. lia. }
    pose proof (cut_bounds M s HM ltac:(unfold s; lia)) as [Hqlo Hqhi].
    replace (bitlen M - s) with p in Hqhi by (unfold s; lia).
    pose proof (Z.div_mod M (2 ^ s) ltac:(lia)) as Hdm.
    pose proof (Z.mod_pos_bound M (2 ^ s) H2s) as Hr.
    assert (H2p1 : 0 < 2 ^ (bitlen M - s - 1))
      by (apply Z.pow_pos_nonneg; unfold s; lia).
    assert (Hq : 0 < M / 2 ^ s) by lia.
    clear Hqlo H2p1.
    set (q := M / 2 ^ s) in *. set (r := M mod 2 ^ s) in *.
    assert (Es : forall x, x * 2 ^ (E + s - E) = x * 2 ^ s)
      by (intros x; do 2 f_equal; ring).
    clearbody q r.
    set (P := 2 ^ s) in *. set (h := 2 ^ (s - 1)) in *. set (Pp := 2 ^ p) in *.
    clearbody P h Pp.
    assert (B1 : 0 < q + 1 <= Pp) by lia.
    assert (B2 : 0 < q <= Pp) by lia.
    cbn [orb].
    destruct (Z.leb_spec h r) as [Hrb|Hrb];
      destruct (Z.eqb_spec (r mod h) 0) as [Hst|Hst];
      cbn [negb andb orb].
    + destruct (Z.odd q); cbn [negb andb orb comparison_of_acc];
        (split; [exact A1|]); (split; [exact A2|]);
        (split; [assumption|]); rewrite Es.
      * apply Z.compare_gt_iff. clear Hst. nia.
      * apply Z.compare_lt_iff. clear Hst. nia.
    + (split; [exact A1|]); (split; [exact A2|]); (split; [assumption|]).
      rewrite Es. apply Z.compare_gt_iff. clear Hst. nia.
    + (split; [exact A1|]); (split; [exact A2|]); (split; [assumption|]).
      rewrite Z.mod_small in Hst by lia.
      rewrite Es. apply Z.compare_eq_iff. nia.
    + (split; [exact A1|]); (split; [exact A2|]); (split; [assumption|]).
      rewrite Es. apply Z.compare_lt_iff.
      assert (r <> 0) by (intros Hr0; rewrite Hr0, Z.mod_0_l in Hst; lia).
      clear Hst. nia.
Qed.

(** A mantissa of at most 53 bits at an exponent of at least -1074 packs
    without loss. *)
Lemma f64_pack_fits s m e :
  0 < m -> bitlen m <= 53 -> -1074 <= e ->
  let et := Z.max (bitlen m + e - 53) (-1074) in
  f64_pack s m e = S754_finite s (Z.to_pos (m * 2 ^ (e - et))) et /\ et <= e.
Proof.
  intros Hm Hb He et. split; [|unfold et; lia].
  unfold f64_pack. fold et.
  rewrite Z.shiftl_mul_pow2 by (unfold et; lia).
  assert (0 < 2 ^ (e - et)) by (apply Z.pow_pos_nonneg; unfold et; lia).
  destruct (m * 2 ^ (e - et)) eqn:E; try lia. reflexivity.
Qed.

Lemma f64_pack_compare m e M E :
  0 < m -> bitlen m <= 53 \/ m = 2 ^ 53 -> -1074 <= e -> E <= e ->
  f64_compare_dyadic (f64_pack false m e) M E
  = Some (m * 2 ^ (e - E) ?= M).
Proof.
  intros Hm Hb He HE.
  assert (Hgen : forall m e, 0 < m -> bitlen m <= 53 -> -1074 <= e -> E <= e ->
            f64_compare_dyadic (f64_pack false m e) M E = Some (m * 2 ^ (e - E) ?= M)).
  { clear. intros m e Hm Hb He HE.
    destruct (f64_pack_fits false m e Hm Hb He) as [Ep Het].
    set (et := Z.max (bitlen m + e - 53) (-1074)) in *.
    assert (H1 : 0 < 2 ^ (e - et)) by (apply Z.pow_pos_nonneg; lia).
    rewrite Ep. cbn [f64_compare_dyadic]. rewrite Z2Pos.id by nia.
    f_equal. set (e0 := Z.min et E).
    assert (H2 : 0 < 2 ^ (E - e0)) by (apply Z.pow_pos_nonneg; unfold e0; lia).
    replace (m * 2 ^ (e - et) * 2 ^ (et - e0))
      with (m * 2 ^ (e - E) * 2 ^ (E - e0)).
    - symmetry. apply Zmult_compare_compat_r. lia.
    - rewrite <- !Z.mul_assoc, <- !Z.pow_add_r by (unfold e0; lia).
      f_equal. f_equal. lia. }
  destruct Hb as [Hb|Hb]; [now apply Hgen|].
  subst m. change (2 ^ 53) with (2 ^ 52 * 2 ^ 1).
  rewrite f64_pack_scale by lia.
  rewrite Hgen; [|reflexivity|vm_compute; discriminate|lia|lia].
  f_equal. replace (e + 1 - E) with (1 + (e - E)) by lia.
  rewrite Z.pow_add_r by lia. now rewrite Z.mul_assoc.
Qed.

(** The accuracy returned with the double is the position of the double
    relative to the number it was rounded from: [Above] when the double is
    larger, [Below] when it is smaller, [Exact] when they are equal. *)
Theorem round_f64_accuracy M E :
  0 < M ->
  f64_compare_dyadic (fst (round_f64 false M E)) M E
  = Some (comparison_of_acc (snd (round_f64 false M E))).
Proof.
  intros HM. unfold round_f64.
  pose proof (bitlen_bounds M HM) as [Hlo Hhi].
  pose proof (bitlen_positive M HM) as Hd.
  set (d := bitlen M) in *.
  set (p := if d + E - 1 <? -1022 then 53 + 1022 + (d + E - 1) else 53).
  assert (Hp53 : p <= 53) by (unfold p; destruct (Z.ltb_spec (d + E - 1) (-1022)); lia).
  assert (Hpe : p = 53 \/ p = d + E + 1074)
    by (unfold p; destruct (Z.ltb_spec (d + E - 1) (-1022)); lia).
  assert (Hpe2 : d + E + 1074 >= p)
    by (unfold p; destruct (Z.ltb_spec (d + E - 1) (-1022)); lia).
  destruct ((p <? 0) || (p =? 0) && (M =? 2 ^ Z.log2 M)) eqn:E1.
  - cbn [fst snd f64_compare_dyadic makeAcc comparison_of_acc].
    f_equal. apply Z.compare_lt_iff. lia.
  - destruct (Z.eqb_spec p 0) as [Hp0|Hp0].
    + cbn [fst snd f64_compare_dyadic makeAcc comparison_of_acc negb].
      assert (HE : E = -1074 - d) by lia.
      replace (Z.min (-1074) E) with E by lia.
      rewrite Z.sub_diag, Z.pow_0_r, Z.mul_1_r.
      replace (-1074 - E) with d by lia.
      f_equal. apply Z.compare_gt_iff. lia.
    + assert (Hp : 0 < p).
      { apply orb_false_elim in E1. destruct E1 as [E1 _].
        destruct (Z.ltb_spec p 0); [discriminate|lia]. }
      pose proof (round_even_accuracy p M E Hp HM) as Hacc.
      destruct (round_even p M E false) as [[m' e'] a].
      destruct Hacc as [He' [Ee' [Hm' Hc]]]. fold d in Ee'.
      destruct (Z.ltb_spec 1023 (bitlen m' + e' - 1)) as [Hov|Hov].
      * cbn [fst snd f64_compare_dyadic makeAcc comparison_of_acc negb].
        (* an overflow comes from a number of at least [2^1023] *)
        reflexivity.
      * cbn [fst snd]. rewrite f64_pack_compare; try lia.
        -- now rewrite Hc.
        -- destruct (Z.eq_dec m' (2 ^ p)) as [Ec|Ec].
           ++ destruct (Z.eq_dec p 53) as [->|Hn]; [now right|].
              left. rewrite Ec, bitlen_pow2 by lia. lia.
           ++ left. assert (m' < 2 ^ p) by lia.
              assert (bitlen m' <= p); [|lia].
              rewrite bitlen_pos by lia.
              assert (Z.log2 m' < p); [|lia].
              apply Z.log2_lt_pow2; lia.
Qed.

(** For a positive [big.Float], [Float64] reports [Above] exactly when the
    double it returns is larger than the number. *)
Corollary Float64_Above_iff_larger p m e :
  snd (Float64 {| prec := p; val := Ffin false m e |}) = Above <->
  f64_compare_dyadic (fst (Float64 {| prec := p; val := Ffin false m e |}))
    (Zpos m) e = Some Gt.
Proof.
  unfold Float64. cbn [val].
  rewrite (round_f64_accuracy (Zpos m) e) by lia.
  destruct (snd (round_f64 false (Zpos m) e)); cbn; split; congruence.
Qed.

(* ================================================================== *)
(** * BigIntBaseX: agreement of the two paths *)

Lemma bitlen_mul_lower a b :
  0 < a -> 0 < b -> bitlen a + bitlen b - 1 <= bitlen (a * b).
Proof.
  intros Ha Hb.
  pose proof (bitlen_bounds a Ha) as [Hla _].
  pose proof (bitlen_bounds b Hb) as [Hlb _].
  pose proof (bitlen_positive a Ha). pose proof (bitlen_positive b Hb).
  assert (Hab : 2 ^ (bitlen a + bitlen b - 2) <= a * b).
  { replace (bitlen a + bitlen b - 2) with ((bitlen a - 1) + (bitlen b - 1)) by lia.
    rewrite Z.pow_add_r by lia.
    assert (0 < 2 ^ (bitlen a - 1)) by (apply Z.pow_pos_nonneg; lia).
    assert (0 < 2 ^ (bitlen b - 1)) by (apply Z.pow_pos_nonneg; lia).
    nia. }
  assert (Hlog : bitlen a + bitlen b - 2 <= Z.log2 (a * b)).
  { apply Z.log2_le_pow2; [nia|exact Hab]. }
  rewrite (bitlen_pos (a * b)) by nia. lia.
Qed.

(** The hardware product of two doubles is the rounding of the exact
    product of their mantissas. *)
Lemma f64_mul_round_f64 sx mx ex sy my ey :
  is_float64 (S754_finite sx mx ex) -> is_float64 (S754_finite sy my ey) ->
  f64_mul (S754_finite sx mx ex) (S754_finite sy my ey)
  = fst (round_f64 (xorb sx sy) (Zpos mx * Zpos my) (ex + ey)).
Proof.
  unfold is_float64, valid_binary, bounded, canonical_mantissa.
  rewrite !fexp64, !digits2_pos_bitlen. intros Hx Hy.
  apply andb_true_iff in Hx, Hy. destruct Hx as [Hx1 Hx2], Hy as [Hy1 Hy2].
  apply Z.eqb_eq in Hx1, Hy1.
  unfold f64_mul, SFmul. rewrite Pos2Z.inj_mul.
  apply round_f64_binary_round_aux; [lia|].
  pose proof (bitlen_mul_lower (Zpos mx) (Zpos my) ltac:(lia) ltac:(lia)).
  pose proof (bitlen_positive (Zpos mx) ltac:(lia)).
  pose proof (bitlen_positive (Zpos my) ltac:(lia)).
  lia.
Qed.

(** The double of a positive integer below [2^53] is the integer. *)
Lemma float64_of_Z_small k :
  0 < k < 2 ^ 53 ->
  float64_of_Z k
  = S754_finite false (Z.to_pos (k * 2 ^ (53 - bitlen k))) (bitlen k - 53) /\
  is_float64 (float64_of_Z k).
Proof.
  intros Hk. pose proof (bitlen_positive k ltac:(lia)) as Hd.
  assert (Hb : bitlen k <= 53).
  { rewrite bitlen_pos by lia. assert (Z.log2 k < 53); [|lia].
    apply Z.log2_lt_pow2; lia. }
  assert (E : float64_of_Z k
              = S754_finite false (Z.to_pos (k * 2 ^ (53 - bitlen k))) (bitlen k - 53)).
  { unfold float64_of_Z, binary_normalize. destruct k as [|p|p]; try lia.
    rewrite <- round_f64_binary_round. unfold round_f64.
    destruct (Z.ltb_spec (bitlen (Zpos p) + 0 - 1) (-1022)); [lia|].
    cbn [Z.ltb Z.eqb orb andb Z.compare].
    rewrite round_even_exact by lia.
    destruct (Z.ltb_spec 1023 (bitlen (Zpos p) + 0 - 1)); [lia|]. cbn [fst].
    destruct (f64_pack_fits false (Zpos p) 0 ltac:(lia) Hb ltac:(lia)) as [-> _].
    replace (Z.max (bitlen (Zpos p) + 0 - 53) (-1074)) with (bitlen (Zpos p) - 53) by lia.
    replace (0 - (bitlen (Zpos p) - 53)) with (53 - bitlen (Zpos p)) by lia.
    reflexivity. }
  split; [exact E|]. rewrite E.
  unfold is_float64, valid_binary, bounded, canonical_mantissa.
  rewrite fexp64, digits2_pos_bitlen.
  assert (H2 : 0 < 2 ^ (53 - bitlen k)) by (apply Z.pow_pos_nonneg; lia).
  rewrite Z2Pos.id by nia. rewrite bitlen_scale by lia.
  apply andb_true_iff. split; [apply Z.eqb_eq|apply Z.leb_le]; lia.
Qed.

(** Multiplying a double by a small positive integer rounds the exact
    product. *)
Lemma f64_mul_by_integer m e k :
  is_float64 (S754_finite false m e) -> 0 < k < 2 ^ 53 ->
  f64_mul (S754_finite false m e) (float64_of_Z k)
  = fst (round_f64 false (Zpos m * k) e).
Proof.
  intros Hf Hk. destruct (float64_of_Z_small k Hk) as [E Hv].
  rewrite E in Hv |- *. rewrite f64_mul_round_f64 by assumption.
  pose proof (bitlen_positive k ltac:(lia)) as Hd.
  assert (Hb : bitlen k <= 53).
  { rewrite bitlen_pos by lia. assert (Z.log2 k < 53); [|lia].
    apply Z.log2_lt_pow2; lia. }
  assert (H2 : 0 < 2 ^ (53 - bitlen k)) by (apply Z.pow_pos_nonneg; lia).
  rewrite Z2Pos.id by nia. cbn [xorb].
  rewrite Z.mul_assoc.
  rewrite round_f64_scale by lia.
  replace (e + (bitlen k - 53) + (53 - bitlen k)) with e by lia.
  reflexivity.
Qed.

(** Rounding moves a number by half a unit of the last kept bit at most. *)
Lemma round_even_error p M E :
  0 < p -> 0 < M ->
  let '(m', e', _) := round_even p M E false in
  2 * (m' * 2 ^ (e' - E)) <= 2 * M + 2 ^ (e' - E).
Proof.
  intros Hp HM. unfold round_even.
  destruct (Z.leb_spec (bitlen M - p) 0) as [Hs|Hs].
  - rewrite Z.sub_diag, Z.pow_0_r. lia.
  - set (s := bitlen M - p) in *.
    assert (H2s : 0 < 2 ^ s) by (apply Z.pow_pos_nonneg; lia).
    assert (Hh : 0 < 2 ^ (s - 1)) by (apply Z.pow_pos_nonneg; lia).
    assert (Hss : 2 ^ s = 2 * 2 ^ (s - 1)).
    { replace s with ((s - 1) + 1) at 1 by lia.
      rewrite Z.pow_add_r, Z.pow_1_r by lia. lia. }
    pose proof (Z.div_mod M (2 ^ s) ltac:(lia)) as Hdm.
    pose proof (Z.mod_pos_bound M (2 ^ s) H2s) as Hr.
    assert (Hq : 0 <= M / 2 ^ s) by (apply Z.div_pos; lia).
    set (q := M / 2 ^ s) in *. set (r := M mod 2 ^ s) in *.
    assert (Es : E + s - E = s) by ring.
    clearbody q r.
    set (P := 2 ^ s) in *. set (h := 2 ^ (s - 1)) in *.
    cbn [orb].
    destruct (Z.leb_spec h r) as [Hrb|Hrb];
      destruct (negb (r mod h =? 0)); destruct (Z.odd q);
      cbn [negb andb orb]; rewrite Es; fold P; clearbody P h; nia.
Qed.

Lemma trunc_dyadic_le m e :
  0 <= m -> -1074 <= e -> trunc_dyadic m e * 2 ^ 1074 <= m * 2 ^ (e + 1074).
Proof.
  intros Hm He. unfold trunc_dyadic.
  destruct (Z.leb_spec 0 e).
  - rewrite Z.pow_add_r by lia. lia.
  - assert (H1 : 0 < 2 ^ (- e)) by (apply Z.pow_pos_nonneg; lia).
    assert (H2 : 0 < 2 ^ (e + 1074)) by (apply Z.pow_pos_nonneg; lia).
    replace 1074 with ((- e) + (e + 1074)) at 1 by lia.
    rewrite Z.pow_add_r by lia.
    pose proof (Z.mul_div_le m (2 ^ (- e)) H1). nia.
Qed.

Lemma trunc_dyadic_small m e :
  0 <= m -> e < 0 -> m < 2 ^ (- e) -> trunc_dyadic m e = 0.
Proof.
  intros Hm He Hlt. unfold trunc_dyadic.
  destruct (Z.leb_spec 0 e); [lia|]. apply Z.div_small. lia.
Qed.

Lemma trunc_dyadic_nonneg m e : 0 <= m -> 0 <= trunc_dyadic m e.
Proof.
  intros Hm. unfold trunc_dyadic. destruct (Z.leb_spec 0 e).
  - apply Z.mul_nonneg_nonneg; [lia|]. apply Z.pow_nonneg. lia.
  - apply Z.div_pos; [lia|]. apply Z.pow_pos_nonneg; lia.
Qed.

(** Converting a packed double to [int64] reads the integer part of the
    number that was packed, when this fits. *)
Lemma int64_of_f64_pack m e :
  0 < m -> bitlen m <= 53 \/ m = 2 ^ 53 -> -1074 <= e ->
  trunc_dyadic m e <= MaxInt64 ->
  int64_of_float64 (f64_pack false m e) = trunc_dyadic m e.
Proof.
  intros Hm Hb He Ht.
  assert (Hgen : forall m e, 0 < m -> bitlen m <= 53 -> -1074 <= e ->
            trunc_dyadic m e <= MaxInt64 ->
            int64_of_float64 (f64_pack false m e) = trunc_dyadic m e).
  { clear. intros m e Hm Hb He Ht.
    destruct (f64_pack_fits false m e Hm Hb He) as [Ep Het].
    set (et := Z.max (bitlen m + e - 53) (-1074)) in *.
    assert (H1 : 0 < 2 ^ (e - et)) by (apply Z.pow_pos_nonneg; lia).
    rewrite Ep. cbn [int64_of_float64]. rewrite Z2Pos.id by nia.
    rewrite trunc_dyadic_scale by lia.
    replace (et + (e - et)) with e by lia.
    pose proof (trunc_dyadic_nonneg m e ltac:(lia)).
    rewrite IsInt64_true; [reflexivity|]. unfold MinInt64. lia. }
  destruct Hb as [Hb|Hb]; [now apply Hgen|].
  subst m. change (2 ^ 53) with (2 ^ 52 * 2 ^ 1) in *.
  rewrite trunc_dyadic_scale in * by lia.
  rewrite f64_pack_scale by lia.
  apply Hgen; [reflexivity|vm_compute; discriminate|lia|assumption].
Qed.

Lemma bitlen_le_pow2 m p : 0 < m -> 0 <= p -> m <= 2 ^ p -> bitlen m <= p + 1.
Proof.
  intros Hm Hp Hle. rewrite bitlen_pos by assumption.
  assert (Z.log2 m <= p); [|lia].
  rewrite <- (Z.log2_pow2 p) by lia. now apply Z.log2_le_mono.
Qed.

Lemma bitlen_lt_pow2 m p : 0 < m -> 0 < p -> m < 2 ^ p -> bitlen m <= p.
Proof.
  intros Hm Hp Hlt. rewrite bitlen_pos by assumption.
  assert (Z.log2 m < p); [|lia]. apply Z.log2_lt_pow2; lia.
Qed.

Lemma rounded_fits p m' :
  0 < p <= 53 -> 0 < m' <= 2 ^ p -> bitlen m' <= 53 \/ m' = 2 ^ 53.
Proof.
  intros Hp Hm. destruct (Z.eq_dec m' (2 ^ p)) as [E|E].
  - destruct (Z.eq_dec p 53) as [->|N]; [now right|].
    left. rewrite E, bitlen_pow2 by lia. lia.
  - left. pose proof (bitlen_lt_pow2 m' p ltac:(lia) ltac:(lia) ltac:(lia)). lia.
Qed.

(** Below [2^63 - 2^9] the rounding of a number to a double and then to
    an [int64] gives the integer part of its 53-bit rounding: the double
    has 53 bits wherever its value is one or more. *)
Lemma int64_of_round_f64 X e :
  0 < X -> -1074 <= e ->
  X * 2 ^ (e + 1074) + 2 ^ (9 + 1074) < 2 ^ (63 + 1074) ->
  int64_of_float64 (fst (round_f64 false X e))
  = (let '(m', e', _) := round_even 53 X e false in trunc_dyadic m' e').
Proof.
  intros HX He Hbound.
  pose proof (bitlen_bounds X HX) as [Hlo Hhi].
  pose proof (bitlen_positive X HX) as Hd.
  assert (H2e : 0 < 2 ^ (e + 1074)) by (apply Z.pow_pos_nonneg; lia).
  assert (H29 : 0 < 2 ^ (9 + 1074)) by (apply Z.pow_pos_nonneg; lia).
  assert (H21074 : 0 < 2 ^ 1074) by (apply Z.pow_pos_nonneg; lia).
  assert (H263 : 2 ^ (63 + 1074) = 2 ^ 63 * 2 ^ 1074)
    by (rewrite Z.pow_add_r by lia; reflexivity).
  (* the number is below [2^63] *)
  assert (Hde : bitlen X + e <= 63).
  { assert (H1 : 2 ^ (bitlen X - 1) * 2 ^ (e + 1074) < 2 ^ (63 + 1074)) by nia.
    rewrite <- Z.pow_add_r in H1 by lia.
    apply Z.pow_lt_mono_r_iff in H1; lia. }
  unfold round_f64.
  set (p := if bitlen X + e - 1 <? -1022 then 53 + 1022 + (bitlen X + e - 1) else 53).
  destruct (Z.le_gt_cases (bitlen X) 53) as [Hsmall|Hbig].
  - (* the number is a double already *)
    assert (Hp : bitlen X <= p)
      by (unfold p; destruct (Z.ltb_spec (bitlen X + e - 1) (-1022)); lia).
    destruct (Z.ltb_spec p 0); [lia|]. destruct (Z.eqb_spec p 0); [lia|].
    cbn [orb andb]. rewrite !round_even_exact by lia.
    destruct (Z.ltb_spec 1023 (bitlen X + e - 1)); [lia|]. cbn [fst].
    apply int64_of_f64_pack; [lia|now left|lia|].
    pose proof (trunc_dyadic_le X e ltac:(lia) He). unfold MaxInt64. nia.
  - assert (Ep : p = 53)
      by (unfold p; destruct (Z.ltb_spec (bitlen X + e - 1) (-1022)); lia).
    rewrite Ep. cbn [Z.ltb Z.eqb Z.compare orb andb].
    pose proof (round_even_accuracy 53 X e ltac:(lia) HX) as Hacc.
    pose proof (round_even_error 53 X e ltac:(lia) HX) as Herr.
    destruct (round_even 53 X e false) as [[m' e'] a].
    destruct Hacc as [He' [Ee' [Hm' _]]].
    pose proof (bitlen_le_pow2 m' 53 ltac:(lia) ltac:(lia) ltac:(lia)) as Hbm.
    destruct (Z.ltb_spec 1023 (bitlen m' + e' - 1)); [lia|]. cbn [fst].
    apply int64_of_f64_pack; [lia|apply (rounded_fits 53); lia|lia|].
    pose proof (trunc_dyadic_le m' e' ltac:(lia) ltac:(lia)) as Ht.
    (* half a unit of the last bit is [2^9] at most *)
    assert (Hu : 2 ^ (e' - e) * 2 ^ (e + 1074) <= 2 * 2 ^ (9 + 1074)).
    { rewrite <- Z.pow_add_r by lia.
      replace (2 * 2 ^ (9 + 1074)) with (2 ^ (10 + 1074))
        by (rewrite (Z.pow_add_r 2 10), (Z.pow_add_r 2 9) by lia; lia).
      apply Z.pow_le_mono_r; lia. }
    assert (Hm : m' * 2 ^ (e' + 1074) = m' * 2 ^ (e' - e) * 2 ^ (e + 1074)).
    { rewrite <- Z.mul_assoc, <- Z.pow_add_r by lia. do 2 f_equal. lia. }
    assert (0 < 2 ^ (e' - e)) by (apply Z.pow_pos_nonneg; lia).
    unfold MaxInt64. nia.
Qed.

(** A double below the normal double [mB * 2^eB] is below it by half a
    unit of its last bit at least. *)
Lemma f64_ltb_gap m e mB eB :
  is_float64 (S754_finite false m e) -> -1074 <= eB ->
  f64_ltb (S754_finite false m e) (S754_finite false mB eB) = true ->
  2 * (Zpos m * 2 ^ (e + 1074))
  <= Z.max (2 ^ 53 - 1) (2 * Zpos mB - 2) * 2 ^ (eB + 1074).
Proof.
  intros Hf HeB Hlt. apply is_float64_finite in Hf. destruct Hf as [Hb [He _]].
  assert (Hm : Zpos m < 2 ^ 53).
  { pose proof (bitlen_bounds (Zpos m) ltac:(lia)) as [_ Hhi].
    eapply Z.lt_le_trans; [exact Hhi|]. apply Z.pow_le_mono_r; lia. }
  assert (H2e : 0 < 2 ^ (e + 1074)) by (apply Z.pow_pos_nonneg; lia).
  assert (H2B : 0 < 2 ^ (eB + 1074)) by (apply Z.pow_pos_nonneg; lia).
  unfold f64_ltb, SFltb, SFcompare in Hlt.
  destruct (Z.compare_spec e eB) as [Heq|Hlt'|Hgt]; try discriminate.
  - subst eB.
    assert (Zpos m < Zpos mB).
    { change (Pos.compare_cont Eq m mB) with (Pos.compare m mB) in Hlt.
      destruct (Pos.compare_spec m mB); try discriminate. lia. }
    nia.
  - assert (Hpow : 2 * 2 ^ (e + 1074) <= 2 ^ (eB + 1074)).
    { replace (2 * 2 ^ (e + 1074)) with (2 ^ (e + 1 + 1074))
        by (replace (e + 1 + 1074) with (1 + (e + 1074)) by lia;
            rewrite Z.pow_add_r by lia; lia).
      apply Z.pow_le_mono_r; lia. }
    nia.
Qed.

(** The bound of the fast path, for each of the fifteen powers of ten
    that it can meet. *)
Lemma fast_path_bound y :
  y <= 14 ->
  0 < pow10 y < 2 ^ 53 /\ Int_Int64 (pow10 y) = pow10 y /\
  exists mB eB,
    f64_div f64_MaxInt64 (float64_of_Z (pow10 y)) = S754_finite false mB eB /\
    guard_check (pow10 y) mB eB = true.
Proof.
  intros Hy.
  assert (Hc : y <= 0 \/ y = 1 \/ y = 2 \/ y = 3 \/ y = 4 \/ y = 5 \/ y = 6 \/ y = 7
               \/ y = 8 \/ y = 9 \/ y = 10 \/ y = 11 \/ y = 12 \/ y = 13 \/ y = 14)
    by lia.
  assert (H0 : y <= 0 -> pow10 y = 1).
  { intros H. unfold pow10. destruct (Z.leb_spec y 0); [reflexivity|lia]. }
  repeat (destruct Hc as [Hc|Hc]);
    [rewrite (H0 Hc) | subst y ..];
    (split; [vm_compute; split; reflexivity|]);
    (split; [reflexivity|]);
    (eexists; eexists; split; [vm_compute; reflexivity|vm_compute; reflexivity]).
Qed.

Lemma cached_pow10_hit st y k :
  pow10Cache st !! y = Some k -> cached_pow10 y st = (k, st).
Proof. intros H. unfold cached_pow10. now rewrite H. Qed.

Lemma FloatToBigIntBaseX_finite_cached st y m e :
  cache_ok st -> is_float64 (S754_finite false m e) ->
  FloatToBigIntBaseX (S754_finite false m e) y st
  = Ret (truncated_product_53 m e y, snd (cached_pow10 y st)).
Proof.
  intros Hst Hf. apply is_float64_finite in Hf. destruct Hf as [Hm _].
  unfold FloatToBigIntBaseX. cbn [f64_ltb SFltb SFcompare f64_zero].
  destruct (cached_pow10_spec st y Hst) as [Hk Hst'].
  destruct (cached_pow10 y st) as [k st'] eqn:E. cbn [fst snd] in Hk, Hst' |- *. subst k.
  destruct (Mul_Int_into_new m e (pow10 y) Hm (pow10_pos y)) as [bigval [Hb Hi]].
  rewrite SetFloat64_finite in Hb |- * by assumption. cbn [bind] in Hb |- *.
  rewrite Hb. cbn [bind]. fold (truncated_product_53 m e y) in Hi. rewrite Hi.
  destruct (SetInt_pos (pow10 y) (pow10_pos y)) as [mk [ek Hv]].
  destruct (significant_loss_returns (S754_finite false m e)
              (truncated_product_53 m e y) (SetInt 0 (pow10 y)) mk ek
              ltac:(discriminate) Hv) as [warn Hw].
  rewrite Hw. reflexivity.
Qed.

Lemma FloatToBigIntBaseX_zero_cached st y s :
  cache_ok st ->
  FloatToBigIntBaseX (S754_zero s) y st = Ret (0, snd (cached_pow10 y st)).
Proof.
  intros Hst.
  destruct (SetInt_pos (pow10 y) (pow10_pos y)) as [mk [ek Hk]].
  unfold FloatToBigIntBaseX.
  destruct (cached_pow10_spec st y Hst) as [Ek Hst'].
  destruct (cached_pow10 y st) as [k st'] eqn:E. cbn [fst snd] in Ek, Hst' |- *. subst k.
  destruct (significant_loss_returns (S754_zero s) 0 (SetInt 0 (pow10 y)) mk ek
              ltac:(discriminate) Hk) as [warn Hw].
  destruct s; cbn [f64_ltb SFltb SFcompare f64_zero SetFloat64 bind Z.eqb prec];
    unfold Mul; cbn [val]; rewrite Hk; cbn [bind Int_into_new Float_Int val fst];
    rewrite Hw; reflexivity.
Qed.

(** Wherever [BigIntBaseX] finds the power of ten in the cache, or does
    not look for it, it returns what [FloatToBigIntBaseX] returns: the
    same integer, the same caches, the same panic for NaN.  On the fast
    path the double product is the 53-bit rounding that the [big.Float]
    product computes, and the guard keeps it below [2^63]. *)
Theorem BigIntBaseX_agrees (st : caches) (y : Z) (f : float64) :
  cache_ok st -> is_float64 f ->
  14 < y \/ pow10Cache st !! y <> None ->
  BigIntBaseX f y st = FloatToBigIntBaseX f y st.
Proof.
  intros Hst Hf Hy. unfold BigIntBaseX.
  destruct (f64_ltb f f64_zero) eqn:Hneg.
  { unfold FloatToBigIntBaseX. now rewrite Hneg. }
  destruct (Z.leb_spec y 14) as [Hy14|Hy14]; [|reflexivity].
  destruct Hy as [Hy|Hy]; [lia|].
  destruct (pow10Cache st !! y) as [k|] eqn:Ek; [|congruence].
  assert (Hk : k = pow10 y) by (now apply Hst). subst k.
  destruct (fast_path_bound y Hy14) as [Hk [HI [mB [eB [EB Hchk]]]]].
  rewrite HI, EB. cbn [bind].
  destruct (f64_ltb f (S754_finite false mB eB)) eqn:Hguard; [|reflexivity].
  destruct (float64_of_Z_small (pow10 y) Hk) as [EK HKv].
  assert (Ehit : snd (cached_pow10 y st) = st)
    by (now rewrite (cached_pow10_hit st y (pow10 y) Ek)).
  destruct f as [s|s| |s m e]; try discriminate.
  - (* zero *)
    rewrite FloatToBigIntBaseX_zero_cached, Ehit by assumption.
    rewrite EK. reflexivity.
  - (* infinity *)
    destruct s; discriminate.
  - destruct s; [discriminate|].
    rewrite FloatToBigIntBaseX_finite_cached, Ehit by assumption.
    rewrite f64_mul_by_integer by assumption.
    unfold truncated_product_53.
    pose proof (is_float64_finite false m e Hf) as [_ [He _]].
    unfold guard_check in Hchk. apply andb_true_iff in Hchk.
    destruct Hchk as [HeB Hb]. apply Z.leb_le in HeB. apply Z.ltb_lt in Hb.
    pose proof (f64_ltb_gap m e mB eB Hf HeB Hguard) as Hgap.
    rewrite int64_of_round_f64; [reflexivity|lia|lia|].
    assert (0 < 2 ^ (e + 1074)) by (apply Z.pow_pos_nonneg; lia).
    assert (0 < 2 ^ (eB + 1074)) by (apply Z.pow_pos_nonneg; lia).
    nia.
Qed.

(** The two paths on the amounts of [TestBigIntBaseX]. *)
Example BigIntBaseX_agrees_example :
  BigIntBaseX f64_1_23456789 14 initial_caches
  = Ret (123456788999999, initial_caches) /\
  FloatToBigIntBaseX f64_1_23456789 14 initial_caches
  = Ret (123456788999999, initial_caches) /\
  is_float64 f64_1_23456789 /\
  pow10Cache initial_caches !! 14 <> None.
Proof. repeat split; try (vm_compute; reflexivity). vm_compute. discriminate. Qed.

(* ================================================================== *)
(** * safemath.go: strings, exact conversions and rates *)

Lemma Int_String_nonempty v : Int_String v <> EmptyString.
Proof.
  unfold Int_String. destruct (v <? 0); [discriminate|].
  apply decimal_of_nonneg_nonempty.
Qed.

(** X1.  [BigIntByString] reads the base-10 numeral of every integer [v]
    back to [v] with no error; it answers the empty string with
    [ErrInvalidString]; and on every string [s] it returns either no
    integer and [ErrInvalidString], or the integer that [SetString] read
    and no error. *)
Theorem BigIntByString_round_trip (v : Z) (s : string) :
  BigIntByString (Int_String v) = (Some v, None) /\
  BigIntByString "" = (None, Some ErrInvalidString) /\
  (BigIntByString s = (None, Some ErrInvalidString) \/
   exists n, BigIntByString s = (Some n, None) /\ SetString s 10 = Some n).
Proof.
  split; [|split].
  - unfold BigIntByString. pose proof (Int_String_nonempty v) as Hne.
    destruct (Int_String v) eqn:E; [congruence|].
    rewrite <- E, SetString_Int_String. reflexivity.
  - reflexivity.
  - unfold BigIntByString. destruct s as [|c s]; [now left|].
    destruct (SetString (String c s) 10) as [n|]; [right; eauto | now left].
Qed.

Lemma SetInt_exact v :
  SetInt 0 v = {| prec := Z.max (bitlen (Z.abs v)) 64;
                  val := dyadic (v <? 0) (Z.abs v) 0 |}.
Proof.
  unfold SetInt, round_val. cbn [Z.eqb].
  rewrite round_even_exact by lia. reflexivity.
Qed.

Lemma Float_Int_dyadic p s m :
  0 <= m ->
  Float_Int {| prec := p; val := dyadic s m 0 |}
  = (Some (if s then - m else m), Exact).
Proof.
  intros Hm. destruct (Z.eq_dec m 0) as [->|Hnz].
  - cbn. now destruct s.
  - destruct (dyadic_positive s m 0 ltac:(lia)) as [q [t [Ht [E Hq]]]].
    unfold Float_Int. cbn [val]. rewrite E.
    unfold trunc_dyadic. replace (0 + t) with t by lia.
    destruct (Z.leb_spec 0 t); [|lia]. now rewrite <- Hq.
Qed.

(** X2.  [BigFloatFromBigInt] converts without rounding: the [big.Float]
    it returns for the integer [v] has precision [max(BitLen(v), 64)] and
    truncates back to [v] with accuracy [Exact]; for nil it returns a zero
    of precision 53. *)
Theorem BigFloatFromBigInt_exact (v : Z) :
  (exists F, BigFloatFromBigInt (Some v) = Ret F /\
             Float_Int F = (Some v, Exact) /\
             prec F = Z.max (bitlen (Z.abs v)) 64) /\
  (exists F, BigFloatFromBigInt None = Ret F /\
             Float_Int F = (Some 0, Exact) /\ prec F = 53).
Proof.
  split.
  - eexists. split; [reflexivity|]. rewrite SetInt_exact. split; [|reflexivity].
    rewrite Float_Int_dyadic by lia.
    destruct (Z.ltb_spec v 0); do 2 f_equal; lia.
  - eexists. split; [reflexivity|]. split; reflexivity.
Qed.

(** X3.  [BigIntDailyAPR] returns the floor of [v / 360] for every
    integer [v], negative ones included (the quotient [q] with
    [360 q <= v < 360 q + 360]), never panics, and returns 0 for nil. *)
Theorem BigIntDailyAPR_floor (v : Z) :
  BigIntDailyAPR None = Ret 0 /\
  exists q, BigIntDailyAPR (Some v) = Ret q /\ 360 * q <= v < 360 * q + 360.
Proof.
  split; [reflexivity|]. exists (v / 360). split; [reflexivity|].
  pose proof (Z.div_mod v 360 ltac:(lia)).
  pose proof (Z.mod_pos_bound v 360 ltac:(lia)). lia.
Qed.

(** X4.  The hour-based rates divide before they multiply.  For a rate
    [v >= 0] and [h >= 0] hours, [BigIntHrAPR] returns [(v / 8640) * h]:
    at most [v * h / 8640], and short of it by less than [h]; 24 hours of
    it are at most the daily rate [BigIntDailyAPR v] and short of it by 23
    at most.  [BigInt4HrAPR] is the case [h = 4].  [BigIntDailyBase]
    returns [(v / 24) * h] with the same loss.  A nil argument gives 0. *)
Theorem APR_divides_before_multiplying (v h : Z) :
  0 <= v -> 0 <= h ->
  exists r r24 d b,
    BigIntHrAPR (Some v) (Some h) = Ret r /\
    r = v / 8640 * h /\
    8640 * r <= v * h /\ v * h - 8640 * r <= 8639 * h /\
    BigInt4HrAPR (Some v) = Ret (v / 8640 * 4) /\
    BigIntHrAPR (Some v) (Some 24) = Ret r24 /\
    BigIntDailyAPR (Some v) = Ret d /\
    r24 <= d <= r24 + 23 /\
    BigIntDailyBase (Some v) (Some h) = Ret b /\
    b = v / 24 * h /\
    24 * b <= v * h /\ v * h - 24 * b <= 23 * h /\
    BigIntHrAPR None (Some h) = Ret 0 /\
    BigIntHrAPR (Some v) None = Ret 0 /\
    BigInt4HrAPR None = Ret 0 /\
    BigIntDailyBase None (Some h) = Ret 0 /\
    BigIntDailyBase (Some v) None = Ret 0.
Proof.
  intros Hv Hh.
  exists (v / 8640 * h), (v / 8640 * 24), (v / 360), (v / 24 * h).
  pose proof (Z.div_mod v 8640 ltac:(lia)) as E1.
  pose proof (Z.mod_pos_bound v 8640 ltac:(lia)) as B1.
  pose proof (Z.div_mod v 360 ltac:(lia)) as E2.
  pose proof (Z.mod_pos_bound v 360 ltac:(lia)) as B2.
  pose proof (Z.div_mod v 24 ltac:(lia)) as E3.
  pose proof (Z.mod_pos_bound v 24 ltac:(lia)) as B3.
  repeat split; try reflexivity; try nia.
Qed.

Lemma APR_divides_before_multiplying_witness :
  0 <= 36000 /\ 0 <= 1 /\
  exists r r24 d b,
    BigIntHrAPR (Some 36000) (Some 1) = Ret r /\
    r = 36000 / 8640 * 1 /\
    8640 * r <= 36000 * 1 /\ 36000 * 1 - 8640 * r <= 8639 * 1 /\
    BigInt4HrAPR (Some 36000) = Ret (36000 / 8640 * 4) /\
    BigIntHrAPR (Some 36000) (Some 24) = Ret r24 /\
    BigIntDailyAPR (Some 36000) = Ret d /\
    r24 <= d <= r24 + 23 /\
    BigIntDailyBase (Some 36000) (Some 1) = Ret b /\
    b = 36000 / 24 * 1 /\
    24 * b <= 36000 * 1 /\ 36000 * 1 - 24 * b <= 23 * 1 /\
    BigIntHrAPR None (Some 1) = Ret 0 /\
    BigIntHrAPR (Some 36000) None = Ret 0 /\
    BigInt4HrAPR None = Ret 0 /\
    BigIntDailyBase None (Some 1) = Ret 0 /\
    BigIntDailyBase (Some 36000) None = Ret 0.
Proof.
  split; [lia|]. split; [lia|].
  apply (APR_divides_before_multiplying 36000 1); lia.
Defined.

(** The rates of the examples in the source: 100% a year is 100 a day,
    and 4 an hour, where the exact hourly rate is 4.17. *)
Example APR_examples :
  BigIntDailyAPR (Some 36000) = Ret 100 /\
  BigIntHrAPR (Some 36000) (Some 1) = Ret 4 /\
  BigInt4HrAPR (Some 36000) = Ret 16 /\
  BigIntHrAPR (Some 8639) (Some 24) = Ret 0 /\
  BigIntDailyAPR (Some 8639) = Ret 23 /\
  BigIntDailyAPR (Some (-1)) = Ret (-1).
Proof. repeat split. Qed.

(* ================================================================== *)
(** * safemath.go: the float-to-integer bridge as a whole *)

Lemma FloatToBigIntBaseX_inf_cached st y :
  cache_ok st ->
  FloatToBigIntBaseX (S754_infinity false) y st
  = Ret (0, snd (cached_pow10 y st)).
Proof.
  intros Hst.
  destruct (SetInt_pos (pow10 y) (pow10_pos y)) as [mk [ek Hk]].
  unfold FloatToBigIntBaseX.
  destruct (cached_pow10_spec st y Hst) as [Ek Hst'].
  destruct (cached_pow10 y st) as [k st'] eqn:E. cbn [fst snd] in Ek, Hst' |- *. subst k.
  destruct (significant_loss_returns (S754_infinity false) 0 (SetInt 0 (pow10 y)) mk ek
              ltac:(discriminate) Hk) as [warn Hw].
  cbn [f64_ltb SFltb SFcompare f64_zero SetFloat64 bind Z.eqb prec];
    unfold Mul; cbn [val]; rewrite Hk; cbn [bind Int_into_new Float_Int val fst];
    rewrite Hw; reflexivity.
Qed.

Lemma truncated_product_53_nonneg m e y : 0 <= truncated_product_53 m e y.
Proof.
  unfold truncated_product_53.
  pose proof (round_even_pos 53 (Zpos m * pow10 y) e false ltac:(lia)) as H.
  pose proof (pow10_pos y).
  destruct (round_even 53 (Z.pos m * pow10 y) e false) as [[m' e'] a].
  cbn [fst] in H. apply trunc_dyadic_nonneg. specialize (H ltac:(lia)). lia.
Qed.

Lemma bridge_value_nonneg f y : 0 <= bridge_value f y.
Proof.
  destruct f as [s|s| |[] m e]; cbn; try lia. apply truncated_product_53_nonneg.
Qed.

Lemma FloatToBigIntBaseX_value st y f :
  cache_ok st -> is_float64 f -> f <> S754_nan ->
  FloatToBigIntBaseX f y st = Ret (bridge_value f y, bridge_caches f y st).
Proof.
  intros Hst Hf Hn. unfold bridge_caches.
  destruct f as [s|s| |s m e]; [| | congruence |].
  - replace (f64_ltb (S754_zero s) f64_zero) with false by (now destruct s).
    now apply FloatToBigIntBaseX_zero_cached.
  - destruct s.
    + reflexivity.
    + now apply FloatToBigIntBaseX_inf_cached.
  - destruct s.
    + reflexivity.
    + now apply FloatToBigIntBaseX_finite_cached.
Qed.

Lemma ProcessFloatToDecimalAdjustment_value y f :
  is_float64 f -> f <> S754_nan ->
  ProcessFloatToDecimalAdjustment y f = Ret (bridge_value f y).
Proof.
  intros Hf Hn.
  destruct f as [s|s| |s m e]; [| | congruence |].
  - destruct s; [|apply (FloatToBigIntBaseX_zero_inf initial_caches y _ initial_caches_ok); auto].
    destruct (SetInt_pos (pow10 y) (pow10_pos y)) as [mk [ek Hk]].
    unfold ProcessFloatToDecimalAdjustment.
    cbn [f64_ltb SFltb SFcompare f64_zero SetFloat64 bind Z.eqb prec].
    unfold Mul; cbn [val]; rewrite Hk; reflexivity.
  - destruct s; [reflexivity|].
    apply (FloatToBigIntBaseX_zero_inf initial_caches y _ initial_caches_ok); auto.
  - destruct s; [reflexivity|].
    now apply ProcessFloatToDecimalAdjustment_finite.
Qed.

Lemma bridge_caches_ok f y st : cache_ok st -> cache_ok (bridge_caches f y st).
Proof.
  intros Hst. unfold bridge_caches. destruct (f64_ltb f f64_zero); [assumption|].
  now apply cached_pow10_spec.
Qed.

(** X5.  NaN is the only double on which the bridge panics.  For every
    other double, in every consistent state of the caches and for every
    exponent, [FloatToBigIntBaseX] and [ProcessFloatToDecimalAdjustment]
    return, they return the same integer, that integer is not negative,
    and the caches stay consistent. *)
Theorem bridge_returns_unless_NaN (st : caches) (y : Z) (f : float64) :
  cache_ok st -> is_float64 f -> f <> S754_nan ->
  exists r st',
    FloatToBigIntBaseX f y st = Ret (r, st') /\
    ProcessFloatToDecimalAdjustment y f = Ret r /\
    0 <= r /\ cache_ok st'.
Proof.
  intros Hst Hf Hn. exists (bridge_value f y), (bridge_caches f y st).
  split; [now apply FloatToBigIntBaseX_value|].
  split; [now apply ProcessFloatToDecimalAdjustment_value|].
  split; [apply bridge_value_nonneg | now apply bridge_caches_ok].
Qed.

Lemma bridge_returns_unless_NaN_witness :
  cache_ok initial_caches /\ is_float64 f64_1_5 /\ f64_1_5 <> S754_nan /\
  exists r st',
    FloatToBigIntBaseX f64_1_5 18 initial_caches = Ret (r, st') /\
    ProcessFloatToDecimalAdjustment 18 f64_1_5 = Ret r /\
    0 <= r /\ cache_ok st'.
Proof.
  split; [exact initial_caches_ok|]. split; [reflexivity|].
  split; [discriminate|].
  apply (bridge_returns_unless_NaN initial_caches 18 f64_1_5);
    [exact initial_caches_ok | reflexivity | discriminate].
Defined.

Lemma cached_pow10_grows y st :
  pow10Cache st ⊆ pow10Cache (snd (cached_pow10 y st)) /\
  pow10FloatCache (snd (cached_pow10 y st)) = pow10FloatCache st.
Proof.
  unfold cached_pow10. destruct (pow10Cache st !! y) eqn:E; cbn.
  - split; reflexivity.
  - split; [|reflexivity]. now apply insert_subseteq.
Qed.

Lemma cached_pow10_present y st :
  cache_ok st -> pow10Cache (snd (cached_pow10 y st)) !! y = Some (pow10 y).
Proof.
  intros [Hi _]. unfold cached_pow10. destruct (pow10Cache st !! y) eqn:E; cbn.
  - rewrite E. f_equal. now apply Hi.
  - apply lookup_insert_eq.
Qed.

Lemma bridge_caches_grows f y st :
  pow10Cache st ⊆ pow10Cache (bridge_caches f y st) /\
  pow10FloatCache (bridge_caches f y st) = pow10FloatCache st.
Proof.
  unfold bridge_caches. destruct (f64_ltb f f64_zero).
  - split; reflexivity.
  - apply cached_pow10_grows.
Qed.

Lemma bridge_caches_idem f y st :
  cache_ok st -> bridge_caches f y (bridge_caches f y st) = bridge_caches f y st.
Proof.
  intros Hst. unfold bridge_caches. destruct (f64_ltb f f64_zero); [reflexivity|].
  rewrite (cached_pow10_hit _ y (pow10 y)); [reflexivity|].
  now apply cached_pow10_present.
Qed.

(** X6.  A call of [FloatToBigIntBaseX] keeps every entry of both caches
    and adds at most the power of ten of its exponent to the integer
    cache; a second call with the same arguments, through
    [FloatToBigIntBaseX] or through [BigIntBaseX], returns the same
    integer and leaves the caches as they are.  In particular
    [BigIntBaseX] no longer finds the entry missing. *)
Theorem bridge_fills_cache (st : caches) (y : Z) (f : float64) :
  cache_ok st -> is_float64 f -> f <> S754_nan ->
  exists r st',
    FloatToBigIntBaseX f y st = Ret (r, st') /\
    pow10Cache st ⊆ pow10Cache st' /\
    pow10FloatCache st' = pow10FloatCache st /\
    FloatToBigIntBaseX f y st' = Ret (r, st') /\
    BigIntBaseX f y st' = Ret (r, st').
Proof.
  intros Hst Hf Hn.
  pose proof (bridge_caches_ok f y st Hst) as Hst'.
  exists (bridge_value f y), (bridge_caches f y st).
  split; [now apply FloatToBigIntBaseX_value|].
  split; [apply bridge_caches_grows|]. split; [apply bridge_caches_grows|].
  assert (E : FloatToBigIntBaseX f y (bridge_caches f y st)
              = Ret (bridge_value f y, bridge_caches f y st)).
  { rewrite FloatToBigIntBaseX_value by assumption.
    now rewrite bridge_caches_idem. }
  split; [exact E|].
  destruct (f64_ltb f f64_zero) eqn:Hneg.
  - unfold BigIntBaseX. rewrite Hneg.
    unfold FloatToBigIntBaseX in E. now rewrite Hneg in E.
  - rewrite BigIntBaseX_agrees; [exact E|assumption|assumption|].
    right. unfold bridge_caches. rewrite Hneg.
    rewrite cached_pow10_present by assumption. discriminate.
Qed.

Lemma bridge_fills_cache_witness :
  cache_ok initial_caches /\ is_float64 f64_1_5 /\ f64_1_5 <> S754_nan /\
  exists r st',
    FloatToBigIntBaseX f64_1_5 6 initial_caches = Ret (r, st') /\
    pow10Cache initial_caches ⊆ pow10Cache st' /\
    pow10FloatCache st' = pow10FloatCache initial_caches /\
    FloatToBigIntBaseX f64_1_5 6 st' = Ret (r, st') /\
    BigIntBaseX f64_1_5 6 st' = Ret (r, st').
Proof.
  split; [exact initial_caches_ok|]. split; [reflexivity|].
  split; [discriminate|].
  apply (bridge_fills_cache initial_caches 6 f64_1_5);
    [exact initial_caches_ok | reflexivity | discriminate].
Defined.

Lemma NaN_or_not (f : float64) : f = S754_nan \/ f <> S754_nan.
Proof. destruct f; [right|right|left|right]; congruence. Qed.

(** With the power of ten of 14 in the cache, as it is from package
    initialisation on, [BigIntBaseX] at exponent 14 returns the value of
    the bridge and leaves the caches alone. *)
Lemma BigIntBaseX_14_cached st f :
  cache_ok st -> is_float64 f -> f <> S754_nan ->
  pow10Cache st !! 14 <> None ->
  BigIntBaseX f 14 st = Ret (bridge_value f 14, st).
Proof.
  intros Hst Hf Hn H14.
  rewrite BigIntBaseX_agrees by auto.
  rewrite FloatToBigIntBaseX_value by assumption. do 2 f_equal.
  unfold bridge_caches. destruct (f64_ltb f f64_zero); [reflexivity|].
  destruct (pow10Cache st !! 14) as [k|] eqn:E; [|congruence].
  now rewrite (cached_pow10_hit st 14 k E).
Qed.

(** X7.  In every consistent state of the caches that holds the power of
    ten of 14 (every state from package initialisation on: entries are
    never removed), [BigIntByFloatBase14] and [BigIntBaseFloatBase18]
    return what [FloatToBigIntBaseX] returns at exponents 14 and 18, so
    they panic on NaN only; [BigIntByFloatBase14] leaves the caches
    unchanged. *)
Theorem fixed_exponent_entry_points (st : caches) (f : float64) :
  cache_ok st -> is_float64 f -> pow10Cache st !! 14 <> None ->
  BigIntByFloatBase14 f st = FloatToBigIntBaseX f 14 st /\
  BigIntBaseFloatBase18 f st = FloatToBigIntBaseX f 18 st /\
  (f = S754_nan \/
   BigIntByFloatBase14 f st = Ret (bridge_value f 14, st) /\
   exists st', BigIntBaseFloatBase18 f st = Ret (bridge_value f 18, st')).
Proof.
  intros Hst Hf H14.
  assert (E14 : BigIntByFloatBase14 f st = FloatToBigIntBaseX f 14 st).
  { unfold BigIntByFloatBase14. apply BigIntBaseX_agrees; auto. }
  assert (E18 : BigIntBaseFloatBase18 f st = FloatToBigIntBaseX f 18 st).
  { unfold BigIntBaseFloatBase18. apply BigIntBaseX_agrees; auto. left; lia. }
  split; [exact E14|]. split; [exact E18|].
  destruct (NaN_or_not f) as [->|Hn]; [now left|right].
  split.
  - unfold BigIntByFloatBase14. now apply BigIntBaseX_14_cached.
  - rewrite E18, FloatToBigIntBaseX_value by assumption. eauto.
Qed.

Lemma fixed_exponent_entry_points_witness :
  cache_ok initial_caches /\ is_float64 f64_1_5 /\
  pow10Cache initial_caches !! 14 <> None /\
  BigIntByFloatBase14 f64_1_5 initial_caches
  = FloatToBigIntBaseX f64_1_5 14 initial_caches /\
  BigIntBaseFloatBase18 f64_1_5 initial_caches
  = FloatToBigIntBaseX f64_1_5 18 initial_caches /\
  (f64_1_5 = S754_nan \/
   BigIntByFloatBase14 f64_1_5 initial_caches
   = Ret (bridge_value f64_1_5 14, initial_caches) /\
   exists st', BigIntBaseFloatBase18 f64_1_5 initial_caches
               = Ret (bridge_value f64_1_5 18, st')).
Proof.
  split; [exact initial_caches_ok|]. split; [reflexivity|].
  split; [vm_compute; discriminate|].
  apply (fixed_exponent_entry_points initial_caches f64_1_5);
    [exact initial_caches_ok | reflexivity | vm_compute; discriminate].
Defined.

Lemma Div_new_100 x :
  exists q, Div_new x 100 = Ret q /\ 100 * q <= x < 100 * q + 100.
Proof.
  exists (x / 100). split; [reflexivity|].
  pose proof (Z.div_mod x 100 ltac:(lia)).
  pose proof (Z.mod_pos_bound x 100 ltac:(lia)). lia.
Qed.

(** X8.  The percent variants return the floor of a hundredth of what
    the conversion returns, never a negative number, and never panic on a
    double that is not NaN: [FloatToBigIntBaseXPercent] for every
    exponent, [BigIntBase14Percent] wherever the power of ten of 14 is in
    the cache. *)
Theorem Percent_floor (st : caches) (y : Z) (f : float64) :
  cache_ok st -> is_float64 f -> f <> S754_nan ->
  pow10Cache st !! 14 <> None ->
  (exists full q st',
     FloatToBigIntBaseX f y st = Ret (full, st') /\
     FloatToBigIntBaseXPercent f y st = Ret (q, st') /\
     0 <= q /\ 100 * q <= full < 100 * q + 100) /\
  (exists full q,
     BigIntBaseX f 14 st = Ret (full, st) /\
     BigIntBase14Percent f st = Ret (q, st) /\
     0 <= q /\ 100 * q <= full < 100 * q + 100).
Proof.
  intros Hst Hf Hn H14. split.
  - destruct (Div_new_100 (bridge_value f y)) as [q [Hq Hb]].
    exists (bridge_value f y), q, (bridge_caches f y st).
    split; [now apply FloatToBigIntBaseX_value|].
    unfold FloatToBigIntBaseXPercent.
    rewrite FloatToBigIntBaseX_value by assumption. cbn [bind fst snd].
    rewrite Hq. cbn [bind]. split; [reflexivity|].
    pose proof (bridge_value_nonneg f y). lia.
  - pose proof (BigIntBaseX_14_cached st f Hst Hf Hn H14) as E.
    destruct (Div_new_100 (bridge_value f 14)) as [q [Hq Hb]].
    exists (bridge_value f 14), q. split; [exact E|].
    unfold BigIntBase14Percent. rewrite E. cbn [bind fst snd].
    rewrite Hq. cbn [bind]. split; [reflexivity|].
    pose proof (bridge_value_nonneg f 14). lia.
Qed.

Lemma Percent_floor_witness :
  cache_ok initial_caches /\ is_float64 f64_1_5 /\ f64_1_5 <> S754_nan /\
  pow10Cache initial_caches !! 14 <> None /\
  (exists full q st',
     FloatToBigIntBaseX f64_1_5 18 initial_caches = Ret (full, st') /\
     FloatToBigIntBaseXPercent f64_1_5 18 initial_caches = Ret (q, st') /\
     0 <= q /\ 100 * q <= full < 100 * q + 100) /\
  (exists full q,
     BigIntBaseX f64_1_5 14 initial_caches = Ret (full, initial_caches) /\
     BigIntBase14Percent f64_1_5 initial_caches = Ret (q, initial_caches) /\
     0 <= q /\ 100 * q <= full < 100 * q + 100).
Proof.
  split; [exact initial_caches_ok|]. split; [reflexivity|].
  split; [discriminate|]. split; [vm_compute; discriminate|].
  apply (Percent_floor initial_caches 18 f64_1_5);
    [exact initial_caches_ok | reflexivity | discriminate
    | vm_compute; discriminate].
Defined.

(** X9.  Wherever the power of ten of 14 is in the cache, [UnBase14]
    undoes a scaling by [10^14] and drops what is below one unit:
    [n * 10^14 + r] with [0 <= r < 10^14] comes back as [n], and the
    caches are unchanged; a negative integer and nil come back as 0. *)
Theorem UnBase14_inverts (st : caches) (n r : Z) :
  cache_ok st -> pow10Cache st !! 14 <> None ->
  0 <= n -> 0 <= r < 10 ^ 14 ->
  UnBase14 (Some (n * 10 ^ 14 + r)) st = Ret (n, st) /\
  UnBase14 (Some (- n - 1)) st = Ret (0, st) /\
  UnBase14 None st = Ret (0, st).
Proof.
  intros Hst H14 Hn Hr. split; [|split].
  - unfold UnBase14, UnBaseX.
    destruct (Z.ltb_spec (n * 10 ^ 14 + r) 0); [lia|].
    destruct (pow10Cache st !! 14) as [k|] eqn:E; [|congruence].
    rewrite (cached_pow10_hit st 14 k E).
    assert (k = pow10 14) by (now apply Hst). subst k.
    change (pow10 14) with (10 ^ 14). unfold Int_Div.
    destruct (Z.eqb_spec (10 ^ 14) 0); [lia|].
    destruct (Z.ltb_spec 0 (10 ^ 14)); [|lia].
    do 2 f_equal. rewrite Z.add_comm, Z.div_add by lia.
    rewrite Z.div_small by lia. lia.
  - unfold UnBase14, UnBaseX. destruct (Z.ltb_spec (- n - 1) 0); [reflexivity|lia].
  - reflexivity.
Qed.

Lemma UnBase14_inverts_witness :
  cache_ok initial_caches /\ pow10Cache initial_caches !! 14 <> None /\
  0 <= 1 /\ 0 <= 50000000000000 < 10 ^ 14 /\
  UnBase14 (Some (1 * 10 ^ 14 + 50000000000000)) initial_caches
  = Ret (1, initial_caches) /\
  UnBase14 (Some (- 1 - 1)) initial_caches = Ret (0, initial_caches) /\
  UnBase14 None initial_caches = Ret (0, initial_caches).
Proof.
  split; [exact initial_caches_ok|]. split; [vm_compute; discriminate|].
  split; [lia|]. split; [lia|].
  apply (UnBase14_inverts initial_caches 1 50000000000000);
    [exact initial_caches_ok | vm_compute; discriminate | lia | lia].
Defined.

(* ================================================================== *)
(** * Amounts that convert exactly *)

Lemma dyadic_scale s m e t :
  0 < m -> 0 <= t -> dyadic s (m * 2 ^ t) e = dyadic s m (e + t).
Proof.
  intros Hm Ht. revert e. pattern t. apply natlike_ind; [| |assumption].
  - intros e. now rewrite Z.pow_0_r, Z.mul_1_r, Z.add_0_r.
  - intros u Hu IH e. rewrite Z.pow_succ_r by assumption.
    replace (m * (2 * 2 ^ u)) with (2 * (m * 2 ^ u)) by ring.
    assert (Hpos : 0 < m * 2 ^ u) by (apply Z.mul_pos_pos; [lia|apply Z.pow_pos_nonneg; lia]).
    destruct (m * 2 ^ u) as [|q|q] eqn:E; try lia.
    change (2 * Zpos q) with (Zpos (xO q)). cbn [dyadic odd_part].
    specialize (IH (e + 1)). cbn [dyadic] in IH.
    rewrite IH. f_equal. lia.
Qed.

Lemma is_float64_canonical s m e :
  is_float64 (S754_finite s m e) ->
  e = Z.max (bitlen (Zpos m) + e - 53) (-1074) /\ e <= 971.
Proof.
  unfold is_float64, valid_binary, bounded, canonical_mantissa, fexp, emin.
  rewrite digits2_pos_bitlen. intros H.
  apply andb_true_iff in H. destruct H as [H1 H2].
  apply Z.eqb_eq in H1. apply Z.leb_le in H2. lia.
Qed.

(** Narrowing a value that is a double gives that double, exactly. *)
Lemma round_f64_valid s m e :
  is_float64 (S754_finite s m e) ->
  round_f64 s (Zpos m) e = (S754_finite s m e, Exact).
Proof.
  intros Hf. destruct (is_float64_canonical s m e Hf) as [Hc He].
  pose proof (bitlen_positive (Zpos m) ltac:(lia)) as Hb.
  unfold round_f64.
  set (ex := bitlen (Zpos m) + e - 1).
  set (p := if ex <? -1022 then 53 + 1022 + ex else 53).
  assert (Hp : 0 < p /\ bitlen (Zpos m) <= p).
  { unfold p, ex. destruct (Z.ltb_spec (bitlen (Zpos m) + e - 1) (-1022)); lia. }
  destruct (Z.ltb_spec p 0); [lia|]. destruct (Z.eqb_spec p 0); [lia|].
  cbn [orb andb]. rewrite round_even_exact by lia.
  destruct (Z.ltb_spec 1023 (bitlen (Zpos m) + e - 1)); [lia|].
  rewrite f64_pack_canonical by (try assumption; lia).
  cbn [Z.to_pos]. now destruct s.
Qed.

Lemma Float64_dyadic p c E :
  0 < c -> Float64 {| prec := p; val := dyadic false c E |} = round_f64 false c E.
Proof.
  intros Hc. destruct (dyadic_positive false c E Hc) as [q [t [Ht [Ed Hq]]]].
  unfold Float64. cbn [val]. rewrite Ed, Hq.
  now rewrite round_f64_scale by lia.
Qed.

Lemma uquo_exact p s mx ex my ey c ux uy :
  0 < p -> 0 < c -> 0 < mx -> 0 < my -> 0 <= ux -> 0 <= uy ->
  mx * 2 ^ ux = c * my * 2 ^ uy -> bitlen c <= p ->
  uquo p s mx ex my ey = dyadic s c (ex - ey + uy - ux).
Proof.
  intros Hp Hc Hmx Hmy Hux Huy Heq Hbc. unfold uquo.
  set (k := p + 1 + bitlen my).
  pose proof (bitlen_positive my Hmy) as Hbmy.
  pose proof (bitlen_bounds c Hc) as [_ Hcu].
  pose proof (bitlen_bounds my Hmy) as [_ Hmu].
  pose proof (bitlen_positive c Hc) as Hbc0.
  assert (H2ux : 0 < 2 ^ ux) by (apply Z.pow_pos_nonneg; lia).
  assert (H2uy : 0 < 2 ^ uy) by (apply Z.pow_pos_nonneg; lia).
  assert (HK : 0 <= k + uy - ux).
  { destruct (Z.le_gt_cases 0 (k + uy - ux)) as [|Hgt]; [assumption|exfalso].
    assert (E : mx * 2 ^ (ux - uy) = c * my).
    { replace ux with ((ux - uy) + uy) in Heq at 1 by lia.
      rewrite Z.pow_add_r in Heq by lia. nia. }
    assert (2 ^ k <= 2 ^ (ux - uy)) by (apply Z.pow_le_mono_r; lia).
    assert (c * my < 2 ^ (bitlen c + bitlen my)).
    { rewrite Z.pow_add_r by lia. nia. }
    assert (2 ^ (bitlen c + bitlen my) <= 2 ^ k) by (apply Z.pow_le_mono_r; lia).
    nia. }
  set (K := k + uy - ux) in *.
  assert (H2K : 0 < 2 ^ K) by (apply Z.pow_pos_nonneg; lia).
  assert (Hk0 : 0 <= k) by (unfold k; lia).
  assert (E : mx * 2 ^ k = c * 2 ^ K * my).
  { assert (E1 : mx * 2 ^ k * 2 ^ ux = c * 2 ^ K * my * 2 ^ ux).
    { replace (mx * 2 ^ k * 2 ^ ux) with (mx * 2 ^ ux * 2 ^ k) by ring.
      rewrite Heq.
      replace (c * 2 ^ K * my * 2 ^ ux) with (c * my * (2 ^ K * 2 ^ ux)) by ring.
      rewrite <- Z.pow_add_r by lia. replace (K + ux) with (uy + k) by (unfold K; lia).
      rewrite Z.pow_add_r by lia. ring. }
    nia. }
  rewrite E, Z.div_mul, Z.mod_mul by lia. cbn [Z.eqb negb].
  unfold round_val.
  destruct (round_even_scale p c (ex - ey - k) K Hp Hc HK) as [u [Hu [Em [Ee Ea]]]].
  rewrite (round_even_exact p c (ex - ey - k + K) Hbc) in Em, Ee, Ea. cbn [fst snd] in Em, Ee, Ea.
  destruct (round_even p (c * 2 ^ K) (ex - ey - k) false) as [[m1 e1] a1].
  cbn [fst snd] in Em, Ee, Ea |- *. subst m1.
  rewrite dyadic_scale by lia. f_equal. unfold K in Ee. lia.
Qed.

Lemma Quo_exact w kk D m e :
  0 < w -> 0 < kk -> val D = dyadic false kk 0 -> 0 <= prec D ->
  is_float64 (S754_finite false m e) ->
  w * 2 ^ Z.max 0 (- e) = Zpos m * 2 ^ Z.max 0 e * kk ->
  exists F, Quo 0 (SetInt 0 w) D = Ret F /\
            Float64 F = (S754_finite false m e, Exact).
Proof.
  intros Hw Hk HD HpD Hf Heq.
  destruct (is_float64_finite _ _ _ Hf) as [Hbm _].
  rewrite (SetInt_positive w Hw).
  destruct (dyadic_positive false w 0 Hw) as [mw [tw [Htw [Ew Hwv]]]].
  destruct (dyadic_positive false kk 0 Hk) as [mk [tk [Htk [Ek Hkv]]]].
  unfold Quo, op_prec. cbn [Z.eqb prec val]. rewrite HD, Ew, Ek. cbn [fsign xorb].
  eexists. split; [reflexivity|].
  set (p := Z.max (Z.max (bitlen w) 64) (prec D)).
  rewrite (uquo_exact p false (Zpos mw) (0 + tw) (Zpos mk) (0 + tk) (Zpos m)
             (tw + Z.max 0 (- e)) (tk + Z.max 0 e)); try lia.
  - replace (0 + tw - (0 + tk) + (tk + Z.max 0 e) - (tw + Z.max 0 (- e))) with e by lia.
    rewrite Float64_dyadic by lia. now apply round_f64_valid.
  - rewrite !Z.pow_add_r by lia. subst w kk. 
    replace (Z.pos mw * (2 ^ tw * 2 ^ Z.max 0 (- e)))
      with (Z.pos mw * 2 ^ tw * 2 ^ Z.max 0 (- e)) by ring.
    rewrite Heq. ring.
Qed.

Lemma is_ratio_cases x w k :
  0 < k -> is_ratio x w k = true ->
  (x = S754_zero false /\ w = 0) \/
  (exists m e, x = S754_finite false m e /\ 0 < w /\
               w * 2 ^ Z.max 0 (- e) = Zpos m * 2 ^ Z.max 0 e * k).
Proof.
  intros Hk H. destruct x as [[]|[]| |[] m e]; cbn in H; try discriminate.
  - left. split; [reflexivity|]. now apply Z.eqb_eq.
  - right. exists m, e. split; [reflexivity|]. apply Z.eqb_eq in H.
    split; [|exact H].
    assert (0 < 2 ^ Z.max 0 (- e)) by (apply Z.pow_pos_nonneg; lia).
    assert (0 < 2 ^ Z.max 0 e) by (apply Z.pow_pos_nonneg; lia).
    assert (0 < Z.pos m * 2 ^ Z.max 0 e * k) by (repeat apply Z.mul_pos_pos; lia).
    nia.
Qed.

Lemma BigInt2BigFloat_exact st w d x :
  cache_ok st -> is_float64 x -> is_ratio x w (pow10 d) = true ->
  exists q,
    BigInt2BigFloat (Some w) d st = Ret (q, snd (cached_pow10Float d st)) /\
    Float64 q = (x, Exact).
Proof.
  intros Hst Hf Hr. unfold BigInt2BigFloat.
  destruct (cached_pow10Float_spec st d Hst) as [Hd Hst'].
  destruct (cached_pow10Float d st) as [dv st'] eqn:E. cbn [fst snd] in Hd, Hst' |- *.
  subst dv. pose proof (pow10_pos d) as Hk.
  destruct (is_ratio_cases x w (pow10 d) Hk Hr) as [[-> ->]|[m [e [-> [Hw Heq]]]]].
  - destruct (SetInt_pos (pow10 d) Hk) as [mk [ek Ek]].
    unfold Quo. rewrite Ek. cbn. eexists. split; reflexivity.
  - destruct (Quo_exact w (pow10 d) (SetInt 0 (pow10 d)) m e Hw Hk) as [F [HF HF64]];
      try assumption.
    + now rewrite SetInt_positive.
    + rewrite SetInt_positive by assumption. cbn. lia.
    + rewrite HF. cbn [bind]. eauto.
Qed.

Lemma BigInt2Float_of_ratio st w d x :
  cache_ok st -> is_float64 x -> is_ratio x w (pow10 d) = true ->
  BigInt2Float (Some w) d st = Ret (x, None, snd (cached_pow10Float d st)).
Proof.
  intros Hst Hf Hr.
  destruct (BigInt2BigFloat_exact st w d x Hst Hf Hr) as [q [Hq H64]].
  unfold BigInt2Float.
  assert (Hw : 0 <= w).
  { destruct (is_ratio_cases x w (pow10 d) (pow10_pos d) Hr)
      as [[_ ->]|[m [e [_ [H _]]]]]; lia. }
  destruct (Z.ltb_spec w 0); [lia|].
  rewrite Hq. cbn [bind fst snd]. rewrite H64. reflexivity.
Qed.

(** X10.  [BigInt2Float] returns a quotient that is a double as that
    double, with no error: if [w / 10^d] is exactly the double [x], then
    [BigInt2Float(w, d)] is [(x, nil)], in every consistent state of the
    caches.  The precision-loss error is never raised for an amount that
    needs no rounding. *)
Theorem BigInt2Float_exact (st : caches) (w d : Z) (x : float64) :
  cache_ok st -> 0 <= d -> is_float64 x -> is_ratio x w (10 ^ d) = true ->
  exists st', BigInt2Float (Some w) d st = Ret (x, None, st') /\ cache_ok st'.
Proof.
  intros Hst Hd Hf Hr. rewrite <- (pow10_nonneg d Hd) in Hr.
  exists (snd (cached_pow10Float d st)).
  split; [now apply BigInt2Float_of_ratio | now apply cached_pow10Float_spec].
Qed.

Lemma BigInt2Float_exact_witness :
  cache_ok initial_caches /\ 0 <= 6 /\ is_float64 f64_1_5 /\
  is_ratio f64_1_5 1500000 (10 ^ 6) = true /\
  exists st', BigInt2Float (Some 1500000) 6 initial_caches
              = Ret (f64_1_5, None, st') /\ cache_ok st'.
Proof.
  split; [exact initial_caches_ok|]. split; [lia|].
  split; [reflexivity|]. split; [vm_compute; reflexivity|].
  apply (BigInt2Float_exact initial_caches 1500000 6 f64_1_5);
    [exact initial_caches_ok | lia | reflexivity | vm_compute; reflexivity].
Defined.

Lemma round53_trunc_exact M e c t :
  0 < M -> 0 < c -> bitlen c <= 53 -> 0 <= t ->
  c * 2 ^ t * 2 ^ Z.max 0 (- e) = M * 2 ^ Z.max 0 e ->
  (let '(m', e', _) := round_even 53 M e false in trunc_dyadic m' e') = c * 2 ^ t.
Proof.
  intros HM Hc Hbc Ht Heq.
  assert (H2t : 0 < 2 ^ t) by (apply Z.pow_pos_nonneg; lia).
  destruct (Z.le_gt_cases 0 (t - e)) as [Hte|Hte].
  - assert (EM : M = c * 2 ^ (t - e)).
    { destruct (Z.le_gt_cases 0 e) as [He|He].
      - rewrite Z.max_l, Z.max_r, Z.pow_0_r, Z.mul_1_r in Heq by lia.
        replace t with ((t - e) + e) in Heq by lia.
        rewrite Z.pow_add_r in Heq by lia.
        assert (0 < 2 ^ e) by (apply Z.pow_pos_nonneg; lia). nia.
      - rewrite Z.max_r, Z.max_l, Z.pow_0_r, Z.mul_1_r in Heq by lia.
        rewrite <- Heq. replace (t - e) with (t + - e) by lia.
        rewrite Z.pow_add_r by lia. ring. }
    destruct (round_even_scale 53 c e (t - e) ltac:(lia) Hc Hte) as [u [Hu [E1 [E2 _]]]].
    rewrite <- EM in E1, E2.
    rewrite (round_even_exact 53 c (e + (t - e)) Hbc) in E1, E2. cbn [fst snd] in E1, E2.
    destruct (round_even 53 M e false) as [[m1 e1] a1]. cbn [fst snd] in E1, E2.
    subst m1. rewrite trunc_dyadic_scale by lia.
    replace (e1 + u) with t by lia. unfold trunc_dyadic.
    destruct (Z.leb_spec 0 t); [reflexivity|lia].
  - assert (He : 0 < e) by lia.
    rewrite Z.max_l, Z.max_r, Z.pow_0_r, Z.mul_1_r in Heq by lia.
    assert (Ec : c = M * 2 ^ (e - t)).
    { replace e with ((e - t) + t) in Heq at 1 by lia.
      rewrite Z.pow_add_r in Heq by lia. nia. }
    assert (Hb : bitlen M <= 53).
    { rewrite Ec, bitlen_scale in Hbc by lia. lia. }
    rewrite round_even_exact by assumption. unfold trunc_dyadic.
    destruct (Z.leb_spec 0 e); [lia|lia].
Qed.

Lemma is_ratio_finite m e w k :
  is_ratio (S754_finite false m e) w k = true ->
  w * 2 ^ Z.max 0 (- e) = Zpos m * 2 ^ Z.max 0 e * k.
Proof. cbn. apply Z.eqb_eq. Qed.

Lemma bitlen_lt_53 c : 0 < c < 2 ^ 53 -> bitlen c <= 53.
Proof. intros H. apply bitlen_lt_pow2; lia. Qed.

Lemma bridge_value_exact x y c t :
  0 < c < 2 ^ 53 -> 0 <= t -> is_ratio x (c * 2 ^ t) (pow10 y) = true ->
  bridge_value x y = c * 2 ^ t.
Proof.
  intros Hc Ht Hr. pose proof (pow10_pos y) as Hk.
  assert (0 < 2 ^ t) by (apply Z.pow_pos_nonneg; lia).
  destruct (is_ratio_cases x _ _ Hk Hr) as [[_ E]|[m [e [-> [Hw Heq]]]]]; [nia|].
  cbn [bridge_value]. unfold truncated_product_53.
  apply round53_trunc_exact;
    first [lia | now apply bitlen_lt_53 | (rewrite Heq; ring)].
Qed.

(** X11.  Where the product needs no rounding, the bridge is exact and
    [BigInt2Float] undoes it.  If [x * 10^y] is an integer of at most 53
    significant bits ([c * 2^t] with [c < 2^53]), then
    [FloatToBigIntBaseX(x, y)] and [ProcessFloatToDecimalAdjustment(y, x)]
    return that integer, and [BigInt2Float] of it at [y] decimals returns
    [x] with no error. *)
Theorem bridge_exact_round_trip (st : caches) (y c t : Z) (x : float64) :
  cache_ok st -> 0 <= y -> is_float64 x -> 0 < c < 2 ^ 53 -> 0 <= t ->
  is_ratio x (c * 2 ^ t) (10 ^ y) = true ->
  exists st' st'',
    FloatToBigIntBaseX x y st = Ret (c * 2 ^ t, st') /\
    ProcessFloatToDecimalAdjustment y x = Ret (c * 2 ^ t) /\
    BigInt2Float (Some (c * 2 ^ t)) y st' = Ret (x, None, st'').
Proof.
  intros Hst Hy Hf Hc Ht Hr.
  assert (Hr' : is_ratio x (c * 2 ^ t) (pow10 y) = true)
    by (now rewrite pow10_nonneg).
  assert (Hn : x <> S754_nan) by (intros ->; discriminate).
  pose proof (bridge_value_exact x y c t Hc Ht Hr') as Ev.
  pose proof (bridge_caches_ok x y st Hst) as Hst'.
  exists (bridge_caches x y st), (snd (cached_pow10Float y (bridge_caches x y st))).
  split; [|split].
  - rewrite FloatToBigIntBaseX_value by assumption. now rewrite Ev.
  - rewrite ProcessFloatToDecimalAdjustment_value by assumption. now rewrite Ev.
  - now apply BigInt2Float_of_ratio.
Qed.

Lemma bridge_exact_round_trip_witness :
  cache_ok initial_caches /\ 0 <= 18 /\ is_float64 f64_1_5 /\
  0 < 11444091796875 < 2 ^ 53 /\ 0 <= 17 /\
  is_ratio f64_1_5 (11444091796875 * 2 ^ 17) (10 ^ 18) = true /\
  exists st' st'',
    FloatToBigIntBaseX f64_1_5 18 initial_caches
    = Ret (11444091796875 * 2 ^ 17, st') /\
    ProcessFloatToDecimalAdjustment 18 f64_1_5 = Ret (11444091796875 * 2 ^ 17) /\
    BigInt2Float (Some (11444091796875 * 2 ^ 17)) 18 st'
    = Ret (f64_1_5, None, st'').
Proof.
  split; [exact initial_caches_ok|]. split; [lia|]. split; [reflexivity|].
  split; [lia|]. split; [lia|]. split; [vm_compute; reflexivity|].
  apply (bridge_exact_round_trip initial_caches 18 11444091796875 17 f64_1_5);
    [exact initial_caches_ok | lia | reflexivity | lia | lia
    | vm_compute; reflexivity].
Defined.

(** One and a half units at scale 18: [1.5 * 10^18 = 3 * 5^18 * 2^17]. *)
Example bridge_exact_example :
  11444091796875 * 2 ^ 17 = 1500000000000000000 /\
  value_of (FloatToBigIntBaseX f64_1_5 18 initial_caches)
  = Ret 1500000000000000000 /\
  value_of (BigInt2Float (Some 1500000000000000000) 18 initial_caches)
  = Ret (f64_1_5, None).
Proof. repeat split; vm_compute; reflexivity. Qed.

Lemma etherDivisor_val : val etherDivisor = dyadic false (10 ^ 18) 0.
Proof. reflexivity. Qed.

Lemma ether_quotient_exact w x :
  is_float64 x -> is_ratio x w (10 ^ 18) = true ->
  exists q, ether_quotient w = Ret q /\ Float64 q = (x, Exact).
Proof.
  intros Hf Hr. unfold ether_quotient.
  destruct (is_ratio_cases x w (10 ^ 18) ltac:(lia) Hr) as [[-> ->]|[m [e [-> [Hw Heq]]]]].
  - eexists. split; reflexivity.
  - apply (Quo_exact w (10 ^ 18) etherDivisor m e); try assumption; try lia.
    + apply etherDivisor_val.
    + cbn. lia.
Qed.

Lemma WeiToEther_of_ratio w x :
  is_float64 x -> is_ratio x w (10 ^ 18) = true ->
  0 <= w /\ WeiToEther (Some w) = Ret (x, None) /\
  exists q, ether_quotient w = Ret q /\ narrow q = (x, None).
Proof.
  intros Hf Hr.
  destruct (ether_quotient_exact w x Hf Hr) as [q [Hq H64]].
  assert (Hw : 0 <= w).
  { destruct (is_ratio_cases x w (10 ^ 18) ltac:(lia) Hr)
      as [[_ ->]|[m [e [_ [H _]]]]]; lia. }
  assert (Hn : narrow q = (x, None)).
  { unfold narrow. now rewrite H64. }
  split; [assumption|]. split; [|eauto].
  rewrite WeiToEther_eq, Hq by assumption. cbn [bind]. now rewrite Hn.
Qed.

(** X12.  If [w / 10^18] is exactly the double [x], [WeiToEther] returns
    [(x, nil)], and [WeiToEtherSafe] returns the same up to its bound
    [2^53 * 10^18] and the too-large error above it. *)
Theorem WeiToEther_exact (w : Z) (x : float64) :
  is_float64 x -> is_ratio x w (10 ^ 18) = true ->
  WeiToEther (Some w) = Ret (x, None) /\
  WeiToEtherSafe (Some w)
  = (if w <=? maxSafeWei then Ret (x, None)
     else Ret (f64_zero, Some err_too_large)).
Proof.
  intros Hf Hr.
  destruct (WeiToEther_of_ratio w x Hf Hr) as [Hw [He [q [Hq Hn]]]].
  split; [exact He|].
  destruct (Z.leb_spec w maxSafeWei) as [Hs|Hs].
  - rewrite WeiToEtherSafe_eq, Hq by lia. cbn [bind]. now rewrite Hn.
  - unfold WeiToEtherSafe. destruct (Z.ltb_spec w 0); [lia|].
    destruct (Z.ltb_spec maxSafeWei w); [reflexivity|lia].
Qed.

Lemma WeiToEther_exact_witness :
  is_float64 f64_1_5 /\
  is_ratio f64_1_5 1500000000000000000 (10 ^ 18) = true /\
  WeiToEther (Some 1500000000000000000) = Ret (f64_1_5, None) /\
  WeiToEtherSafe (Some 1500000000000000000)
  = (if 1500000000000000000 <=? maxSafeWei then Ret (f64_1_5, None)
     else Ret (f64_zero, Some err_too_large)).
Proof.
  split; [reflexivity|]. split; [vm_compute; reflexivity|].
  apply (WeiToEther_exact 1500000000000000000 f64_1_5);
    [reflexivity | vm_compute; reflexivity].
Defined.

Lemma pow2_lt_inv a b : 0 <= b -> 2 ^ a < 2 ^ b -> a < b.
Proof.
  intros Hb H. destruct (Z.lt_ge_cases a b) as [|Hge]; [assumption|exfalso].
  assert (2 ^ b <= 2 ^ a) by (apply Z.pow_le_mono_r; lia). lia.
Qed.

(** Division of two doubles whose quotient is a double gives that
    double. *)
Lemma f64_div_exact m1 e1 m2 e2 m e :
  is_float64 (S754_finite false m1 e1) ->
  is_float64 (S754_finite false m2 e2) ->
  is_float64 (S754_finite false m e) ->
  Zpos m1 * 2 ^ (e1 - Z.min e1 (e + e2))
  = Zpos m * Zpos m2 * 2 ^ (e + e2 - Z.min e1 (e + e2)) ->
  f64_div (S754_finite false m1 e1) (S754_finite false m2 e2)
  = S754_finite false m e.
Proof.
  intros H1 H2 Hx Heq.
  destruct (is_float64_canonical _ _ _ Hx) as [Hc _].
  pose proof (bitlen_bounds (Zpos m1) ltac:(lia)) as [L1 U1].
  pose proof (bitlen_bounds (Zpos m2) ltac:(lia)) as [L2 U2].
  pose proof (bitlen_bounds (Zpos m) ltac:(lia)) as [L U].
  pose proof (bitlen_positive (Zpos m1) ltac:(lia)) as P1.
  pose proof (bitlen_positive (Zpos m2) ltac:(lia)) as P2.
  pose proof (bitlen_positive (Zpos m) ltac:(lia)) as P.
  set (d1 := bitlen (Zpos m1)) in *. set (d2 := bitlen (Zpos m2)) in *.
  set (d := bitlen (Zpos m)) in *.
  set (e0 := Z.min e1 (e + e2)) in *.
  (* size of the quotient *)
  assert (Hsize : d1 + e1 - (d2 + e2) <= d + e).
  { assert (H : 2 ^ (d1 - 1 + (e1 - e0)) < 2 ^ (d + d2 + (e + e2 - e0))).
    { rewrite !Z.pow_add_r by lia.
      assert (0 < 2 ^ (e1 - e0)) by (apply Z.pow_pos_nonneg; lia).
      assert (0 < 2 ^ (e + e2 - e0)) by (apply Z.pow_pos_nonneg; lia).
      assert (Zpos m * Zpos m2 < 2 ^ d * 2 ^ d2) by nia.
      nia. }
    apply pow2_lt_inv in H; lia. }
  unfold f64_div, SFdiv, SFdiv_core_binary.
  rewrite !Zdigits2_bitlen by lia. rewrite fexp64. fold d1 d2.
  set (e' := Z.min (Z.max (d1 + e1 - (d2 + e2) - 53) (-1074)) (e1 - e2)).
  assert (He' : e' <= e /\ e' <= e1 - e2) by (unfold e'; lia).
  set (s := e1 - e2 - e').
  assert (Hs : 0 <= s) by (unfold s; lia).
  set (m' := match s with Z.pos _ => Z.shiftl (Zpos m1) s | 0 => Zpos m1 | Z.neg _ => 0 end).
  assert (Em' : m' = Zpos m1 * 2 ^ s).
  { unfold m'. destruct s as [|p|p] eqn:Es; [now rewrite Z.mul_1_r| |lia].
    rewrite Z.shiftl_mul_pow2 by lia. reflexivity. }
  assert (Eq : m' = Zpos m * 2 ^ (e - e') * Zpos m2).
  { rewrite Em'.
    (* multiply the hypothesis by a suitable power of two *)
    assert (Hk : Zpos m1 * 2 ^ s * 2 ^ (e1 - e0 + (e + e2 - e0))
                 = Zpos m * 2 ^ (e - e') * Zpos m2 * 2 ^ (e1 - e0 + (e + e2 - e0))).
    { replace (Zpos m1 * 2 ^ s * 2 ^ (e1 - e0 + (e + e2 - e0)))
        with (Zpos m1 * 2 ^ (e1 - e0) * 2 ^ (s + (e + e2 - e0)))
        by (rewrite !Z.pow_add_r by lia; ring).
      rewrite Heq.
      replace (e1 - e0 + (e + e2 - e0)) with ((e1 - e0) + (e + e2 - e0)) by lia.
      replace (s + (e + e2 - e0)) with ((e - e') + (e1 - e0)) by (unfold s; lia).
      rewrite !Z.pow_add_r by lia. ring. }
    assert (0 < 2 ^ (e1 - e0 + (e + e2 - e0))) by (apply Z.pow_pos_nonneg; lia).
    nia. }
  assert (H2e : 0 < 2 ^ (e - e')) by (apply Z.pow_pos_nonneg; lia).
  assert (Ediv : Z.div_eucl m' (Zpos m2) = (Zpos m * 2 ^ (e - e'), 0)).
  { pose proof (Z.div_eucl_eq m' (Zpos m2) ltac:(lia)) as Hde.
    pose proof (Z.mod_pos_bound m' (Zpos m2) ltac:(lia)) as Hmb.
    unfold Z.modulo in Hmb.
    destruct (Z.div_eucl m' (Zpos m2)) as [q r]. rewrite Eq in Hde.
    set (K := Zpos m * 2 ^ (e - e')) in *.
    assert (Hr : r = Zpos m2 * (K - q)) by lia.
    assert (K - q = 0).
    { destruct (Z.lt_trichotomy (K - q) 0) as [Hlt|[Hz|Hgt]]; [|assumption|].
      - assert (Zpos m2 * (K - q) <= Zpos m2 * (-1)) by (apply Z.mul_le_mono_nonneg_l; lia).
        lia.
      - assert (Zpos m2 * 1 <= Zpos m2 * (K - q)) by (apply Z.mul_le_mono_nonneg_l; lia).
        lia. }
    assert (Hq : q = K) by lia.
    assert (Hr0 : r = 0) by (rewrite Hr, H; ring).
    now rewrite Hq, Hr0. }
  rewrite Ediv. cbn [xorb].
  replace (new_location (Zpos m2) 0) with loc_Exact
    by (unfold new_location, new_location_even, new_location_odd;
        destruct (Z.even (Zpos m2)); reflexivity).
  rewrite round_f64_binary_round_aux.
  - rewrite round_f64_scale by lia. replace (e' + (e - e')) with e by lia.
    now rewrite round_f64_valid.
  - nia.
  - rewrite bitlen_scale by lia. fold d. lia.
Qed.

(** The double of an integer of at most 53 significant bits is that
    integer. *)
Lemma float64_of_Z_representable c t :
  0 < c < 2 ^ 53 -> 0 <= t -> bitlen c + t <= 1024 ->
  float64_of_Z (c * 2 ^ t)
  = S754_finite false (Z.to_pos (c * 2 ^ (53 - bitlen c))) (bitlen c + t - 53) /\
  is_float64 (float64_of_Z (c * 2 ^ t)).
Proof.
  intros Hc Ht Hsz. pose proof (bitlen_positive c ltac:(lia)) as Hd.
  pose proof (bitlen_lt_53 c Hc) as Hb.
  assert (H2t : 0 < 2 ^ t) by (apply Z.pow_pos_nonneg; lia).
  assert (E : float64_of_Z (c * 2 ^ t)
              = S754_finite false (Z.to_pos (c * 2 ^ (53 - bitlen c))) (bitlen c + t - 53)).
  { unfold float64_of_Z, binary_normalize.
    destruct (c * 2 ^ t) as [|p|p] eqn:Ep; try nia.
    rewrite <- round_f64_binary_round, <- Ep.
    rewrite round_f64_scale by lia. unfold round_f64.
    destruct (Z.ltb_spec (bitlen c + (0 + t) - 1) (-1022)); [lia|].
    cbn [Z.ltb Z.eqb orb andb Z.compare].
    rewrite round_even_exact by lia.
    destruct (Z.ltb_spec 1023 (bitlen c + (0 + t) - 1)); [lia|]. cbn [fst].
    destruct (f64_pack_fits false c (0 + t) ltac:(lia) Hb ltac:(lia)) as [-> _].
    replace (Z.max (bitlen c + (0 + t) - 53) (-1074)) with (bitlen c + t - 53) by lia.
    replace (0 + t - (bitlen c + t - 53)) with (53 - bitlen c) by lia.
    reflexivity. }
  split; [exact E|]. rewrite E.
  unfold is_float64, valid_binary, bounded, canonical_mantissa.
  rewrite fexp64, digits2_pos_bitlen.
  assert (H2 : 0 < 2 ^ (53 - bitlen c)) by (apply Z.pow_pos_nonneg; lia).
  rewrite Z2Pos.id by nia. rewrite bitlen_scale by lia.
  apply andb_true_iff. split; [apply Z.eqb_eq|apply Z.leb_le]; lia.
Qed.

Lemma pow2_rebase X Y p q u v :
  0 <= p -> 0 <= q -> 0 <= u -> 0 <= v ->
  X * 2 ^ p = Y * 2 ^ q -> p + v = q + u -> X * 2 ^ u = Y * 2 ^ v.
Proof.
  intros Hp Hq Hu Hv Heq Hs.
  assert (H2p : 0 < 2 ^ p) by (apply Z.pow_pos_nonneg; lia).
  assert (E : X * 2 ^ u * 2 ^ p = Y * 2 ^ v * 2 ^ p).
  { replace (X * 2 ^ u * 2 ^ p) with (X * 2 ^ p * 2 ^ u) by ring.
    rewrite Heq. replace (Y * 2 ^ q * 2 ^ u) with (Y * (2 ^ q * 2 ^ u)) by ring.
    replace (Y * 2 ^ v * 2 ^ p) with (Y * (2 ^ p * 2 ^ v)) by ring.
    rewrite <- !Z.pow_add_r by lia. now rewrite Hs. }
  apply Z.mul_reg_r in E; lia.
Qed.

(** A double that is [w / 10^18] for a positive integer [w] is at least
    [2^-18]: [5^18] divides [w]. *)
Lemma ratio_1e18_not_tiny m e w :
  is_float64 (S754_finite false m e) -> 0 < w ->
  w * 2 ^ Z.max 0 (- e) = Zpos m * 2 ^ Z.max 0 e * 10 ^ 18 ->
  -71 < e.
Proof.
  intros Hf Hw Heq. destruct (is_float64_finite _ _ _ Hf) as [Hb _].
  pose proof (bitlen_bounds (Zpos m) ltac:(lia)) as [_ Hu].
  destruct (Z.lt_ge_cases (-71) e) as [|He]; [assumption|exfalso].
  rewrite Z.max_r, Z.max_l, Z.pow_0_r, Z.mul_1_r in Heq by lia.
  assert (Hdiv : (5 ^ 18 | w)).
  { apply (Z.gauss (5 ^ 18) (2 ^ (- e)) w).
    - rewrite Z.mul_comm, Heq. exists (Zpos m * 2 ^ 18).
      change (10 ^ 18) with (2 ^ 18 * 5 ^ 18). ring.
    - apply Z.coprime_pow_l; [lia|]. apply Z.coprime_pow_r; [lia|]. reflexivity. }
  destruct Hdiv as [k Hk].
  assert (0 < k) by nia.
  assert (5 ^ 18 <= w) by nia.
  assert (2 ^ 71 <= 2 ^ (- e)) by (apply Z.pow_le_mono_r; lia).
  assert (Zpos m < 2 ^ 53).
  { assert (2 ^ bitlen (Zpos m) <= 2 ^ 53) by (apply Z.pow_le_mono_r; lia). lia. }
  change (10 ^ 18) with (2 ^ 18 * 5 ^ 18) in Heq.
  change (2 ^ 71) with (2 ^ 53 * 2 ^ 18) in *.
  assert (0 < 2 ^ 18) by lia. assert (0 < 5 ^ 18) by lia.
  set (A := 2 ^ (- e)) in *. set (P18 := 2 ^ 18) in *. set (F := 5 ^ 18) in *.
  set (B := 2 ^ 53) in *. clearbody A P18 F B.
  assert (F * A <= w * A) by (apply Z.mul_le_mono_nonneg_r; lia).
  assert (Zpos m * P18 < B * P18) by (apply Z.mul_lt_mono_pos_r; lia).
  assert (Zpos m * (P18 * F) < A * F).
  { replace (Zpos m * (P18 * F)) with (Zpos m * P18 * F) by ring.
    apply Z.mul_lt_mono_pos_r; lia. }
  lia.
Qed.

Lemma fast_quotient_exact c t x :
  is_float64 x -> 0 < c < 2 ^ 53 -> 0 <= t -> c * 2 ^ t <= MaxInt64 ->
  is_ratio x (c * 2 ^ t) (10 ^ 18) = true ->
  fast_quotient (c * 2 ^ t) = x /\
  f64_eqb x f64_zero = false /\ f64_ltb x f64_1em17 = false.
Proof.
  intros Hf Hc Ht Hmax Hr.
  assert (H2t : 0 < 2 ^ t) by (apply Z.pow_pos_nonneg; lia).
  destruct (is_ratio_cases x (c * 2 ^ t) (10 ^ 18) ltac:(lia) Hr)
    as [[_ E]|[m [e [-> [Hw Heq]]]]]; [nia|].
  pose proof (ratio_1e18_not_tiny m e _ Hf Hw Heq) as He.
  pose proof (bitlen_positive c ltac:(lia)) as Hd.
  pose proof (bitlen_lt_53 c Hc) as Hb.
  assert (Hsz : bitlen c + t <= 64).
  { rewrite <- bitlen_scale by lia. apply bitlen_lt_pow2; [lia|lia|].
    unfold MaxInt64 in Hmax. lia. }
  destruct (float64_of_Z_representable c t Hc Ht ltac:(lia)) as [Ew Hv].
  split; [|split].
  - unfold fast_quotient. rewrite Ew in Hv |- *.
    change f64_1e18 with (S754_finite false 7812500000000000 7).
    apply f64_div_exact; [assumption|reflexivity|assumption|].
    assert (H2 : 0 < 2 ^ (53 - bitlen c)) by (apply Z.pow_pos_nonneg; lia).
    rewrite Z2Pos.id by nia.
    set (e0 := Z.min (bitlen c + t - 53) (e + 7)).
    replace (c * 2 ^ (53 - bitlen c) * 2 ^ (bitlen c + t - 53 - e0))
      with (c * 2 ^ (t - e0))
      by (rewrite <- Z.mul_assoc, <- Z.pow_add_r by lia; f_equal; f_equal; lia).
    apply (pow2_rebase c (Zpos m * 7812500000000000)
             (t + Z.max 0 (- e)) (Z.max 0 e + 7)); try lia.
    rewrite !Z.pow_add_r by lia. rewrite Z.mul_assoc, Heq.
    change (10 ^ 18) with (7812500000000000 * 2 ^ 7). ring.
  - reflexivity.
  - unfold f64_ltb, SFltb, f64_1em17, SFcompare.
    rewrite (proj2 (Z.compare_gt_iff e (-109))) by lia. reflexivity.
Qed.

(** X13.  [WeiToEtherOptimized] agrees with [WeiToEther] on the amounts
    that convert exactly.  If [w] has at most 53 significant bits
    ([w = c * 2^t] with [c < 2^53]) and [w / 10^18] is exactly the double
    [x], then on either path [WeiToEtherOptimized] returns [(x, nil)]: on
    the fast path the hardware quotient is [x], and the threshold of
    [1e-17] does not reject it, because such a quotient is at least
    [2^-18]. *)
Theorem WeiToEtherOptimized_exact (c t : Z) (x : float64) :
  is_float64 x -> 0 < c < 2 ^ 53 -> 0 <= t ->
  is_ratio x (c * 2 ^ t) (10 ^ 18) = true ->
  WeiToEtherOptimized (Some (c * 2 ^ t)) = Ret (x, None) /\
  WeiToEther (Some (c * 2 ^ t)) = Ret (x, None).
Proof.
  intros Hf Hc Ht Hr.
  destruct (WeiToEther_of_ratio (c * 2 ^ t) x Hf Hr) as [Hw [He [q [Hq Hn]]]].
  split; [|exact He].
  destruct (Z.le_gt_cases (c * 2 ^ t) MaxInt64) as [Hfast|Hslow].
  - destruct (fast_quotient_exact c t x Hf Hc Ht Hfast Hr) as [Eq [Ez El]].
    rewrite WeiToEtherOptimized_fast by lia.
    now rewrite Eq, Ez, El.
  - rewrite WeiToEtherOptimized_slow, Hq by assumption. cbn [bind].
    now rewrite Hn.
Qed.

Lemma WeiToEtherOptimized_exact_witness :
  is_float64 f64_1_5 /\ 0 < 11444091796875 < 2 ^ 53 /\ 0 <= 17 /\
  is_ratio f64_1_5 (11444091796875 * 2 ^ 17) (10 ^ 18) = true /\
  WeiToEtherOptimized (Some (11444091796875 * 2 ^ 17)) = Ret (f64_1_5, None) /\
  WeiToEther (Some (11444091796875 * 2 ^ 17)) = Ret (f64_1_5, None).
Proof.
  split; [reflexivity|]. split; [lia|]. split; [lia|].
  split; [vm_compute; reflexivity|].
  apply (WeiToEtherOptimized_exact 11444091796875 17 f64_1_5);
    [reflexivity | lia | lia | vm_compute; reflexivity].
Defined.

(* ================================================================== *)
(** * number.go: EtherToWei *)

Lemma Mul_dyadic zp b D m e k :
  val b = dyadic false (Zpos m) e -> val D = dyadic false k 0 -> 0 < k ->
  op_prec zp b D = 53 ->
  Mul zp b D = Ret {| prec := 53; val := product_53 m e k |}.
Proof.
  intros Hb HD Hk Hp.
  destruct (dyadic_positive false (Zpos m) e ltac:(lia)) as [m0 [a [Ha [Em Hm0]]]].
  destruct (dyadic_positive false k 0 ltac:(lia)) as [k0 [c [Hc [Ek Hk0]]]].
  unfold Mul. rewrite Hp, Hb, HD, Em, Ek. cbn [fsign xorb]. do 2 f_equal.
  unfold product_53, round_val.
  assert (Hpos : 0 < Zpos m0 * Zpos k0) by lia.
  destruct (round_even_scale 53 (Zpos m0 * Zpos k0) e (a + c) ltac:(lia) Hpos ltac:(lia))
    as [u [Hu [E1 [E2 _]]]].
  pose proof (round_even_pos 53 (Zpos m0 * Zpos k0) (e + (a + c)) false ltac:(lia) Hpos) as Hp2.
  replace (Zpos m0 * Zpos k0 * 2 ^ (a + c)) with (Zpos m * k) in E1, E2
    by (rewrite Hm0, Hk0, Z.pow_add_r by lia; ring).
  replace (e + a + (0 + c)) with (e + (a + c)) by ring.
  destruct (round_even 53 (Zpos m * k) e false) as [[m1 e1] a1].
  destruct (round_even 53 (Zpos m0 * Zpos k0) (e + (a + c)) false) as [[m2 e2] a2].
  cbn [fst snd] in *. subst m1 e2.
  now rewrite dyadic_scale by lia.
Qed.

Lemma Int_into_new_dyadic p m e :
  0 < m -> Int_into_new {| prec := p; val := dyadic false m e |} = trunc_dyadic m e.
Proof.
  intros Hm. destruct (dyadic_positive false m e Hm) as [q [t [Ht [E Hq]]]].
  unfold Int_into_new, Float_Int. cbn [val]. rewrite E. cbn [fst].
  rewrite Hq. now rewrite trunc_dyadic_scale by lia.
Qed.

Lemma Int_into_new_product_53 m e k :
  0 < k ->
  Int_into_new {| prec := 53; val := product_53 m e k |}
  = (let '(m', e', _) := round_even 53 (Zpos m * k) e false in trunc_dyadic m' e').
Proof.
  intros Hk. unfold product_53.
  pose proof (round_even_pos 53 (Zpos m * k) e false ltac:(lia) ltac:(lia)) as Hp.
  destruct (round_even 53 (Zpos m * k) e false) as [[m1 e1] a1]. cbn [fst] in Hp.
  now apply Int_into_new_dyadic.
Qed.

Lemma product_53_finite m e k :
  0 < k -> exists q t, product_53 m e k = Ffin false q t.
Proof.
  intros Hk. unfold product_53.
  pose proof (round_even_pos 53 (Zpos m * k) e false ltac:(lia) ltac:(lia)) as Hp.
  destruct (round_even 53 (Zpos m * k) e false) as [[m1 e1] a1]. cbn [fst] in Hp.
  destruct (dyadic_positive false m1 e1 Hp) as [q [t [_ [E _]]]]. eauto.
Qed.

Lemma Sub_finite_returns p x y sx mx ex :
  val x = Ffin sx mx ex -> not_inf (val y) ->
  exists r, Sub p x y = Ret r /\ not_inf (val r).
Proof.
  intros Hx Hy. unfold Sub. rewrite Hx.
  destruct (val y) as [sy|sy my ey|sy]; cbn in Hy; try contradiction.
  - eexists. split; [reflexivity|]. cbn [val set_val]. apply round_val_not_inf.
  - eexists. split; [reflexivity|]. cbn [val].
    destruct (_ =? 0); [exact I|apply round_val_not_inf].
Qed.

Lemma Mul_finite_returns p x y sy my ey :
  not_inf (val x) -> val y = Ffin sy my ey ->
  exists r, Mul p x y = Ret r.
Proof.
  intros Hx Hy. unfold Mul. rewrite Hy.
  destruct (val x); cbn in Hx; try contradiction; eauto.
Qed.

Lemma EtherToWei_finite m e :
  is_float64 (S754_finite false m e) ->
  exists r, EtherToWei (S754_finite false m e) = Ret r /\
            (r = (Some (truncated_product_53 m e 18), None) \/
             r = (None, Some err_wei_precision)).
Proof.
  intros Hf. destruct (is_float64_finite _ _ _ Hf) as [Hm _].
  unfold EtherToWei. cbn [math_IsNaN math_IsInf0 orb f64_ltb SFltb SFcompare f64_zero].
  unfold NewFloat at 1. rewrite SetFloat64_finite by assumption. cbn [bind].
  rewrite (Mul_dyadic 0 _ etherDivisor m e (10 ^ 18)); try reflexivity; try lia.
  cbn [bind].
  rewrite Int_into_new_product_53 by lia.
  change (let '(m', e', _) := round_even 53 (Z.pos m * 10 ^ 18) e false in trunc_dyadic m' e')
    with (truncated_product_53 m e 18).
  set (wei := truncated_product_53 m e 18).
  destruct (product_53_finite m e (10 ^ 18) ltac:(lia)) as [q [t Eq]].
  destruct (Sub_finite_returns 0 {| prec := 53; val := product_53 m e (10 ^ 18) |}
              (SetInt 0 wei) false q t Eq (SetInt_not_inf wei)) as [r [Hr Hri]].
  rewrite Hr. cbn [bind].
  destruct (negb (Sign r =? 0)); [|eexists; split; [reflexivity|now left]].
  rewrite NewFloat_1e18. cbn [bind].
  destruct (Mul_finite_returns 0 r etherDivisor false 3814697265625 18 Hri eq_refl)
    as [rw Hrw].
  rewrite Hrw. cbn [bind].
  change (NewFloat f64_0_5) with (Ret {| prec := 53; val := Ffin false 1 (-1) |}).
  cbn [bind].
  destruct (0 <=? Cmp rw _); eexists; (split; [reflexivity|]); [now right|now left].
Qed.

Lemma EtherToWei_integer m e N :
  is_float64 (S754_finite false m e) -> 0 < N ->
  product_53 m e (10 ^ 18) = dyadic false N 0 ->
  EtherToWei (S754_finite false m e) = Ret (Some N, None).
Proof.
  intros Hf HN HP. destruct (is_float64_finite _ _ _ Hf) as [Hm _].
  unfold EtherToWei. cbn [math_IsNaN math_IsInf0 orb f64_ltb SFltb SFcompare f64_zero].
  unfold NewFloat at 1. rewrite SetFloat64_finite by assumption. cbn [bind].
  rewrite (Mul_dyadic 0 _ etherDivisor m e (10 ^ 18)); try reflexivity; try lia.
  cbn [bind]. rewrite HP.
  rewrite Int_into_new_dyadic by assumption.
  replace (trunc_dyadic N 0) with N by (unfold trunc_dyadic; cbn; lia).
  rewrite (SetInt_positive N HN).
  destruct (dyadic_positive false N 0 HN) as [q [t [Ht [E _]]]].
  unfold Sub. cbn [val]. rewrite E.
  replace (scaled false q (0 + t) (Z.min (0 + t) (0 + t))
           - scaled false q (0 + t) (Z.min (0 + t) (0 + t))) with 0 by lia.
  cbn [Z.eqb bind Sign val negb]. reflexivity.
Qed.

Lemma product_53_exact m e k c t :
  0 < k -> 0 < c -> bitlen c <= 53 -> 0 <= t ->
  c * 2 ^ t * 2 ^ Z.max 0 (- e) = Zpos m * k * 2 ^ Z.max 0 e ->
  product_53 m e k = dyadic false (c * 2 ^ t) 0.
Proof.
  intros Hk Hc Hbc Ht Heq. unfold product_53.
  set (M := Zpos m * k) in *. assert (HM : 0 < M) by (unfold M; lia).
  rewrite (dyadic_scale false c 0 t) by lia. rewrite Z.add_0_l.
  assert (H2t : 0 < 2 ^ t) by (apply Z.pow_pos_nonneg; lia).
  destruct (Z.le_gt_cases 0 (t - e)) as [Hte|Hte].
  - assert (EM : M = c * 2 ^ (t - e)).
    { destruct (Z.le_gt_cases 0 e) as [He|He].
      - rewrite Z.max_l, Z.max_r, Z.pow_0_r, Z.mul_1_r in Heq by lia.
        replace t with ((t - e) + e) in Heq by lia.
        rewrite Z.pow_add_r in Heq by lia.
        assert (0 < 2 ^ e) by (apply Z.pow_pos_nonneg; lia). nia.
      - rewrite Z.max_r, Z.max_l, Z.pow_0_r, Z.mul_1_r in Heq by lia.
        rewrite <- Heq. replace (t - e) with (t + - e) by lia.
        rewrite Z.pow_add_r by lia. ring. }
    destruct (round_even_scale 53 c e (t - e) ltac:(lia) Hc Hte) as [u [Hu [E1 [E2 _]]]].
    rewrite <- EM in E1, E2.
    rewrite (round_even_exact 53 c (e + (t - e)) Hbc) in E1, E2. cbn [fst snd] in E1, E2.
    destruct (round_even 53 M e false) as [[m1 e1] a1]. cbn [fst snd] in E1, E2.
    subst m1. rewrite dyadic_scale by lia. f_equal. lia.
  - assert (He : 0 < e) by lia.
    rewrite Z.max_l, Z.max_r, Z.pow_0_r, Z.mul_1_r in Heq by lia.
    assert (Ec : c = M * 2 ^ (e - t)).
    { replace e with ((e - t) + t) in Heq at 1 by lia.
      rewrite Z.pow_add_r in Heq by lia. nia. }
    assert (Hb : bitlen M <= 53).
    { rewrite Ec, bitlen_scale in Hbc by lia. lia. }
    rewrite round_even_exact by assumption.
    rewrite Ec, dyadic_scale by lia. f_equal. lia.
Qed.

Lemma product_53_large m e y :
  2 ^ 52 * 2 ^ Z.max 0 (- e) <= Zpos m * 2 ^ Z.max 0 e * pow10 y ->
  0 < truncated_product_53 m e y /\
  product_53 m e (pow10 y) = dyadic false (truncated_product_53 m e y) 0.
Proof.
  intros Hle. pose proof (pow10_pos y) as Hk.
  unfold truncated_product_53, product_53.
  set (M := Zpos m * pow10 y) in *. assert (HM : 0 < M) by (unfold M; lia).
  pose proof (round_even_accuracy 53 M e ltac:(lia) HM) as Hacc.
  destruct (round_even 53 M e false) as [[m1 e1] a1].
  destruct Hacc as [_ [He1 [[Hm1 _] _]]].
  assert (H0 : 0 <= e1).
  { destruct (Z.le_gt_cases 0 e) as [He|He]; [lia|].
    rewrite Z.max_r, Z.max_l, Z.pow_0_r, Z.mul_1_r in Hle by lia.
    rewrite <- Z.pow_add_r in Hle by lia.
    pose proof (bitlen_bounds M HM) as [_ Hu].
    assert (52 + - e < bitlen M).
    { apply (Z.pow_lt_mono_r_iff 2); [lia| |lia].
      pose proof (bitlen_positive M HM). lia. }
    lia. }
  unfold trunc_dyadic. destruct (Z.leb_spec 0 e1); [|lia].
  assert (0 < 2 ^ e1) by (apply Z.pow_pos_nonneg; lia).
  split; [nia|]. rewrite dyadic_scale by lia. f_equal.
Qed.

(** X14.  [EtherToWei] never panics.  On every double it returns either
    an error and no integer, or an integer and no error; the integer is
    not negative and is the one that [FloatToBigIntBaseX] returns at
    exponent 18 (the product rounded to 53 bits, truncated), and it is
    returned only for an input that is not NaN, not infinite and not below
    zero. *)
Theorem EtherToWei_total (x : float64) :
  is_float64 x ->
  exists r, EtherToWei x = Ret r /\
    ((exists err, r = (None, Some err)) \/
     r = (Some (bridge_value x 18), None) /\ 0 <= bridge_value x 18 /\
     math_IsNaN x = false /\ math_IsInf0 x = false /\
     f64_ltb x f64_zero = false).
Proof.
  intros Hf. destruct x as [s|s| |s m e].
  - exists (Some 0, None). split; [now destruct s|]. right. now destruct s.
  - eexists. split; [reflexivity|]. left. eauto.
  - eexists. split; [reflexivity|]. left. eauto.
  - destruct s.
    + eexists. split; [reflexivity|]. left. eauto.
    + destruct (EtherToWei_finite m e Hf) as [r [Hr [-> | ->]]].
      * eexists. split; [exact Hr|]. right. split; [reflexivity|].
        split; [apply truncated_product_53_nonneg|]. repeat split.
      * eexists. split; [exact Hr|]. left. eauto.
Qed.

Lemma EtherToWei_total_witness :
  is_float64 f64_1_5 /\
  exists r, EtherToWei f64_1_5 = Ret r /\
    ((exists err, r = (None, Some err)) \/
     r = (Some (bridge_value f64_1_5 18), None) /\
     0 <= bridge_value f64_1_5 18 /\
     math_IsNaN f64_1_5 = false /\ math_IsInf0 f64_1_5 = false /\
     f64_ltb f64_1_5 f64_zero = false).
Proof.
  split; [reflexivity|]. apply (EtherToWei_total f64_1_5). reflexivity.
Defined.

(** X15.  The precision check of [EtherToWei] cannot fire from [2^52] Wei
    on.  For every double [m * 2^e] with [m * 2^e * 10^18 >= 2^52] the
    product rounded to 53 bits is a whole number, the remainder is zero,
    and [EtherToWei] returns that rounded product with no error, whether
    or not it equals the exact product. *)
Theorem EtherToWei_accepts_large (m : positive) (e : Z) :
  is_float64 (S754_finite false m e) ->
  2 ^ 52 * 2 ^ Z.max 0 (- e) <= Zpos m * 2 ^ Z.max 0 e * 10 ^ 18 ->
  EtherToWei (S754_finite false m e)
  = Ret (Some (truncated_product_53 m e 18), None).
Proof.
  intros Hf Hle.
  destruct (product_53_large m e 18 Hle) as [Hpos HP].
  now apply EtherToWei_integer.
Qed.

Lemma EtherToWei_accepts_large_witness :
  is_float64 (S754_finite false 5559999489367579 (-52)) /\
  2 ^ 52 * 2 ^ Z.max 0 (- -52)
  <= Zpos 5559999489367579 * 2 ^ Z.max 0 (-52) * 10 ^ 18 /\
  EtherToWei (S754_finite false 5559999489367579 (-52))
  = Ret (Some (truncated_product_53 5559999489367579 (-52) 18), None).
Proof.
  split; [reflexivity|]. split; [vm_compute; discriminate|].
  apply (EtherToWei_accepts_large 5559999489367579 (-52));
    [reflexivity | vm_compute; discriminate].
Defined.

(** There the returned integer can differ from the exact product: for
    1.23456789 it is 1234567890000000000, the exact product truncates to
    1234567889999999890.  Below [2^52] Wei the check does fire: a third of
    a thousandth is refused.  The amounts of [TestEtherToWei] come out as
    the test expects. *)
Example EtherToWei_examples :
  EtherToWei f64_1_23456789 = Ret (Some 1234567890000000000, None) /\
  truncated_product_exact f64_1_23456789 18 = Some 1234567889999999890 /\
  EtherToWei (f64_div f64_1 (float64_of_Z 3000))
  = Ret (None, Some err_wei_precision) /\
  EtherToWei f64_zero = Ret (Some 0, None) /\
  EtherToWei f64_1 = Ret (Some 1000000000000000000, None) /\
  EtherToWei f64_0_5 = Ret (Some 500000000000000000, None) /\
  EtherToWei (f64_div (float64_of_Z 123456) f64_1e18) = Ret (Some 123456, None) /\
  EtherToWei (f64_div f64_1 f64_1e18) = Ret (Some 1, None).
Proof. repeat split; vm_compute; reflexivity. Qed.

(** X16.  Ether to Wei and back.  If [x * 10^18] is an integer of at most
    53 significant bits ([c * 2^t] with [c < 2^53]), [EtherToWei(x)]
    returns that integer with no error and [WeiToEther] of it returns
    [x] with no error. *)
Theorem Ether_Wei_round_trip (x : float64) (c t : Z) :
  is_float64 x -> 0 < c < 2 ^ 53 -> 0 <= t ->
  is_ratio x (c * 2 ^ t) (10 ^ 18) = true ->
  EtherToWei x = Ret (Some (c * 2 ^ t), None) /\
  WeiToEther (Some (c * 2 ^ t)) = Ret (x, None).
Proof.
  intros Hf Hc Ht Hr.
  split; [|now apply (WeiToEther_of_ratio (c * 2 ^ t) x)].
  assert (0 < 2 ^ t) by (apply Z.pow_pos_nonneg; lia).
  destruct (is_ratio_cases x (c * 2 ^ t) (10 ^ 18) ltac:(lia) Hr)
    as [[_ E]|[m [e [-> [Hw Heq]]]]]; [nia|].
  apply EtherToWei_integer; [assumption|lia|].
  apply product_53_exact;
    first [lia | now apply bitlen_lt_53 | (rewrite Heq; ring)].
Qed.

Lemma Ether_Wei_round_trip_witness :
  is_float64 f64_1_5 /\ 0 < 11444091796875 < 2 ^ 53 /\ 0 <= 17 /\
  is_ratio f64_1_5 (11444091796875 * 2 ^ 17) (10 ^ 18) = true /\
  EtherToWei f64_1_5 = Ret (Some (11444091796875 * 2 ^ 17), None) /\
  WeiToEther (Some (11444091796875 * 2 ^ 17)) = Ret (f64_1_5, None).
Proof.
  split; [reflexivity|]. split; [lia|]. split; [lia|].
  split; [vm_compute; reflexivity|].
  apply (Ether_Wei_round_trip f64_1_5 11444091796875 17);
    [reflexivity | lia | lia | vm_compute; reflexivity].
Defined.

(* ================================================================== *)
(** * bigint.go: decoding *)

Lemma digit_char_N d : N_of_ascii (digit_char d) = Z.to_N (48 + d mod 10).
Proof.
  unfold digit_char. apply N_ascii_embedding.
  pose proof (Z.mod_pos_bound d 10 ltac:(lia)). lia.
Qed.

Lemma digit_char_not c d :
  (Z.of_N (N_of_ascii c) < 48 \/ 57 < Z.of_N (N_of_ascii c)) ->
  Ascii.eqb (digit_char d) c = false.
Proof.
  intros H. apply Ascii.eqb_neq. intros E. rewrite <- E, digit_char_N in H.
  pose proof (Z.mod_pos_bound d 10 ltac:(lia)). lia.
Qed.

Lemma Contains_digits_var c fuel : forall v acc,
  (Z.of_N (N_of_ascii c) < 48 \/ 57 < Z.of_N (N_of_ascii c)) ->
  Contains_char c (digits_var fuel v acc) = Contains_char c acc.
Proof.
  induction fuel as [|fuel IH]; intros v acc Hc; cbn [digits_var]; [reflexivity|].
  destruct (v <? 10).
  - cbn [Contains_char]. now rewrite digit_char_not.
  - rewrite IH by assumption. cbn [Contains_char]. now rewrite digit_char_not.
Qed.

Lemma Contains_decimal_of_nonneg c v :
  (Z.of_N (N_of_ascii c) < 48 \/ 57 < Z.of_N (N_of_ascii c)) ->
  Contains_char c (decimal_of_nonneg v) = false.
Proof.
  intros Hc. unfold decimal_of_nonneg. destruct (v <=? 0).
  - cbn [Contains_char]. rewrite orb_false_r. apply Ascii.eqb_neq. intros E.
    rewrite <- E in Hc. cbn in Hc. lia.
  - now rewrite Contains_digits_var.
Qed.

Lemma Contains_quote_Int_String v : Contains_char quote_char (Int_String v) = false.
Proof.
  unfold Int_String. destruct (v <? 0).
  - cbn [Contains_char]. rewrite Contains_decimal_of_nonneg by (cbn; lia). reflexivity.
  - apply Contains_decimal_of_nonneg. cbn; lia.
Qed.

Lemma TrimLeft_head c a s :
  Ascii.eqb a c = false -> TrimLeft c (String a s) = String a s.
Proof. intros H. cbn [TrimLeft]. now rewrite H. Qed.

Lemma TrimRight_none c s : Contains_char c s = false -> TrimRight c s = s.
Proof.
  induction s as [|a s IH]; [reflexivity|]. cbn [Contains_char TrimRight]. intros H.
  apply orb_false_elim in H. destruct H as [Ha Hs]. rewrite IH by assumption.
  destruct s; [now rewrite Ha | reflexivity].
Qed.

Lemma append_cons a s t : append (String a s) t = String a (append s t).
Proof. reflexivity. Qed.

Lemma append_nil t : append EmptyString t = t.
Proof. reflexivity. Qed.

Lemma TrimRight_app c s :
  Contains_char c s = false -> s <> EmptyString ->
  TrimRight c (append s (String c EmptyString)) = s.
Proof.
  induction s as [|a s IH]; [congruence|]. intros H _.
  cbn [Contains_char] in H. apply orb_false_elim in H. destruct H as [Ha Hs].
  rewrite append_cons. cbn [TrimRight].
  destruct s as [|b s].
  - rewrite append_nil. cbn [TrimRight]. rewrite Ascii.eqb_refl. now rewrite Ha.
  - rewrite IH by (try assumption; discriminate). reflexivity.
Qed.

(** Trimming the quotes off a text that holds none, bare or between
    quotes. *)
Lemma Trim_bare c a s :
  Contains_char c (String a s) = false -> Trim c (String a s) = String a s.
Proof.
  intros H. unfold Trim. pose proof H as H'.
  cbn [Contains_char] in H'. apply orb_false_elim in H'. destruct H' as [Ha _].
  rewrite TrimLeft_head by assumption. now apply TrimRight_none.
Qed.

Lemma Trim_quoted c a s :
  Contains_char c (String a s) = false ->
  Trim c (String c (append (String a s) (String c EmptyString))) = String a s.
Proof.
  intros H. unfold Trim. cbn [TrimLeft]. rewrite Ascii.eqb_refl.
  pose proof H as H'.
  cbn [Contains_char] in H'. apply orb_false_elim in H'. destruct H' as [Ha _].
  rewrite append_cons, TrimLeft_head by assumption.
  rewrite <- append_cons.
  apply TrimRight_app; [assumption|discriminate].
Qed.

(** X17.  Writing and reading back.  For every integer [v], the decoded
    JSON string that holds its base-10 numeral (what [MarshalJSON] puts
    between the quotes) is read by [UnmarshalJSON] as [v] with no error,
    whatever the receiver held; so is the numeral with its quotes still
    around it, which the trimming removes. *)
Theorem UnmarshalJSON_numeral (FormatFloat : float64 -> string)
  (b : BigInt) (p : pool) (v : Z) :
  UnmarshalJSON FormatFloat b (Decoded (JSON_string (Int_String v))) p
  = (mkBigInt (Some v), None, snd (Pool_Get p)) /\
  UnmarshalJSON FormatFloat b
    (Decoded (JSON_string (fst (MarshalJSON (mkBigInt (Some v)))))) p
  = (mkBigInt (Some v), None, snd (Pool_Get p)).
Proof.
  pose proof (Contains_quote_Int_String v) as Hq.
  pose proof (Int_String_nonempty v) as Hne.
  pose proof (SetString_Int_String v) as Hs.
  unfold UnmarshalJSON, MarshalJSON, json_Marshal_string. cbn [Int fst].
  destruct (Pool_Get p) as [x p']. cbn [snd].
  destruct (Int_String v) as [|a s] eqn:E; [congruence|].
  rewrite Trim_bare, Trim_quoted by assumption.
  cbn [String.length Nat.eqb]. rewrite Hs. split; reflexivity.
Qed.

Lemma scan_digits_no_quote base s : forall a v,
  base <= 16 -> scan_digits base s a = Some v ->
  Contains_char quote_char s = false.
Proof.
  induction s as [|c s IH]; intros a v Hb H; [reflexivity|].
  cbn [scan_digits] in H. destruct (digit_val base c) as [d|] eqn:Ed; [|discriminate].
  cbn [Contains_char]. rewrite (IH _ _ Hb H), orb_false_r.
  apply Ascii.eqb_neq. intros ->. unfold digit_val in Ed.
  change (Z.of_N (N_of_ascii quote_char)) with 34 in Ed. cbn in Ed.
  destruct (Z.ltb_spec 99 base); [lia|discriminate].
Qed.

Lemma SetString_no_quote base s v :
  base <= 16 -> SetString s base = Some v -> Contains_char quote_char s = false.
Proof.
  intros Hb. unfold SetString. destruct s as [|c r]; [discriminate|].
  destruct (Ascii.eqb c "-") eqn:Em; [|destruct (Ascii.eqb c "+") eqn:Ep].
  - destruct r as [|d r]; [discriminate|]. set (body := String d r).
    destruct (scan_digits base body 0) eqn:E; [|discriminate]. intros _.
    apply Ascii.eqb_eq in Em. subst c. cbn [Contains_char].
    now rewrite (scan_digits_no_quote base _ _ _ Hb E).
  - destruct r as [|d r]; [discriminate|]. set (body := String d r).
    destruct (scan_digits base body 0) eqn:E; [|discriminate]. intros _.
    apply Ascii.eqb_eq in Ep. subst c. cbn [Contains_char].
    now rewrite (scan_digits_no_quote base _ _ _ Hb E).
  - destruct (scan_digits base (String c r) 0) eqn:E; [|discriminate]. intros _.
    now apply (scan_digits_no_quote base _ _ _ Hb E).
Qed.

(** X18.  A JSON string that starts with [0x] is read in base 16: if
    [SetString] reads the rest [r] as [n] in base 16 (hexadecimal digits
    of either case after an optional sign), [UnmarshalJSON] returns [n]
    with no error.  The decimal reading is tried first and fails on the
    [x]. *)
Theorem UnmarshalJSON_hex (FormatFloat : float64 -> string)
  (b : BigInt) (p : pool) (r : string) (n : Z) :
  SetString r 16 = Some n ->
  UnmarshalJSON FormatFloat b
    (Decoded (JSON_string (String "0" (String "x" r)))) p
  = (mkBigInt (Some n), None, snd (Pool_Get p)).
Proof.
  intros Hr. pose proof (SetString_no_quote 16 r n ltac:(lia) Hr) as Hq.
  unfold UnmarshalJSON. destruct (Pool_Get p) as [x p']. cbn [snd].
  rewrite Trim_bare by (cbn [Contains_char]; now rewrite Hq).
  cbn [String.length Nat.eqb].
  replace (SetString (String "0" (String "x" r)) 10) with (@None Z) by reflexivity.
  cbn [HasPrefix_0x]. now rewrite Hr.
Qed.

Lemma UnmarshalJSON_hex_witness :
  SetString "fF" 16 = Some 255 /\
  UnmarshalJSON (fun _ => EmptyString) (mkBigInt None)
    (Decoded (JSON_string (String "0" (String "x" "fF")))) []
  = (mkBigInt (Some 255), None, snd (Pool_Get [])).
Proof.
  split; [reflexivity|].
  apply (UnmarshalJSON_hex (fun _ => EmptyString) (mkBigInt None) [] "fF" 255).
  reflexivity.
Defined.

Lemma math_Trunc_whole s m e :
  is_float64 (S754_finite s m e) -> is_whole m e = true ->
  math_Trunc (S754_finite s m e) = S754_finite s m e.
Proof.
  intros Hf Hw. unfold math_Trunc, is_whole in *.
  destruct (Z.leb_spec 0 e) as [He|He]; [reflexivity|].
  cbn [orb] in Hw. apply Z.eqb_eq in Hw.
  assert (H2 : 0 < 2 ^ (- e)) by (apply Z.pow_pos_nonneg; lia).
  pose proof (Z.div_mod (Zpos m) (2 ^ (- e)) ltac:(lia)) as Hdm.
  rewrite Hw, Z.add_0_r in Hdm.
  set (t := Zpos m / 2 ^ (- e)) in *.
  assert (Ht : 0 < t) by nia.
  destruct t as [|tp|tp] eqn:Et; try lia.
  assert (R : fst (round_f64 s (Zpos tp) 0) = S754_finite s m e).
  { replace (S754_finite s m e) with (fst (round_f64 s (Zpos m) e))
      by (now rewrite round_f64_valid).
    assert (Em : Zpos m = Zpos tp * 2 ^ (- e)) by lia.
    rewrite Em, round_f64_scale by lia. now replace (e + - e) with 0 by lia. }
  destruct s.
  - change (binary_normalize 53 1024 (- Z.pos tp) 0 true)
      with (binary_round 53 1024 true tp 0).
    rewrite <- round_f64_binary_round. exact R.
  - change (binary_normalize 53 1024 (Z.pos tp) 0 false)
      with (binary_round 53 1024 false tp 0).
    rewrite <- round_f64_binary_round. exact R.
Qed.

Lemma f64_eqb_refl s m e : f64_eqb (S754_finite s m e) (S754_finite s m e) = true.
Proof.
  unfold f64_eqb, SFeqb, SFcompare. rewrite Z.compare_refl.
  change (Pos.compare_cont Eq m m) with (Pos.compare m m).
  rewrite Pos.compare_refl. now destruct s.
Qed.

Lemma whole_bounds s m e :
  is_float64 (S754_finite s m e) ->
  MinInt64 <= whole_value s m e <= MaxInt64 ->
  f64_leb (S754_finite s m e) f64_MaxInt64 = true /\
  f64_leb f64_MinInt64 (S754_finite s m e) = true.
Proof.
  intros Hf Hb. destruct (is_float64_canonical s m e Hf) as [Hc _].
  pose proof (bitlen_bounds (Zpos m) ltac:(lia)) as [Hlo _].
  assert (Hm52 : e <= -1074 \/ 2 ^ 52 <= Zpos m).
  { destruct (Z.le_gt_cases e (-1074)); [now left|right].
    assert (bitlen (Zpos m) = 53) by lia.
    replace 52 with (bitlen (Zpos m) - 1) by lia. exact Hlo. }
  assert (He : e < 11 \/ (e = 11 /\ s = true /\ m = 4503599627370496%positive)).
  { destruct (Z.lt_ge_cases e 11) as [|Hge]; [now left|right].
    destruct Hm52 as [|Hm52]; [lia|].
    unfold whole_value, trunc_dyadic, MinInt64, MaxInt64 in Hb.
    destruct (Z.leb_spec 0 e); [|lia].
    assert (2 ^ 11 <= 2 ^ e) by (apply Z.pow_le_mono_r; lia).
    change (2 ^ 11) with 2048 in *. change (2 ^ 52) with 4503599627370496 in *.
    change (2 ^ 63) with 9223372036854775808 in *.
    destruct s; [|nia].
    assert (Zpos m = 4503599627370496 /\ 2 ^ e = 2048) as [Em E2] by nia.
    split; [|split; [reflexivity|lia]].
    destruct (Z.eq_dec e 11); [assumption|].
    assert (2 ^ 12 <= 2 ^ e) by (apply Z.pow_le_mono_r; lia).
    change (2 ^ 12) with 4096 in *. lia. }
  unfold f64_leb, SFleb, f64_MaxInt64, f64_MinInt64, SFcompare.
  destruct He as [He|[-> [-> ->]]]; [|split; reflexivity].
  destruct s.
  - split; [reflexivity|].
    rewrite (proj2 (Z.compare_gt_iff 11 e)) by lia. reflexivity.
  - split; [|reflexivity].
    rewrite (proj2 (Z.compare_lt_iff e 11)) by lia. reflexivity.
Qed.

(** X19.  A JSON number that is a whole number within the [int64]
    range is read as that integer: for every double [± m * 2^e] without
    fractional part whose value lies from [MinInt64] to [MaxInt64],
    [UnmarshalJSON] returns the value with no error and does not consult
    the text form of the number; zero is read as 0. *)
Theorem UnmarshalJSON_whole_number (FormatFloat : float64 -> string)
  (b : BigInt) (p : pool) (s : bool) (m : positive) (e : Z) :
  is_float64 (S754_finite s m e) -> is_whole m e = true ->
  MinInt64 <= whole_value s m e <= MaxInt64 ->
  UnmarshalJSON FormatFloat b (Decoded (JSON_float64 (S754_finite s m e))) p
  = (mkBigInt (Some (whole_value s m e)), None, snd (Pool_Get p)) /\
  UnmarshalJSON FormatFloat b (Decoded (JSON_float64 f64_zero)) p
  = (mkBigInt (Some 0), None, snd (Pool_Get p)).
Proof.
  intros Hf Hw Hb. split.
  - unfold UnmarshalJSON. destruct (Pool_Get p) as [x p']. cbn [snd].
    cbn [math_IsNaN math_IsInf0 orb].
    rewrite math_Trunc_whole, f64_eqb_refl by assumption.
    destruct (whole_bounds s m e Hf Hb) as [-> ->]. cbn [andb].
    unfold int64_of_float64. fold (whole_value s m e).
    now rewrite IsInt64_true.
  - unfold UnmarshalJSON. destruct (Pool_Get p) as [x p']. reflexivity.
Qed.

Lemma UnmarshalJSON_whole_number_witness :
  is_float64 (S754_finite true 8796093022208000 (-43)) /\
  is_whole 8796093022208000 (-43) = true /\
  MinInt64 <= whole_value true 8796093022208000 (-43) <= MaxInt64 /\
  UnmarshalJSON (fun _ => EmptyString) (mkBigInt None)
    (Decoded (JSON_float64 (S754_finite true 8796093022208000 (-43)))) []
  = (mkBigInt (Some (whole_value true 8796093022208000 (-43))), None,
     snd (Pool_Get [])) /\
  UnmarshalJSON (fun _ => EmptyString) (mkBigInt None)
    (Decoded (JSON_float64 f64_zero)) []
  = (mkBigInt (Some 0), None, snd (Pool_Get [])).
Proof.
  split; [reflexivity|]. split; [reflexivity|].
  split; [vm_compute; split; discriminate|].
  apply (UnmarshalJSON_whole_number (fun _ => EmptyString) (mkBigInt None) []
           true 8796093022208000 (-43));
    [reflexivity | reflexivity | vm_compute; split; discriminate].
Defined.

(** The double 1000 and its opposite are read as 1000 and -1000. *)
Example UnmarshalJSON_whole_number_example :
  f64_1000 = S754_finite false 8796093022208000 (-43) /\
  whole_value false 8796093022208000 (-43) = 1000 /\
  whole_value true 8796093022208000 (-43) = -1000.
Proof. repeat split. Qed.

(* ================================================================== *)
(** * bigint.go: isNumericString *)

Lemma all_decimal_scan s : forall a,
  all_decimal s = true -> exists v, scan_digits 10 s a = Some v.
Proof.
  induction s as [|c s IH]; intros a H; [cbn; eauto|].
  cbn [all_decimal] in H. apply andb_true_iff in H. destruct H as [Hc Hs].
  cbn [scan_digits]. unfold digit_val. rewrite Hc.
  apply andb_true_iff in Hc. destruct Hc as [H1 H2].
  apply Z.leb_le in H1, H2.
  destruct (Z.ltb_spec (Z.of_N (N_of_ascii c) - 48) 10); [|lia].
  now apply IH.
Qed.

Lemma all_decimal_head c s :
  all_decimal (String c s) = true -> Ascii.eqb c "-" = false /\ Ascii.eqb c "+" = false.
Proof.
  cbn [all_decimal]. intros H. apply andb_true_iff in H. destruct H as [H _].
  apply andb_true_iff in H. destruct H as [H1 H2]. apply Z.leb_le in H1, H2.
  split; apply Ascii.eqb_neq; intros ->; cbn in H1, H2; lia.
Qed.

Lemma isNumericString_SetString s :
  isNumericString s = true -> exists v, SetString s 10 = Some v.
Proof.
  destruct s as [|c r]; [discriminate|]. unfold isNumericString, SetString.
  destruct (Ascii.eqb c "-") eqn:Em.
  - destruct r as [|d r]; [discriminate|]. intros H.
    destruct (all_decimal_scan (String d r) 0 H) as [v ->]. eauto.
  - intros H. destruct (all_decimal_head c r H) as [_ Hp]. rewrite Hp.
    destruct (all_decimal_scan (String c r) 0 H) as [v ->]. eauto.
Qed.

Lemma all_decimal_digits_var fuel : forall v acc,
  all_decimal acc = true -> all_decimal (digits_var fuel v acc) = true.
Proof.
  assert (Hd : forall d s, all_decimal s = true -> all_decimal (String (digit_char d) s) = true).
  { intros d s Hs. cbn [all_decimal]. rewrite digit_char_N, Hs.
    pose proof (Z.mod_pos_bound d 10 ltac:(lia)).
    rewrite Z2N.id by lia.
    destruct (Z.leb_spec 48 (48 + d mod 10)); [|lia].
    destruct (Z.leb_spec (48 + d mod 10) 57); [reflexivity|lia]. }
  induction fuel as [|fuel IH]; intros v acc H; cbn [digits_var]; [assumption|].
  destruct (v <? 10); [now apply Hd|]. apply IH. now apply Hd.
Qed.

Lemma all_decimal_decimal_of_nonneg v : all_decimal (decimal_of_nonneg v) = true.
Proof.
  unfold decimal_of_nonneg. destruct (v <=? 0); [reflexivity|].
  now apply all_decimal_digits_var.
Qed.

Lemma isNumericString_Int_String v : isNumericString (Int_String v) = true.
Proof.
  unfold Int_String. destruct (v <? 0).
  - unfold isNumericString. cbn [Ascii.eqb Bool.eqb].
    pose proof (decimal_of_nonneg_nonempty (- v)) as Hne.
    pose proof (all_decimal_decimal_of_nonneg (- v)) as Ha.
    destruct (decimal_of_nonneg (- v)); [congruence|assumption].
  - pose proof (decimal_of_nonneg_nonempty v) as Hne.
    pose proof (all_decimal_decimal_of_nonneg v) as Ha.
    destruct (decimal_of_nonneg v) as [|c r] eqn:E; [congruence|].
    unfold isNumericString.
    destruct (all_decimal_head c r Ha) as [Hm _]. now rewrite Hm.
Qed.

(** X20.  [isNumericString] is sound for the parser and complete for
    what the package prints: a string that it accepts is read by
    [BigIntByString] with no error, and it accepts the base-10 numeral of
    every integer.  It is stricter than the parser: it refuses the empty
    string, a lone minus sign, and a leading plus sign that the parser
    takes. *)
Theorem isNumericString_sound (s : string) (v : Z) :
  isNumericString s = true ->
  (exists n, BigIntByString s = (Some n, None)) /\
  isNumericString (Int_String v) = true /\
  isNumericString "" = false /\ isNumericString "-" = false /\
  isNumericString "+5" = false /\ BigIntByString "+5" = (Some 5, None).
Proof.
  intros H. split; [|split; [apply isNumericString_Int_String|repeat split]].
  destruct (isNumericString_SetString s H) as [n Hn].
  exists n. unfold BigIntByString. destruct s; [discriminate|]. now rewrite Hn.
Qed.

Lemma isNumericString_sound_witness :
  isNumericString "-42" = true /\
  (exists n, BigIntByString "-42" = (Some n, None)) /\
  isNumericString (Int_String 7) = true /\
  isNumericString "" = false /\ isNumericString "-" = false /\
  isNumericString "+5" = false /\ BigIntByString "+5" = (Some 5, None).
Proof.
  split; [reflexivity|].
  apply (isNumericString_sound "-42" 7). reflexivity.
Defined.

(* ================================================================== *)
(** * bigint.go: the methods on the store *)

Lemma deref_inv h c vc :
  deref h c = Some vc ->
  exists a p, c = Some a /\ structs h !! a = Some p /\
    match p with
    | None => Int vc = None
    | Some i => exists v, ints h !! i = Some v /\ Int vc = Some v
    end.
Proof.
  unfold deref. destruct c as [a|]; [|discriminate].
  destruct (structs h !! a) as [[i|]|] eqn:E; try discriminate.
  - destruct (ints h !! i) as [v|] eqn:Ei; [|discriminate].
    intros [= <-]. exists a, (Some i). eauto.
  - intros [= <-]. exists a, None. eauto.
Qed.

Lemma BigInt_eta (v : BigInt) : mkBigInt (Int v) = v.
Proof. now destruct v. Qed.

Lemma ensure_spec h b vb :
  store_ok h -> deref h b = Some vb ->
  exists a z h1,
    b = Some a /\
    BigInt.ensure b h = Ret (Some z, h1) /\ store_ok h1 /\
    structs h1 !! a = Some (Some z) /\
    ints h1 !! z = Some (default 0 (Int vb)) /\
    (forall c vc, deref h c = Some vc ->
                  deref h1 c = Some (mkBigInt (seen b c vc))).
Proof.
  intros [Hi Hs] Hb.
  destruct (deref_inv h b vb Hb) as [a [p [-> [Ea Hp]]]].
  unfold BigInt.ensure, bind_action, get_Int. rewrite Ea.
  destruct p as [z|].
  - destruct Hp as [v [Ev Evb]]. exists a, z, h.
    split; [reflexivity|]. split; [reflexivity|]. split; [now split|].
    split; [assumption|]. split; [now rewrite Evb|].
    intros c vc Hc. rewrite Hc. f_equal. unfold seen.
    destruct (decide (Some a = c)) as [<-|Hne].
    + rewrite Hb in Hc. injection Hc as <-. rewrite Evb. cbn.
      destruct vb as [i]. cbn in Evb. now subst i.
    + now rewrite BigInt_eta.
  - cbn. exists a, (next h). eexists.
    split; [reflexivity|]. split; [reflexivity|].
    split; [|split; [|split]].
    + split; cbn; intros c v E.
      * apply lookup_insert_Some in E. destruct E as [[<- _]|[_ E]]; [lia|].
        apply Hi in E. lia.
      * apply lookup_insert_Some in E. destruct E as [[<- _]|[_ E]].
        -- apply Hs in Ea. lia.
        -- apply Hs in E. lia.
    + cbn. apply lookup_insert_eq.
    + cbn. rewrite Hp. apply lookup_insert_eq.
    + intros c vc Hc. unfold seen.
      destruct (decide (Some a = c)) as [<-|Hne].
      * rewrite Hb in Hc. injection Hc as <-. rewrite Hp.
        unfold deref. cbn. rewrite !lookup_insert_eq. reflexivity.
      * destruct (deref_inv h c vc Hc) as [a' [p' [-> [Ea' Hp']]]].
        assert (a <> a') by congruence.
        unfold deref. cbn. rewrite lookup_insert_ne by assumption. rewrite Ea'.
        destruct p' as [i|].
        -- destruct Hp' as [v [Ev Evc]].
           assert (i <> next h) by (intros ->; apply Hi in Ev; lia).
           rewrite lookup_insert_ne by congruence. rewrite Ev.
           now rewrite <- Evc, BigInt_eta.
        -- now rewrite <- Hp', BigInt_eta.
Qed.

Lemma get_Int_deref h c v' :
  deref h c = Some (mkBigInt v') ->
  exists p, get_Int c h = Ret (p, h) /\
    match v' with
    | None => p = None
    | Some v => exists i, p = Some i /\ ints h !! i = Some v
    end.
Proof.
  intros Hc. destruct (deref_inv h c _ Hc) as [a [p [-> [Ea Hp]]]].
  exists p. unfold get_Int. rewrite Ea. split; [reflexivity|].
  destruct p as [i|]; cbn in Hp.
  - destruct Hp as [v [Ev ->]]. eauto.
  - now rewrite Hp.
Qed.

Lemma write_Int_deref h a z v v0 :
  store_ok h -> structs h !! a = Some (Some z) -> ints h !! z = Some v0 ->
  exists h2, write_Int (Some z) v h = Ret (tt, h2) /\ store_ok h2 /\
             deref h2 (Some a) = Some (mkBigInt (Some v)).
Proof.
  intros [Hi Hs] Ea Ez. eexists. split; [reflexivity|]. split.
  - split; cbn; intros c w E.
    + apply lookup_insert_Some in E. destruct E as [[<- _]|[_ E]]; eauto.
    + eauto.
  - unfold deref. cbn. rewrite Ea, lookup_insert_eq. reflexivity.
Qed.

Lemma read_Int_some h i v : ints h !! i = Some v -> read_Int (Some i) h = Ret (v, h).
Proof. intros E. unfold read_Int. now rewrite E. Qed.

Section AfterEnsure.

Variables (h : store) (a z : addr) (v0 : Z).
Hypothesis Hok : store_ok h.
Hypothesis Ha : structs h !! a = Some (Some z).
Hypothesis Hz : ints h !! z = Some v0.

Lemma Int_Set_spec i v :
  ints h !! i = Some v ->
  exists h2, Int_Set (Some z) (Some i) h = Ret (tt, h2) /\ store_ok h2 /\
             deref h2 (Some a) = Some (mkBigInt (Some v)).
Proof.
  intros Ei. unfold Int_Set, bind_action. rewrite (read_Int_some h i v Ei).
  now apply (write_Int_deref h a z v v0).
Qed.

Lemma Int_binary_spec f i j vi vj :
  ints h !! i = Some vi -> ints h !! j = Some vj ->
  exists h2, Int_binary f (Some z) (Some i) (Some j) h = Ret (tt, h2) /\
             store_ok h2 /\
             deref h2 (Some a) = Some (mkBigInt (Some (f vi vj))).
Proof.
  intros Ei Ej. unfold Int_binary, bind_action.
  rewrite (read_Int_some h i vi Ei), (read_Int_some h j vj Ej).
  now apply (write_Int_deref h a z _ v0).
Qed.

Lemma Int_Neg_spec i vi :
  ints h !! i = Some vi ->
  exists h2, Int_Neg (Some z) (Some i) h = Ret (tt, h2) /\ store_ok h2 /\
             deref h2 (Some a) = Some (mkBigInt (Some (- vi))).
Proof.
  intros Ei. unfold Int_Neg, bind_action. rewrite (read_Int_some h i vi Ei).
  now apply (write_Int_deref h a z _ v0).
Qed.

Lemma Int_SetInt64_spec v :
  exists h2, Int_SetInt64 (Some z) v h = Ret (tt, h2) /\ store_ok h2 /\
             deref h2 (Some a) = Some (mkBigInt (Some v)).
Proof. now apply (write_Int_deref h a z v v0). Qed.

End AfterEnsure.

(** Runs an action whose steps are equations among the hypotheses. *)
Ltac run_action :=
  repeat first
    [ progress cbv beta iota
    | match goal with
      | H : ?c = Ret _ |- context [bind_action ?c _ _] =>
          unfold bind_action at 1; rewrite H
      | H : ?c ?h = Ret _ |- context [bind_action ?c _ ?h] =>
          unfold bind_action at 1; rewrite H
      end ];
  try reflexivity.

Lemma store_ok_empty : store_ok empty_store.
Proof. split; intros a v; cbn; rewrite lookup_empty; discriminate. Qed.

Lemma example_store_ok : store_ok example_store.
Proof.
  split; intros a v E; cbn in E |- *.
  - apply lookup_insert_Some in E. destruct E as [[<- _]|[_ E]]; [lia|].
    rewrite lookup_empty in E. discriminate.
  - apply lookup_insert_Some in E. destruct E as [[<- _]|[_ E]]; [lia|].
    apply lookup_insert_Some in E. destruct E as [[<- _]|[_ E]]; [lia|].
    rewrite lookup_empty in E. discriminate.
Qed.

(** X21.  [Add] on a receiver and two operands that the store holds.  An
    operand whose [Int] is nil counts as zero when the other operand holds
    an integer, and the receiver then holds the sum; an operand that is
    the receiver itself always holds an integer by the time it is read,
    zero if its [Int] was nil.  When the [Int] of both operands is nil and
    neither is the receiver, the call panics on the nil pointer. *)
Theorem BigInt_Add_nil_operands (h : store) (b x y : option addr)
  (vb vx vy : BigInt) :
  store_ok h ->
  deref h b = Some vb -> deref h x = Some vx -> deref h y = Some vy ->
  match seen b x vx, seen b y vy with
  | None, None => BigInt.Add b x y h = Panicked NilDereference
  | x', y' =>
      exists h', BigInt.Add b x y h = Ret (b, h') /\ store_ok h' /\
                 deref h' b = Some (mkBigInt (Some (default 0 x' + default 0 y')))
  end.
Proof.
  intros Hok Hb Hx Hy.
  destruct (ensure_spec h b vb Hok Hb) as [a [z [h1 [-> [He [Hok1 [Ha [Hz Hfr]]]]]]]].
  pose proof (Hfr x vx Hx) as Hx1. pose proof (Hfr y vy Hy) as Hy1.
  destruct (get_Int_deref h1 x _ Hx1) as [xi [Gx Px]].
  destruct (get_Int_deref h1 y _ Hy1) as [yi [Gy Py]].
  unfold BigInt.Add.
  destruct (seen (Some a) x vx) as [x'|]; destruct (seen (Some a) y vy) as [y'|].
  - destruct Px as [i [-> Ei]]. destruct Py as [j [-> Ej]].
    destruct (Int_binary_spec h1 a z _ Hok1 Ha Hz Z.add i j x' y' Ei Ej) as [h2 [E [Hok2 Hd]]].
    exists h2. split; [|now split]. run_action.
  - destruct Px as [i [-> Ei]]. subst yi.
    destruct (Int_Set_spec h1 a z _ Hok1 Ha Hz i x' Ei) as [h2 [E [Hok2 Hd]]].
    exists h2. cbn [default from_option id]. rewrite Z.add_0_r. split; [|now split]. run_action.
  - subst xi. destruct Py as [j [-> Ej]].
    destruct (Int_Set_spec h1 a z _ Hok1 Ha Hz j y' Ej) as [h2 [E [Hok2 Hd]]].
    exists h2. cbn [default from_option id]. split; [|now split]. run_action.
  - subst xi yi. run_action.
Qed.

Lemma BigInt_Add_nil_operands_witness :
  store_ok example_store /\
  deref example_store (Some 3%positive) = Some (mkBigInt None) /\
  deref example_store (Some 2%positive) = Some (mkBigInt (Some 5)) /\
  exists h',
    BigInt.Add (Some 3%positive) (Some 3%positive) (Some 2%positive)
      example_store = Ret (Some 3%positive, h') /\
    store_ok h' /\
    deref h' (Some 3%positive) = Some (mkBigInt (Some (0 + 5))).
Proof.
  split; [exact example_store_ok|]. split; [reflexivity|].
  split; [reflexivity|].
  exact (BigInt_Add_nil_operands example_store
           (Some 3%positive) (Some 3%positive) (Some 2%positive)
           (mkBigInt None) (mkBigInt None) (mkBigInt (Some 5))
           example_store_ok eq_refl eq_refl eq_refl).
Defined.

(** Two operands with a nil [Int], neither being the receiver. *)
Example BigInt_Add_panics :
  BigInt.Add (Some 2%positive) (Some 3%positive) (Some 3%positive)
    example_store = Panicked NilDereference.
Proof. reflexivity. Qed.

Lemma Int_Sign_spec h i v :
  ints h !! i = Some v -> Int_Sign (Some i) h = Ret (Z.sgn v, h).
Proof.
  intros E. unfold Int_Sign, bind_action. now rewrite (read_Int_some h i v E).
Qed.

Lemma Int_Div_at_spec h a z v0 i j vi vj q :
  store_ok h -> structs h !! a = Some (Some z) -> ints h !! z = Some v0 ->
  ints h !! i = Some vi -> ints h !! j = Some vj -> Int_Div vi vj = Some q ->
  exists h2, Int_Div_at (Some z) (Some i) (Some j) h = Ret (tt, h2) /\
             store_ok h2 /\
             deref h2 (Some a) = Some (mkBigInt (Some q)).
Proof.
  intros Hok Ha Hz Ei Ej Hq. unfold Int_Div_at, bind_action.
  rewrite (read_Int_some h i vi Ei), (read_Int_some h j vj Ej), Hq.
  now apply (write_Int_deref h a z _ v0).
Qed.

Lemma Int_Div_zero_l y : y <> 0 -> Int_Div 0 y = Some 0.
Proof.
  intros Hy. unfold Int_Div. destruct (Z.eqb_spec y 0); [contradiction|].
  destruct (0 <? y); now rewrite Z.div_0_l by lia.
Qed.

(** X22.  [Sub], [Mul] and [Div] never panic on a receiver and operands
    that the store holds: with a nil [Int] read as zero (and an operand
    that is the receiver read as what the receiver holds, zero if its
    [Int] was nil), the receiver ends with the difference, with the
    product, and with the Euclidean quotient, or with zero when the
    divisor is zero or nil. *)
Theorem BigInt_Sub_Mul_Div_total (h : store) (b x y : option addr)
  (vb vx vy : BigInt) :
  store_ok h ->
  deref h b = Some vb -> deref h x = Some vx -> deref h y = Some vy ->
  (exists h', BigInt.Sub b x y h = Ret (b, h') /\ store_ok h' /\
     deref h' b = Some (mkBigInt (Some
       (default 0 (seen b x vx) - default 0 (seen b y vy))))) /\
  (exists h', BigInt.Mul b x y h = Ret (b, h') /\ store_ok h' /\
     deref h' b = Some (mkBigInt (Some
       (default 0 (seen b x vx) * default 0 (seen b y vy))))) /\
  (exists h', BigInt.Div b x y h = Ret (b, h') /\ store_ok h' /\
     deref h' b = Some (mkBigInt (Some
       (default 0 (Int_Div (default 0 (seen b x vx))
                      (default 0 (seen b y vy))))))).
Proof.
  intros Hok Hb Hx Hy.
  destruct (ensure_spec h b vb Hok Hb) as [a [z [h1 [-> [He [Hok1 [Ha [Hz Hfr]]]]]]]].
  pose proof (Hfr x vx Hx) as Hx1. pose proof (Hfr y vy Hy) as Hy1.
  destruct (get_Int_deref h1 x _ Hx1) as [xi [Gx Px]].
  destruct (get_Int_deref h1 y _ Hy1) as [yi [Gy Py]].
  destruct (Int_SetInt64_spec h1 a z _ Hok1 Ha Hz 0) as [h0 [E0 [Hok0 Hd0]]].
  unfold BigInt.Sub, BigInt.Mul, BigInt.Div.
  destruct (seen (Some a) x vx) as [x'|]; destruct (seen (Some a) y vy) as [y'|];
    cbn [default from_option id].
  - destruct Px as [i [-> Ei]]. destruct Py as [j [-> Ej]].
    destruct (Int_binary_spec h1 a z _ Hok1 Ha Hz Z.sub i j x' y' Ei Ej) as [h2 [E2 [Hok2 Hd2]]].
    destruct (Int_binary_spec h1 a z _ Hok1 Ha Hz Z.mul i j x' y' Ei Ej) as [h3 [E3 [Hok3 Hd3]]].
    pose proof (Int_Sign_spec h1 j y' Ej) as Es.
    split; [|split].
    + exists h2. split; [|now split]. run_action.
    + exists h3. split; [|now split]. run_action.
    + destruct (Z.eq_dec y' 0) as [->|Hy0].
      * exists h0. split; [|split; [assumption|]].
        -- run_action. cbn [Z.sgn Z.eqb]. run_action.
        -- rewrite Hd0. unfold Int_Div. reflexivity.
      * destruct (Int_Div x' y') as [q|] eqn:Eq.
        2:{ unfold Int_Div in Eq. destruct (Z.eqb_spec y' 0); [contradiction|].
            destruct (0 <? y'); discriminate. }
        destruct (Int_Div_at_spec h1 a z _ i j x' y' q Hok1 Ha Hz Ei Ej Eq)
          as [h4 [E4 [Hok4 Hd4]]].
        exists h4. split; [|now split]. run_action.
        replace (Z.sgn y' =? 0) with false
          by (destruct y'; cbn; congruence).
        run_action.
  - destruct Px as [i [-> Ei]]. subst yi.
    destruct (Int_Set_spec h1 a z _ Hok1 Ha Hz i x' Ei) as [h2 [E2 [Hok2 Hd2]]].
    split; [|split].
    + exists h2. rewrite Z.sub_0_r. split; [|now split]. run_action.
    + exists h0. rewrite Z.mul_0_r. split; [|now split]. run_action.
    + exists h0. split; [|now split]. run_action.
  - subst xi. destruct Py as [j [-> Ej]].
    destruct (Int_Neg_spec h1 a z _ Hok1 Ha Hz j y' Ej) as [h2 [E2 [Hok2 Hd2]]].
    split; [|split].
    + exists h2. split; [|now split]. run_action.
    + exists h0. split; [|now split]. run_action.
    + exists h0. split; [|split; [assumption|]]; [run_action|].
      rewrite Hd0. destruct (Z.eq_dec y' 0) as [->|Hy0]; [reflexivity|].
      now rewrite Int_Div_zero_l.
  - subst xi yi. split; [|split]; exists h0; (split; [|now split]); run_action.
Qed.

Lemma BigInt_Sub_Mul_Div_total_witness :
  store_ok example_store /\
  deref example_store (Some 3%positive) = Some (mkBigInt None) /\
  deref example_store (Some 2%positive) = Some (mkBigInt (Some 5)) /\
  (exists h',
     BigInt.Sub (Some 3%positive) (Some 2%positive) (Some 3%positive)
       example_store = Ret (Some 3%positive, h') /\ store_ok h' /\
     deref h' (Some 3%positive) = Some (mkBigInt (Some (5 - 0)))) /\
  (exists h',
     BigInt.Mul (Some 3%positive) (Some 2%positive) (Some 3%positive)
       example_store = Ret (Some 3%positive, h') /\ store_ok h' /\
     deref h' (Some 3%positive) = Some (mkBigInt (Some (5 * 0)))) /\
  (exists h',
     BigInt.Div (Some 3%positive) (Some 2%positive) (Some 3%positive)
       example_store = Ret (Some 3%positive, h') /\ store_ok h' /\
     deref h' (Some 3%positive) = Some (mkBigInt (Some 0))).
Proof.
  split; [exact example_store_ok|]. split; [reflexivity|].
  split; [reflexivity|].
  exact (BigInt_Sub_Mul_Div_total example_store
           (Some 3%positive) (Some 2%positive) (Some 3%positive)
           (mkBigInt None) (mkBigInt (Some 5)) (mkBigInt None)
           example_store_ok eq_refl eq_refl eq_refl).
Defined.

Lemma Cmp_spec h b x vb vx :
  deref h b = Some vb -> deref h x = Some vx ->
  BigInt.Cmp b x h = Ret (Cmp_values (Int vb) (Int vx), h).
Proof.
  intros Hb Hx. rewrite <- (BigInt_eta vb) in Hb. rewrite <- (BigInt_eta vx) in Hx.
  destruct (get_Int_deref h b _ Hb) as [bi [Gb Pb]].
  destruct (get_Int_deref h x _ Hx) as [xi [Gx Px]].
  unfold BigInt.Cmp.
  destruct (Int vb) as [u|]; destruct (Int vx) as [w|]; cbn [Cmp_values].
  - destruct Pb as [i [-> Ei]]. destruct Px as [j [-> Ej]].
    pose proof (read_Int_some h i u Ei) as Ri.
    pose proof (read_Int_some h j w Ej) as Rj.
    run_action.
  - destruct Pb as [i [-> Ei]]. subst xi. run_action.
  - subst bi. destruct Px as [j [-> Ej]]. run_action.
  - subst bi xi. run_action.
Qed.

Lemma Cmp_values_antisym u w : Cmp_values w u = - Cmp_values u w.
Proof.
  destruct u as [p|], w as [q|]; cbn; try reflexivity.
  rewrite (Z.compare_antisym p q). now destruct (p ?= q).
Qed.

Lemma Cmp_values_zero u w : (Cmp_values u w =? 0) = bool_decide (u = w).
Proof.
  destruct u as [p|], w as [q|]; cbn [Cmp_values].
  - destruct (Z.compare_spec p q) as [->|Hlt|Hgt]; cbn.
    + now rewrite bool_decide_eq_true_2.
    + rewrite bool_decide_eq_false_2; [reflexivity|]. intros [= ->]. lia.
    + rewrite bool_decide_eq_false_2; [reflexivity|]. intros [= ->]. lia.
  - now rewrite bool_decide_eq_false_2.
  - now rewrite bool_decide_eq_false_2.
  - now rewrite bool_decide_eq_true_2.
Qed.

(** X23.  The methods that only read.  [Cmp] orders a nil [Int] below
    every integer and integers by their value: swapping receiver and
    operand negates the verdict, and the verdict is zero exactly when both
    are nil or both hold the same integer, so a nil [Int] and the integer
    zero compare as different.  [Sign], [Int64] and [Uint64] read a nil
    [Int] as zero.  None of them changes the store. *)
Theorem BigInt_Cmp_order (h : store) (b x : option addr) (vb vx : BigInt) :
  deref h b = Some vb -> deref h x = Some vx ->
  BigInt.Cmp b x h = Ret (Cmp_values (Int vb) (Int vx), h) /\
  BigInt.Cmp x b h = Ret (- Cmp_values (Int vb) (Int vx), h) /\
  (Cmp_values (Int vb) (Int vx) =? 0) = bool_decide (Int vb = Int vx) /\
  BigInt.Sign b h = Ret (Z.sgn (default 0 (Int vb)), h) /\
  BigInt.Int64 b h = Ret (Int_Int64 (default 0 (Int vb)), h) /\
  BigInt.Uint64 b h = Ret (Int_Uint64 (default 0 (Int vb)), h).
Proof.
  intros Hb Hx. split; [now apply Cmp_spec|]. split; [|split].
  - rewrite (Cmp_spec h x b vx vb Hx Hb). now rewrite Cmp_values_antisym.
  - apply Cmp_values_zero.
  - rewrite <- (BigInt_eta vb) in Hb.
    destruct (get_Int_deref h b _ Hb) as [bi [Gb Pb]].
    unfold BigInt.Sign, BigInt.Int64, BigInt.Uint64.
    destruct (Int vb) as [u|]; cbn [default from_option id].
    + destruct Pb as [i [-> Ei]].
      pose proof (read_Int_some h i u Ei) as Ri.
      pose proof (Int_Sign_spec h i u Ei) as Si.
      repeat split; run_action. exact Si.
    + subst bi. repeat split; run_action.
Qed.

Lemma BigInt_Cmp_order_witness :
  deref example_store (Some 3%positive) = Some (mkBigInt None) /\
  deref example_store (Some 2%positive) = Some (mkBigInt (Some 5)) /\
  BigInt.Cmp (Some 3%positive) (Some 2%positive) example_store
  = Ret (Cmp_values None (Some 5), example_store) /\
  BigInt.Cmp (Some 2%positive) (Some 3%positive) example_store
  = Ret (- Cmp_values None (Some 5), example_store) /\
  (Cmp_values None (Some 5) =? 0)
  = bool_decide ((None : option Z) = Some 5) /\
  BigInt.Sign (Some 3%positive) example_store = Ret (Z.sgn 0, example_store) /\
  BigInt.Int64 (Some 3%positive) example_store
  = Ret (Int_Int64 0, example_store) /\
  BigInt.Uint64 (Some 3%positive) example_store
  = Ret (Int_Uint64 0, example_store).
Proof.
  split; [reflexivity|]. split; [reflexivity|].
  exact (BigInt_Cmp_order example_store (Some 3%positive) (Some 2%positive)
           (mkBigInt None) (mkBigInt (Some 5)) eq_refl eq_refl).
Defined.

(** Allocation keeps what the store holds. *)
Lemma new_Int_spec h v :
  store_ok h ->
  exists h1, new_Int v h = Ret (Some (next h), h1) /\ store_ok h1 /\
    ints h1 !! next h = Some v /\ ints h !! next h = None /\
    structs h1 = structs h /\
    (forall i w, ints h !! i = Some w -> ints h1 !! i = Some w) /\
    (forall c vc, deref h c = Some vc -> deref h1 c = Some vc).
Proof.
  intros [Hi Hs]. eexists. split; [reflexivity|].
  assert (Hfresh : ints h !! next h = None).
  { destruct (ints h !! next h) eqn:E; [|reflexivity]. apply Hi in E. lia. }
  assert (Hkeep : forall i w, ints h !! i = Some w ->
                              <[next h := v]> (ints h) !! i = Some w).
  { intros i w E. rewrite lookup_insert_ne; [assumption|]. intros <-. congruence. }
  split; [|split; [|split; [|split; [|split]]]]; cbn.
  - split; cbn; intros c w E.
    + apply lookup_insert_Some in E. destruct E as [[<- _]|[_ E]]; [lia|].
      apply Hi in E. lia.
    + apply Hs in E. lia.
  - apply lookup_insert_eq.
  - assumption.
  - reflexivity.
  - assumption.
  - intros c vc Hc. destruct (deref_inv h c vc Hc) as [a [p [-> [Ea Hp]]]].
    unfold deref. cbn. rewrite Ea. destruct p as [i|].
    + destruct Hp as [w [Ew Evc]]. rewrite (Hkeep i w Ew).
      now rewrite <- Evc, BigInt_eta.
    + now rewrite <- Hp, BigInt_eta.
Qed.

Lemma new_struct_spec h p v :
  store_ok h ->
  match p with None => v = None | Some i => exists w, ints h !! i = Some w /\ v = Some w end ->
  exists h1, new_struct p h = Ret (Some (next h), h1) /\ store_ok h1 /\
    deref h1 (Some (next h)) = Some (mkBigInt v) /\
    deref h (Some (next h)) = None /\
    ints h1 = ints h /\
    (forall c vc, deref h c = Some vc -> deref h1 c = Some vc).
Proof.
  intros [Hi Hs] Hp. eexists. split; [reflexivity|].
  assert (Hfresh : structs h !! next h = None).
  { destruct (structs h !! next h) eqn:E; [|reflexivity]. apply Hs in E. lia. }
  split; [|split; [|split; [|split]]]; cbn.
  - split; cbn; intros c w E.
    + apply Hi in E. lia.
    + apply lookup_insert_Some in E. destruct E as [[<- _]|[_ E]]; [lia|].
      apply Hs in E. lia.
  - unfold deref. cbn. rewrite lookup_insert_eq. destruct p as [i|].
    + destruct Hp as [w [-> ->]]. reflexivity.
    + now rewrite Hp.
  - unfold deref. now rewrite Hfresh.
  - reflexivity.
  - intros c vc Hc. destruct (deref_inv h c vc Hc) as [a [q [-> [Ea Hq]]]].
    unfold deref in Hc |- *. cbn. rewrite lookup_insert_ne by (intros <-; congruence).
    exact Hc.
Qed.

Lemma new_boxed_Int h w :
  store_ok h ->
  exists b h',
    (let! z := new_Int w in new_struct z) h = Ret (b, h') /\ store_ok h' /\
    deref h b = None /\ deref h' b = Some (mkBigInt (Some w)) /\
    (exists i, get_Int b h' = Ret (Some i, h') /\ ints h' !! i = Some w) /\
    (forall c vc, deref h c = Some vc -> deref h' c = Some vc).
Proof.
  intros Hok.
  destruct (new_Int_spec h w Hok) as [h1 [E1 [Hok1 [Ez [Hf [Es [Hk Hfr]]]]]]].
  assert (Hp : exists w0, ints h1 !! next h = Some w0 /\ Some w = Some w0) by eauto.
  destruct (new_struct_spec h1 (Some (next h)) (Some w) Hok1 Hp)
    as [h2 [E2 [Hok2 [Hd [Hnone [Ei Hfr2]]]]]].
  exists (Some (next h1)), h2.
  split; [unfold bind_action; rewrite E1; exact E2|]. split; [assumption|].
  split; [|split; [assumption|split]].
  - unfold deref in Hnone |- *. rewrite <- Es.
    destruct (structs h1 !! next h1) as [[i|]|]; [|discriminate|reflexivity].
    destruct (ints h !! i) eqn:E; [|reflexivity].
    rewrite (Hk _ _ E) in Hnone. discriminate.
  - destruct (get_Int_deref h2 _ _ Hd) as [p [Gp [i [-> Hi]]]]. eauto.
  - intros c vc Hc. apply Hfr2. now apply Hfr.
Qed.

(** X24.  Construction from a machine integer and reading it back.  For
    every [int64] [v] and every [uint64] [u], [NewBigIntFromInt64] and
    [NewBigIntFromUint64] return a pointer that was not in use, to a
    [BigInt] that holds the number; [Int64] gives [v] back and [Sign] its
    sign, [Uint64] gives [u] back; every [BigInt] that the store held
    keeps its value. *)
Theorem NewBigIntFromInt64_round_trip (h : store) (v u : Z) :
  store_ok h -> MinInt64 <= v <= MaxInt64 -> 0 <= u < 2 ^ 64 ->
  (exists b h', NewBigIntFromInt64 v h = Ret (b, h') /\ store_ok h' /\
     deref h b = None /\
     deref h' b = Some (mkBigInt (Some v)) /\
     BigInt.Int64 b h' = Ret (v, h') /\
     BigInt.Sign b h' = Ret (Z.sgn v, h') /\
     (forall c vc, deref h c = Some vc -> deref h' c = Some vc)) /\
  (exists b h', NewBigIntFromUint64 u h = Ret (b, h') /\ store_ok h' /\
     deref h b = None /\
     deref h' b = Some (mkBigInt (Some u)) /\
     BigInt.Uint64 b h' = Ret (u, h') /\
     (forall c vc, deref h c = Some vc -> deref h' c = Some vc)).
Proof.
  intros Hok Hv Hu. split.
  - destruct (new_boxed_Int h v Hok) as [b [h' [E [Hok' [Hn [Hd [[i [Gi Hi]] Hfr]]]]]]].
    exists b, h'. unfold NewBigIntFromInt64. repeat (split; [assumption|]).
    pose proof (read_Int_some h' i v Hi) as Ri.
    pose proof (Int_Sign_spec h' i v Hi) as Si.
    split; [|split; [|assumption]].
    + unfold BigInt.Int64. run_action. unfold unit_action.
      now rewrite Int_Int64_small.
    + unfold BigInt.Sign. run_action. exact Si.
  - destruct (new_boxed_Int h u Hok) as [b [h' [E [Hok' [Hn [Hd [[i [Gi Hi]] Hfr]]]]]]].
    exists b, h'. unfold NewBigIntFromUint64. repeat (split; [assumption|]).
    pose proof (read_Int_some h' i u Hi) as Ri.
    split; [|assumption].
    unfold BigInt.Uint64. run_action. unfold unit_action, Int_Uint64.
    rewrite Z.abs_eq, Z.mod_small by lia. reflexivity.
Qed.

Lemma NewBigIntFromInt64_round_trip_witness :
  store_ok example_store /\ MinInt64 <= -7 <= MaxInt64 /\
  0 <= 18446744073709551615 < 2 ^ 64 /\
  (exists b h', NewBigIntFromInt64 (-7) example_store = Ret (b, h') /\
     store_ok h' /\
     deref example_store b = None /\
     deref h' b = Some (mkBigInt (Some (-7))) /\
     BigInt.Int64 b h' = Ret (-7, h') /\
     BigInt.Sign b h' = Ret (Z.sgn (-7), h') /\
     (forall c vc, deref example_store c = Some vc -> deref h' c = Some vc)) /\
  (exists b h',
     NewBigIntFromUint64 18446744073709551615 example_store = Ret (b, h') /\
     store_ok h' /\
     deref example_store b = None /\
     deref h' b = Some (mkBigInt (Some 18446744073709551615)) /\
     BigInt.Uint64 b h' = Ret (18446744073709551615, h') /\
     (forall c vc, deref example_store c = Some vc -> deref h' c = Some vc)).
Proof.
  split; [exact example_store_ok|].
  split; [vm_compute; split; discriminate|].
  split; [vm_compute; split; [discriminate|reflexivity]|].
  apply (NewBigIntFromInt64_round_trip example_store (-7) 18446744073709551615);
    [exact example_store_ok | vm_compute; split; discriminate
    | vm_compute; split; [discriminate|reflexivity]].
Defined.

Lemma ensure_keeps h b z h1 :
  store_ok h -> BigInt.ensure b h = Ret (z, h1) ->
  forall i w, ints h !! i = Some w -> ints h1 !! i = Some w.
Proof.
  intros [Hi Hs]. unfold BigInt.ensure, bind_action, get_Int.
  destruct b as [a|]; [|discriminate].
  destruct (structs h !! a) as [[p|]|]; try discriminate.
  - intros [= <- <-]. auto.
  - cbn. intros [= <- <-] i w E. cbn.
    rewrite lookup_insert_ne; [assumption|]. intros <-. apply Hi in E. lia.
Qed.

(** X25.  [Set] copies: after [b.Set(x)] the receiver holds the integer
    of [x], whatever it held before (a nil [Int] is allocated first), and
    [x] still holds its integer, also when [x] is the receiver's own
    [Int].  With a nil [x] the call panics on the nil pointer. *)
Theorem BigInt_Set_copies (h : store) (b : option addr) (vb : BigInt)
  (i : addr) (v : Z) :
  store_ok h -> deref h b = Some vb -> ints h !! i = Some v ->
  (exists h', BigInt.Set_ b (Some i) h = Ret (b, h') /\ store_ok h' /\
              deref h' b = Some (mkBigInt (Some v)) /\
              ints h' !! i = Some v) /\
  BigInt.Set_ b None h = Panicked NilDereference.
Proof.
  intros Hok Hb Hi.
  destruct (ensure_spec h b vb Hok Hb) as [a [z [h1 [-> [He [Hok1 [Ha [Hz Hfr]]]]]]]].
  pose proof (ensure_keeps h _ _ _ Hok He i v Hi) as Hi1.
  split.
  - destruct (Int_Set_spec h1 a z _ Hok1 Ha Hz i v Hi1) as [h2 [E [Hok2 Hd]]].
    exists h2. split; [|split; [assumption|split; [assumption|]]].
    + unfold BigInt.Set_. run_action.
    + unfold Int_Set, bind_action in E. rewrite (read_Int_some h1 i v Hi1) in E.
      cbn in E. injection E as <-. cbn.
      destruct (decide (z = i)) as [->|Hne].
      * apply lookup_insert_eq.
      * now rewrite lookup_insert_ne.
  - unfold BigInt.Set_. run_action.
Qed.

Lemma BigInt_Set_copies_witness :
  store_ok example_store /\
  deref example_store (Some 3%positive) = Some (mkBigInt None) /\
  ints example_store !! 1%positive = Some 5 /\
  (exists h',
     BigInt.Set_ (Some 3%positive) (Some 1%positive) example_store
     = Ret (Some 3%positive, h') /\ store_ok h' /\
     deref h' (Some 3%positive) = Some (mkBigInt (Some 5)) /\
     ints h' !! 1%positive = Some 5) /\
  BigInt.Set_ (Some 3%positive) None example_store = Panicked NilDereference.
Proof.
  split; [exact example_store_ok|]. split; [reflexivity|].
  split; [reflexivity|].
  exact (BigInt_Set_copies example_store (Some 3%positive) (mkBigInt None)
           1%positive 5 example_store_ok eq_refl eq_refl).
Defined.

(** X26.  [NewBigInt] copies its argument: for an [x] that holds [v] it
    returns a pointer that was not in use, to a [BigInt] that holds [v] in
    an integer object of its own, different from [x], and [x] keeps its
    value; for a nil [x] the new [BigInt] has a nil [Int].  Every [BigInt]
    that the store held keeps its value. *)
Theorem NewBigInt_copies (h : store) (i : addr) (v : Z) :
  store_ok h -> ints h !! i = Some v ->
  (exists b h' z, NewBigInt (Some i) h = Ret (b, h') /\ store_ok h' /\
     deref h b = None /\
     deref h' b = Some (mkBigInt (Some v)) /\
     get_Int b h' = Ret (Some z, h') /\ z <> i /\
     ints h' !! i = Some v /\
     (forall c vc, deref h c = Some vc -> deref h' c = Some vc)) /\
  (exists b h', NewBigInt None h = Ret (b, h') /\ store_ok h' /\
     deref h b = None /\
     deref h' b = Some (mkBigInt None) /\
     (forall c vc, deref h c = Some vc -> deref h' c = Some vc)).
Proof.
  intros Hok Hi. split.
  - destruct (new_Int_spec h 0 Hok) as [h1 [E1 [Hok1 [Ez [Hf [Es [Hk Hfr]]]]]]].
    assert (Hne : next h <> i) by (intros <-; congruence).
    (* Int_Set (Some (next h)) (Some i) on h1 *)
    set (h2 := {| ints := <[next h := v]> (ints h1); structs := structs h1;
                  next := next h1 |}).
    assert (E2 : Int_Set (Some (next h)) (Some i) h1 = Ret (tt, h2)).
    { unfold Int_Set, bind_action. now rewrite (read_Int_some h1 i v (Hk i v Hi)). }
    assert (Hok2 : store_ok h2).
    { destruct Hok1 as [Hi1 Hs1]. split; cbn; intros c w E.
      - apply lookup_insert_Some in E. destruct E as [[<- _]|[_ E]]; eauto.
      - eauto. }
    assert (Hz2 : ints h2 !! next h = Some v) by (cbn; apply lookup_insert_eq).
    assert (Hfr2 : forall c vc, deref h c = Some vc -> deref h2 c = Some vc).
    { intros c vc Hc. destruct (deref_inv h c vc Hc) as [a [p [-> [Ea Hp]]]].
      unfold deref. cbn. rewrite Es, Ea. destruct p as [j|].
      + destruct Hp as [w [Ew Evc]].
        rewrite lookup_insert_ne by (intros <-; congruence).
        rewrite (Hk j w Ew). now rewrite <- Evc, BigInt_eta.
      + now rewrite <- Hp, BigInt_eta. }
    assert (Hp : exists w0, ints h2 !! next h = Some w0 /\ Some v = Some w0) by eauto.
    destruct (new_struct_spec h2 (Some (next h)) (Some v) Hok2 Hp)
      as [h3 [E3 [Hok3 [Hd [Hnone [Ei Hfr3]]]]]].
    exists (Some (next h2)), h3, (next h).
    split; [unfold NewBigInt, bind_action; rewrite E1, E2; exact E3|].
    split; [assumption|]. split; [|split; [assumption|split; [|split; [assumption|split]]]].
    + unfold deref in Hnone |- *.
      destruct (structs h !! next h2) as [[j|]|] eqn:Ej; [| |reflexivity].
      * destruct Hok as [_ Hs]. apply Hs in Ej. cbn in Ej.
        destruct Hok1 as [Hi1 _]. apply Hi1 in Ez. 
        assert (next h1 = Pos.succ (next h)).
        { unfold new_Int in E1. now injection E1 as <-. }
        lia.
      * destruct Hok as [_ Hs]. apply Hs in Ej. cbn in Ej.
        assert (next h1 = Pos.succ (next h)).
        { unfold new_Int in E1. now injection E1 as <-. }
        lia.
    + unfold new_struct in E3. injection E3 as <-.
      unfold get_Int. cbn. now rewrite lookup_insert_eq.
    + rewrite Ei. cbn. rewrite lookup_insert_ne by assumption. now apply Hk.
    + intros c vc Hc. apply Hfr3. now apply Hfr2.
  - assert (Hp : (None : option Z) = None) by reflexivity.
    destruct (new_struct_spec h None None Hok Hp)
      as [h3 [E3 [Hok3 [Hd [Hnone [Ei Hfr3]]]]]].
    exists (Some (next h)), h3. unfold NewBigInt. auto 10.
Qed.

Lemma NewBigInt_copies_witness :
  store_ok example_store /\
  ints example_store !! 1%positive = Some 5 /\
  (exists b h' z,
     NewBigInt (Some 1%positive) example_store = Ret (b, h') /\ store_ok h' /\
     deref example_store b = None /\
     deref h' b = Some (mkBigInt (Some 5)) /\
     get_Int b h' = Ret (Some z, h') /\ z <> 1%positive /\
     ints h' !! 1%positive = Some 5 /\
     (forall c vc, deref example_store c = Some vc -> deref h' c = Some vc)) /\
  (exists b h', NewBigInt None example_store = Ret (b, h') /\ store_ok h' /\
     deref example_store b = None /\
     deref h' b = Some (mkBigInt None) /\
     (forall c vc, deref example_store c = Some vc -> deref h' c = Some vc)).
Proof.
  split; [exact example_store_ok|]. split; [reflexivity|].
  exact (NewBigInt_copies example_store 1%positive 5 example_store_ok eq_refl).
Defined.

(** X27.  Reading back what the package prints.  For every integer [v],
    [NewBigIntFromString] on its base-10 numeral succeeds and returns a
    pointer that was not in use, to a [BigInt] that holds [v], and every
    [BigInt] that the store held keeps its value.  On the empty string, on
    a numeral with a fraction, and on a numeral with the prefix [0x] in
    base 16, it returns nil and false. *)
Theorem NewBigIntFromString_round_trip (h : store) (v : Z) :
  store_ok h ->
  (exists b h', NewBigIntFromString (Int_String v) 10 h = Ret (b, true, h') /\
     store_ok h' /\ deref h b = None /\
     deref h' b = Some (mkBigInt (Some v)) /\
     (forall c vc, deref h c = Some vc -> deref h' c = Some vc)) /\
  NewBigIntFromString "" 10 h = Ret (None, false, h) /\
  NewBigIntFromString "12.5" 10 h = Ret (None, false, h) /\
  NewBigIntFromString "0x1f" 16 h = Ret (None, false, h).
Proof.
  intros Hok. split; [|repeat split].
  destruct (new_boxed_Int h v Hok) as [b [h' [E [Hok' [Hn [Hd [_ Hfr]]]]]]].
  exists b, h'. split; [|auto].
  unfold NewBigIntFromString. rewrite SetString_Int_String.
  unfold bind_action in E |- *. 
  destruct (new_Int v h) as [[z h1]|]; [|discriminate].
  destruct (new_struct z h1) as [[b' h2]|]; [|discriminate].
  injection E as <- <-. reflexivity.
Qed.

Lemma NewBigIntFromString_round_trip_witness :
  store_ok empty_store /\
  (exists b h',
     NewBigIntFromString (Int_String (-42)) 10 empty_store
     = Ret (b, true, h') /\
     store_ok h' /\ deref empty_store b = None /\
     deref h' b = Some (mkBigInt (Some (-42))) /\
     (forall c vc, deref empty_store c = Some vc -> deref h' c = Some vc)) /\
  NewBigIntFromString "" 10 empty_store = Ret (None, false, empty_store) /\
  NewBigIntFromString "12.5" 10 empty_store
  = Ret (None, false, empty_store) /\
  NewBigIntFromString "0x1f" 16 empty_store
  = Ret (None, false, empty_store).
Proof.
  split; [exact store_ok_empty|].
  exact (NewBigIntFromString_round_trip empty_store (-42) store_ok_empty).
Defined.
